(** * OpenTherm Manchester decoder: waveform-to-frame recovery

    A shallow embedding of [scripts/decode_opentherm.py] (the decoder) and of
    [testing/generate_pulses.py] (the idealized pulse synthesizer), with the
    properties of the decoder that the specification states.

    Conventions of the embedding.
    - A level is a [bool]: [true] is HIGH (Python [1] / [True]), [false] is
      LOW (Python [0] / [False]).
    - A duration is a Python [int], hence a [Z].  The data model restricts
      durations to strictly positive values; the one property that needs a
      duration not to be negative states it as a hypothesis.
    - The decoder returns [None] on every failure and tells the failures
      apart only by the message it prints; [Failed e] records which
      [return None] was taken, named after the error taxonomy.
    - Index accesses of the source are all guarded by bounds tests; the
      embedding keeps the guards and reads with [nth]. *)

From Stdlib Require Import ZArith List Bool Arith Lia.
From Stdlib Require Import Ascii.
From Stdlib Require String DecimalString.
Import String.StringSyntax.
Delimit Scope string_scope with string.
Import ListNotations.

Open Scope Z_scope.

(** ** Data model *)

(** [Pulse = Tuple[Level, int]]: a level and a duration in microseconds. *)
Abbreviation pulse := (bool * Z)%type (only parsing).

Definition HIGH : bool := true.
Definition LOW : bool := false.

Inductive decode_error : Type :=
| InvalidDuration
| HalfCountMismatch
| InvalidManchester
| InvalidStartBit
| InvalidStopBit
| ParityError.

(** The value of [decode_opentherm]: the pair [(frame, bits)] or a failure. *)
Inductive result : Type :=
| Decoded (frame : Z) (bits : list Z)
| Failed (e : decode_error).

(** ** Timing constants *)

Definition ONE_MIN : Z := 300.
Definition ONE_MAX : Z := 700.
Definition TWO_MIN : Z := 700.
Definition TWO_MAX : Z := 1300.
Definition GLITCH_MAX_US : Z := 200.

(** ** List access as the source does it *)

Definition get (interrupts : list pulse) (i : nat) : pulse :=
  nth i interrupts (LOW, 0).

Definition lvl (interrupts : list pulse) (i : nat) : bool :=
  fst (get interrupts i).

Definition dur_of (interrupts : list pulse) (i : nat) : Z :=
  snd (get interrupts i).

Definition in_range (interrupts : list pulse) (i : nat) : bool :=
  (i <? length interrupts)%nat.

(** [half_levels[-1]] and [half_levels[-2]]; both reads are guarded by a
    length test in the source. *)
Definition last_half (half_levels : list bool) : bool :=
  nth (length half_levels - 1) half_levels LOW.

Definition second_last_half (half_levels : list bool) : bool :=
  nth (length half_levels - 2) half_levels LOW.

(** ** Duration classification (lines 146-152 and 175-181) *)

Definition classify (dur : Z) : option nat :=
  if (ONE_MIN <=? dur) && (dur <? ONE_MAX) then Some 1%nat
  else if (TWO_MIN <=? dur) && (dur <=? TWO_MAX) then Some 2%nat
  else None.

(** [if len(half_levels) < 68: half_levels.append(level)] *)
Definition push_capped (half_levels : list bool) (level : bool) : list bool :=
  if (length half_levels <? 68)%nat then half_levels ++ [level]
  else half_levels.

(** [for _ in range(halves): if len(half_levels) < 68: ...] *)
Fixpoint push_halves (halves : nat) (half_levels : list bool) (level : bool)
  : list bool :=
  match halves with
  | O => half_levels
  | S n => push_halves n (push_capped half_levels level) level
  end.

(** ** Idle/start merge (lines 73-75) *)

Definition start_fix (interrupts : list pulse) : list bool :=
  if (1 <? length interrupts)%nat
     && Bool.eqb (lvl interrupts 0) HIGH
     && Bool.eqb (lvl interrupts 1) LOW
  then [HIGH] else [].

(** ** Glitch handling (lines 82-106) *)

(** What one iteration of the main loop did; it is the tag of the trace line
    the iteration prints.  [KGlitchRestore fixed] carries whether a stretched
    half was removed first ([Glitch fix]). *)
Inductive step_kind : Type :=
| KGlitchSkip
| KGlitchRestore (fixed : bool)
| KFlip
| KClassify.

(** The restore test of line 88. *)
Definition restore_cond (prev_half_level next_level : bool) (next_dur : Z)
           (level : bool) : bool :=
  Bool.eqb prev_half_level next_level
  && (ONE_MIN <=? next_dur)
  && negb (Bool.eqb level prev_half_level).

(** The test of lines 92-95 that decides whether one half is popped. *)
Definition stretched_cond (interrupts : list pulse) (i : nat)
           (half_levels : list bool) (prev_half_level : bool) : bool :=
  if (1 <? i)%nat then
    let prev_seg_dur := dur_of interrupts (i - 1) in
    (700 <=? prev_seg_dur) && (prev_seg_dur <=? 1100)
    && (2 <=? length half_levels)%nat
    && Bool.eqb (second_last_half half_levels) prev_half_level
  else false.

Definition glitch_step (interrupts : list pulse) (i : nat) (level : bool)
           (half_levels : list bool) : step_kind * list bool :=
  if (0 <? length half_levels)%nat && in_range interrupts (i + 1) then
    let prev_half_level := last_half half_levels in
    let next_level := lvl interrupts (i + 1) in
    let next_dur := dur_of interrupts (i + 1) in
    if restore_cond prev_half_level next_level next_dur level then
      if stretched_cond interrupts i half_levels prev_half_level then
        (KGlitchRestore true, removelast half_levels ++ [level])
      else
        (KGlitchRestore false, half_levels ++ [level])
    else (KGlitchSkip, half_levels)
  else (KGlitchSkip, half_levels).

(** ** Same-level run merge (lines 112-129) *)

(** The flip pattern that stops the merge early (lines 118-123). *)
Definition flip_pattern (interrupts : list pulse) (i : nat) (level : bool)
           (next_dur : Z) : bool :=
  (ONE_MIN <=? next_dur) && (next_dur <=? ONE_MAX)
  && in_range interrupts (i + 2)
  && (dur_of interrupts (i + 2) <? GLITCH_MAX_US)
  && negb (Bool.eqb (lvl interrupts (i + 2)) level)
  && in_range interrupts (i + 3)
  && Bool.eqb (lvl interrupts (i + 3)) level.

(** The inner [while] loop.  [rest] is [interrupts[i+1:]]: it is empty exactly
    when [i + 1 < len(interrupts)] fails and its head is [interrupts[i+1]];
    the recursion is structural on it.  Returns the final [(i, dur)]. *)
Fixpoint merge_run (interrupts : list pulse) (level : bool)
         (rest : list pulse) (i : nat) (dur : Z) : nat * Z :=
  match rest with
  | [] => (i, dur)
  | (next_level, next_dur) :: rest' =>
      if Bool.eqb next_level level then
        if flip_pattern interrupts i level next_dur then (i, dur)
        else merge_run interrupts level rest' (i + 1) (dur + next_dur)
      else (i, dur)
  end.

(** ** Flip pattern (lines 136-172) *)

(** The test of lines 136-140, evaluated after the merge. *)
Definition flip_check (interrupts : list pulse) (i : nat) (level : bool)
  : bool :=
  in_range interrupts (i + 2)
  && Bool.eqb (lvl interrupts (i + 1)) level
  && (ONE_MIN <=? dur_of interrupts (i + 1))
  && (dur_of interrupts (i + 1) <=? ONE_MAX)
  && (dur_of interrupts (i + 2) <? GLITCH_MAX_US)
  && negb (Bool.eqb (lvl interrupts (i + 2)) level).

(** Lines 161-168: the flipped segment; there is no [else] branch. *)
Definition push_flipped (half_levels : list bool) (glitch_level : bool)
           (flipped_dur : Z) : list bool :=
  if (ONE_MIN <=? flipped_dur) && (flipped_dur <? ONE_MAX) then
    half_levels ++ [glitch_level]
  else if (TWO_MIN <=? flipped_dur) && (flipped_dur <=? TWO_MAX) then
    push_capped (half_levels ++ [glitch_level]) glitch_level
  else half_levels.

(** ** One iteration of the main loop (lines 79-188) *)

Inductive body_result : Type :=
| Next (k : step_kind) (i : nat) (half_levels : list bool)
| Abort (e : decode_error).

Definition loop_body (interrupts : list pulse) (i : nat)
           (half_levels : list bool) : body_result :=
  let level := lvl interrupts i in
  let dur := dur_of interrupts i in
  if dur <? GLITCH_MAX_US then
    let '(k, half_levels') := glitch_step interrupts i level half_levels in
    Next k (i + 1) half_levels'
  else
    let '(j, dur') :=
      merge_run interrupts level (skipn (i + 1) interrupts) i dur in
    if flip_check interrupts j level then
      let glitch_level := lvl interrupts (j + 2) in
      let flipped_dur := dur_of interrupts (j + 1) + dur_of interrupts (j + 2) in
      match classify dur' with
      | None => Abort InvalidDuration
      | Some halves =>
          let half_levels1 := push_halves halves half_levels level in
          Next KFlip (j + 3) (push_flipped half_levels1 glitch_level flipped_dur)
      end
    else
      match classify dur' with
      | None => Abort InvalidDuration
      | Some halves =>
          Next KClassify (j + 1) (push_halves halves half_levels level)
      end.

(** The guard of the main [while] loop (line 78). *)
Definition loop_cond (interrupts : list pulse) (i : nat)
           (half_levels : list bool) : bool :=
  in_range interrupts i && (length half_levels <? 68)%nat.

(** The main loop.  Every iteration moves the cursor forward, so
    [length interrupts] iterations always suffice; [None] is the exhausted
    fuel, which [preprocess_total] shows never to occur. *)
Fixpoint main_loop (fuel : nat) (interrupts : list pulse) (i : nat)
         (half_levels : list bool) : option (decode_error + list bool) :=
  if loop_cond interrupts i half_levels then
    match fuel with
    | O => None
    | S fuel' =>
        match loop_body interrupts i half_levels with
        | Next _ i' half_levels' => main_loop fuel' interrupts i' half_levels'
        | Abort e => Some (inl e)
        end
    end
  else Some (inr half_levels).

(** Lines 69-188: the half-bit buffer at the exit of the main loop. *)
Definition preprocess (interrupts : list pulse)
  : option (decode_error + list bool) :=
  main_loop (length interrupts) interrupts 1 (start_fix interrupts).

(** ** End inference (lines 191-193) *)

Definition end_fix (half_levels : list bool) : list bool :=
  if (length half_levels =? 67)%nat && Bool.eqb (nth 66 half_levels LOW) HIGH
  then half_levels ++ [LOW] else half_levels.

(** ** Manchester bit decoding (lines 200-215) *)

Fixpoint manchester_from (half_levels : list bool) (positions : list nat)
         (bits : list Z) : decode_error + list Z :=
  match positions with
  | [] => inr bits
  | b :: positions' =>
      let a := nth (2 * b) half_levels LOW in
      let c := nth (2 * b + 1) half_levels LOW in
      if Bool.eqb a c then inl InvalidManchester
      else if Bool.eqb a HIGH && Bool.eqb c LOW then
        manchester_from half_levels positions' (bits ++ [1])
      else if Bool.eqb a LOW && Bool.eqb c HIGH then
        manchester_from half_levels positions' (bits ++ [0])
      else inl InvalidManchester
  end.

Definition manchester_bits (half_levels : list bool) : decode_error + list Z :=
  manchester_from half_levels (seq 0 34) [].

(** ** Frame assembly and validation (lines 218-235) *)

(** [for b in range(1, 33): frame = (frame << 1) | bits[b]] *)
Definition build_frame (bits : list Z) : Z :=
  fold_left (fun frame b => Z.lor (Z.shiftl frame 1) (nth b bits 0))
            (seq 1 32) 0.

(** [bin(n).count('1')]: the number of ones among the binary digits. *)
Fixpoint ones (p : positive) : nat :=
  match p with
  | xH => 1
  | xO q => ones q
  | xI q => S (ones q)
  end.

Definition popcount (n : Z) : nat :=
  match n with
  | Z0 => O
  | Zpos p => ones p
  | Zneg p => ones p
  end.

Definition validate (bits : list Z) : result :=
  if negb (nth 0 bits 0 =? 1) then Failed InvalidStartBit
  else if negb (nth 33 bits 0 =? 1) then Failed InvalidStopBit
  else
    let frame := build_frame bits in
    if negb (Nat.even (popcount frame)) then Failed ParityError
    else Decoded frame bits.

(** Lines 190-235: everything after the main loop. *)
Definition decode_halves (half_levels : list bool) : result :=
  let half_levels := end_fix half_levels in
  if negb (length half_levels =? 68)%nat then Failed HalfCountMismatch
  else
    match manchester_bits half_levels with
    | inl e => Failed e
    | inr bits => validate bits
    end.

(** ** The decoder *)

Definition decode_opentherm (interrupts : list pulse) : option result :=
  match preprocess interrupts with
  | None => None
  | Some (inl e) => Some (Failed e)
  | Some (inr half_levels) => Some (decode_halves half_levels)
  end.

(** * The idealized pulse synthesizer ([testing/generate_pulses.py]) *)

(** State of [emit_halfbit_stream]: the pulses emitted so far and the number
    of values already drawn from the random generator. *)
Definition emitter : Type := list pulse * nat.

(** The local function [half].  [rand n] stands for the [n]-th value that
    [random.randint(-jitter_us, jitter_us)] returns after seeding; it is read
    only when [jitter_us] is non-zero. *)
Definition half (half_us jitter_us : Z) (rand : nat -> Z) (st : emitter)
           (level : bool) : emitter :=
  let '(pulses, n) := st in
  if jitter_us =? 0 then (pulses ++ [(level, half_us)], n)
  else
    let dur := half_us + rand n in
    let dur := if dur <? 1 then 1 else dur in
    (pulses ++ [(level, dur)], S n).

(** The local function [emit_bit]: Manchester, two half-bits per bit. *)
Definition emit_bit (half_us jitter_us : Z) (rand : nat -> Z) (st : emitter)
           (bit : Z) : emitter :=
  if bit =? 1 then
    half half_us jitter_us rand (half half_us jitter_us rand st HIGH) LOW
  else
    half half_us jitter_us rand (half half_us jitter_us rand st LOW) HIGH.

(** [range(31, -1, -1)] *)
Definition frame_positions : list Z := map Z.of_nat (rev (seq 0 32)).

(** [None] is the [ValueError] raised for a frame that does not fit 32 bits. *)
Definition emit_halfbit_stream (frame half_us idle_us jitter_us : Z)
           (rand : nat -> Z) : option (list pulse) :=
  if negb ((0 <=? frame) && (frame <=? 0xFFFFFFFF)) then None
  else
    let st : emitter := ([(LOW, idle_us)], O) in
    let st := emit_bit half_us jitter_us rand st 1 in
    let st :=
      fold_left
        (fun st i =>
           emit_bit half_us jitter_us rand st (Z.land (Z.shiftr frame i) 1))
        frame_positions st in
    let st := emit_bit half_us jitter_us rand st 1 in
    Some (fst st).

(** [out[-1]], read only when [out] is not empty. *)
Definition last_pulse (out : list pulse) : pulse := last out (LOW, 0).

(** One iteration of the loop of [collapse_runs]; [None] is the [ValueError]
    raised for a non-positive duration. *)
Definition collapse_step (out : list pulse) (p : pulse) : option (list pulse) :=
  let '(level, dur) := p in
  if dur <=? 0 then None
  else
    match out with
    | [] => Some (out ++ [(level, dur)])
    | _ :: _ =>
        if negb (Bool.eqb (fst (last_pulse out)) level) then
          Some (out ++ [(level, dur)])
        else
          Some (removelast out ++ [(level, snd (last_pulse out) + dur)])
    end.

Fixpoint collapse_from (out : list pulse) (pulses : list pulse)
  : option (list pulse) :=
  match pulses with
  | [] => Some out
  | p :: pulses' =>
      match collapse_step out p with
      | None => None
      | Some out' => collapse_from out' pulses'
      end
  end.

Definition collapse_runs (pulses : list pulse) : option (list pulse) :=
  collapse_from [] pulses.

(** Encoding with the idealized synthesizer (500us halves, no jitter) and
    decoding the resulting pulse stream. *)
Definition no_jitter : nat -> Z := fun _ => 0.

Definition round_trip (frame idle_us : Z) : option result :=
  match emit_halfbit_stream frame 500 idle_us 0 no_jitter with
  | None => None
  | Some stage1 =>
      match collapse_runs stage1 with
      | None => None
      | Some stage2 => decode_opentherm stage2
      end
  end.

(** * States of the main loop *)

(** The states [(i, half_levels)] in which the main loop of
    [decode_opentherm interrupts] evaluates its guard. *)
Inductive reachable (interrupts : list pulse) : nat -> list bool -> Prop :=
| reach_init : reachable interrupts 1 (start_fix interrupts)
| reach_step : forall i half_levels k i' half_levels',
    reachable interrupts i half_levels ->
    loop_cond interrupts i half_levels = true ->
    loop_body interrupts i half_levels = Next k i' half_levels' ->
    reachable interrupts i' half_levels'.

(** * Auxiliary definitions for the properties *)

(** The structural bit of position [b]: 1 for HIGH then LOW, 0 otherwise. *)
Definition pair_bit (half_levels : list bool) (b : nat) : Z :=
  if nth (2 * b) half_levels LOW then 1 else 0.

(** The pair of position [b] has a transition between its two halves. *)
Definition pair_differs (half_levels : list bool) (b : nat) : bool :=
  negb (Bool.eqb (nth (2 * b) half_levels LOW) (nth (2 * b + 1) half_levels LOW)).

(** The state after [n] iterations of the main loop, when the guard held
    and no iteration aborted. *)
Fixpoint iterate (n : nat) (interrupts : list pulse) : option (nat * list bool) :=
  match n with
  | O => Some (1%nat, start_fix interrupts)
  | S n' =>
      match iterate n' interrupts with
      | Some (i, half_levels) =>
          if loop_cond interrupts i half_levels then
            match loop_body interrupts i half_levels with
            | Next _ i' half_levels' => Some (i', half_levels')
            | Abort _ => None
            end
          else None
      | None => None
      end
  end.

(** The two half-bit levels of each bit, in transmission order. *)
Definition halves_of (bits : list Z) : list bool :=
  flat_map (fun b => if b =? 1 then [HIGH; LOW] else [LOW; HIGH]) bits.

(** One pulse of [half_us] per half-bit. *)
Definition timed (half_us : Z) (levels : list bool) : list pulse :=
  map (fun level => (level, half_us)) levels.

(** The 32 frame bits, most significant first. *)
Definition frame_bits (frame : Z) : list Z :=
  map (fun i => Z.land (Z.shiftr frame i) 1) frame_positions.

(** Start bit, frame bits, stop bit. *)
Definition structural_bits (frame : Z) : list Z :=
  1 :: frame_bits frame ++ [1].

(** The runs of a stream, the run in progress being [cur]. *)
Fixpoint runs_acc (cur : pulse) (pulses : list pulse) : list pulse :=
  match pulses with
  | [] => [cur]
  | (level, dur) :: pulses' =>
      if Bool.eqb (fst cur) level then runs_acc (level, snd cur + dur) pulses'
      else cur :: runs_acc (level, dur) pulses'
  end.

(** The half-bits a stream stands for when every pulse is classified. *)
Definition expand (pulses : list pulse) : list bool :=
  flat_map (fun p : pulse =>
              match classify (snd p) with
              | Some halves => repeat (fst p) halves
              | None => []
              end) pulses.

(** Every pulse has a valid duration and a level different from the level
    [prev] of the pulse before it. *)
Fixpoint clean (prev : bool) (pulses : list pulse) : Prop :=
  match pulses with
  | [] => True
  | (level, dur) :: pulses' =>
      level <> prev /\ classify dur <> None /\ clean level pulses'
  end.

(** A structural bit is 0 or 1. *)
Definition is_bit (b : Z) : Prop := b = 0 \/ b = 1.

(** The main loop run from cursor [i] with exactly the fuel it needs. *)
Definition run (interrupts : list pulse) (i : nat) (half_levels : list bool)
  : option (decode_error + list bool) :=
  main_loop (length interrupts - i) interrupts i half_levels.

(** The stream [interrupts] without the pulse at index [g]. *)
Definition remove_at (g : nat) (interrupts : list pulse) : list pulse :=
  firstn g interrupts ++ skipn (S g) interrupts.

(** An iteration result with its cursor moved one index further. *)
Definition shift_cursor (r : body_result) : body_result :=
  match r with
  | Next k i half_levels => Next k (i + 1) half_levels
  | Abort e => Abort e
  end.

(** * Sample pulse streams *)

(** [n] pulses of duration [dur] with alternating levels, the first one at
    [level]. *)
Fixpoint alternate (n : nat) (level : bool) (dur : Z) : list pulse :=
  match n with
  | O => []
  | S n' => (level, dur) :: alternate n' (negb level) dur
  end.

(** A stretched LOW segment followed by a truncated HIGH pulse. *)
Definition stretched_stream : list pulse :=
  [(LOW, 5000); (HIGH, 500); (LOW, 900); (HIGH, 75); (LOW, 500)].

(** The capture of the comment at line 111: [L987,L514,H4,L482]. *)
Definition flip_stream : list pulse :=
  [(LOW, 5000); (HIGH, 500); (LOW, 987); (LOW, 514); (HIGH, 4); (LOW, 482)].

(** 66 half-bits, then a segment of two halves followed by the flip pattern. *)
Definition overflow_stream : list pulse :=
  (LOW, 5000) :: alternate 33 HIGH 1000
    ++ [(LOW, 1000); (LOW, 500); (HIGH, 50); (LOW, 500)].

(** A stream whose third pulse is too short for a half-bit and too long for
    a glitch. *)
Definition short_stream : list pulse :=
  [(LOW, 5000); (HIGH, 500); (LOW, 250); (HIGH, 500)].

(** The pulses of frame [0x80190000] without the final LOW half of the stop
    bit (it merges with the idle level that follows the frame). *)
Definition open_ended_stream : list pulse :=
  [(LOW, 5000); (HIGH, 500); (LOW, 500); (HIGH, 500); (LOW, 1000)]
    ++ alternate 18 HIGH 500
    ++ [(HIGH, 1000); (LOW, 500); (HIGH, 500); (LOW, 1000); (HIGH, 500);
        (LOW, 500); (HIGH, 1000); (LOW, 1000)]
    ++ alternate 30 HIGH 500
    ++ [(HIGH, 1000)].

(** The same frame with the first half of one bit lost: two equal halves
    meet inside a bit period. *)
Definition broken_stream : list pulse :=
  [(LOW, 5000); (HIGH, 500); (LOW, 500); (HIGH, 1000); (LOW, 1000)]
    ++ alternate 18 HIGH 500
    ++ [(HIGH, 1000); (LOW, 500); (HIGH, 500); (LOW, 1000); (HIGH, 500);
        (LOW, 500); (HIGH, 1000); (LOW, 1000)]
    ++ alternate 30 HIGH 500
    ++ [(HIGH, 500); (LOW, 500)].

(** Frame [0x80190000] with its first two-half LOW segment split in three by
    a 50us HIGH pulse. *)
Definition split_stream : list pulse :=
  [(LOW, 5000); (HIGH, 500); (LOW, 500); (HIGH, 500);
   (LOW, 750); (HIGH, 50); (LOW, 250)]
    ++ alternate 18 HIGH 500
    ++ [(HIGH, 1000); (LOW, 500); (HIGH, 500); (LOW, 1000); (HIGH, 500);
        (LOW, 500); (HIGH, 1000); (LOW, 1000)]
    ++ alternate 30 HIGH 500
    ++ [(HIGH, 1000); (LOW, 500)].

(** Frame [0x80190000] with a 50us LOW pulse in front of its first two-half
    LOW segment. *)
Definition noisy_stream : list pulse :=
  ([(LOW, 5000); (HIGH, 500); (LOW, 500)] ++ [(HIGH, 500)])
    ++ (LOW, 50) :: (LOW, 1000)
    :: alternate 18 HIGH 500
    ++ [(HIGH, 1000); (LOW, 500); (HIGH, 500); (LOW, 1000); (HIGH, 500);
        (LOW, 500); (HIGH, 1000); (LOW, 1000)]
    ++ alternate 30 HIGH 500
    ++ [(HIGH, 1000); (LOW, 500)].

(** The half-bits collected on [open_ended_stream] and on [broken_stream]. *)
Definition open_ended_halves : list bool :=
  Eval vm_compute in
    match preprocess open_ended_stream with
    | Some (inr half_levels) => half_levels
    | _ => []
    end.

Definition broken_halves : list bool :=
  Eval vm_compute in
    match preprocess broken_stream with
    | Some (inr half_levels) => half_levels
    | _ => []
    end.

(** The 34 structural bits of frame [0x80190000]. *)
Definition sample_bits : list Z :=
  [1; 1; 0; 0; 0; 0; 0; 0; 0; 0; 0; 0; 1; 1; 0; 0; 1;
   0; 0; 0; 0; 0; 0; 0; 0; 0; 0; 0; 0; 0; 0; 0; 0; 1].

(** * Auxiliary definitions for the synthesizer *)

(** The duration [half] gives to the half-bit that takes the [n]-th random
    draw. *)
Definition half_duration (half_us jitter_us : Z) (rand : nat -> Z) (n : nat)
  : Z :=
  if jitter_us =? 0 then half_us
  else if half_us + rand n <? 1 then 1 else half_us + rand n.

(** The pulses of successive half-bits, the first one taking draw [n]. *)
Fixpoint jittered (half_us jitter_us : Z) (rand : nat -> Z) (n : nat)
         (levels : list bool) : list pulse :=
  match levels with
  | [] => []
  | level :: levels' =>
      (level, half_duration half_us jitter_us rand n)
        :: jittered half_us jitter_us rand (S n) levels'
  end.

(** No two adjacent pulses have the same level. *)
Fixpoint alternating (pulses : list pulse) : Prop :=
  match pulses with
  | [] => True
  | p :: pulses' =>
      match pulses' with
      | [] => True
      | q :: _ => fst p <> fst q
      end /\ alternating pulses'
  end.

(** The sum of the durations of a stream. *)
Definition total_duration (pulses : list pulse) : Z :=
  fold_right (fun p acc => snd p + acc) 0 pulses.

(** A sequence of levels without its consecutive repetitions. *)
Fixpoint squeeze (levels : list bool) : list bool :=
  match levels with
  | [] => []
  | level :: levels' =>
      match levels' with
      | [] => [level]
      | next :: _ =>
          if Bool.eqb level next then squeeze levels'
          else level :: squeeze levels'
      end
  end.

(** Draws that alternate between +80 and -80, for a jitter of 80us. *)
Definition sample_rand (n : nat) : Z := if Nat.even n then 80 else -80.

(** A stream with one repeated level. *)
Definition repeated_stream : list pulse :=
  [(LOW, 5000); (HIGH, 500); (HIGH, 500); (LOW, 500)].

(** A HIGH idle pulse followed by a LOW pulse. *)
Definition high_idle_stream : list pulse :=
  [(HIGH, 5000); (LOW, 500); (HIGH, 1000)].

(** * The frame humanizer ([scripts/humanize_serial_log.py]) and its caller *)

(** A Python string that is read character by character is a list of
    characters; the labels of the message types and the source letter are
    strings. *)

(** [dict.get(key, default)], the dictionary being the list of its items. *)
Fixpoint dict_get {V : Type} (d : list (Z * V)) (key : Z) (default : V) : V :=
  match d with
  | [] => default
  | (k, v) :: d' => if k =? key then v else dict_get d' key default
  end.

Definition MASTER_MSG_TYPES : list (Z * String.string) :=
  [ (0, "READ-DATA"%string);
    (1, "WRITE-DATA"%string);
    (2, "INVALID-DATA"%string);
    (3, "RESERVED"%string);
    (4, "RESERVED"%string);
    (5, "RESERVED"%string);
    (6, "RESERVED"%string);
    (7, "RESERVED"%string) ].

Definition SLAVE_MSG_TYPES : list (Z * String.string) :=
  [ (0, "RESERVED"%string);
    (1, "RESERVED"%string);
    (2, "RESERVED"%string);
    (3, "RESERVED"%string);
    (4, "READ-ACK"%string);
    (5, "WRITE-ACK"%string);
    (6, "DATA-INVALID"%string);
    (7, "UNKNOWN-DATAID"%string) ].

(** The value of a binary digit. *)
Definition digit_value (c : ascii) : option Z :=
  if (c =? "0")%char then Some 0
  else if (c =? "1")%char then Some 1
  else None.

Fixpoint int_digits (acc : Z) (b : list ascii) : option Z :=
  match b with
  | [] => Some acc
  | c :: b' =>
      match digit_value c with
      | None => None
      | Some d => int_digits (2 * acc + d) b'
      end
  end.

(** [int(b, 2)] for a string [b] made of the digits 0 and 1, the only strings
    that [LINE_RE] lets through to [decode_frame]: [None] is the [ValueError]
    that the empty string raises.  Python also accepts blanks, a sign, a
    [0b] prefix and underscores, which are not described here: every
    property below that reads a string states that it is made of binary
    digits. *)
Definition int_base2 (b : list ascii) : option Z :=
  match b with
  | [] => None
  | _ :: _ => int_digits 0 b
  end.

Definition bits_to_u8 (b : list ascii) : option Z := int_base2 b.

Definition bits_to_u16 (b : list ascii) : option Z := int_base2 b.

Definition u16_to_s16 (v : Z) : Z :=
  if negb (Z.land v 0x8000 =? 0) then v - 0x10000 else v.

Definition parity_ok (frame_bits : list ascii) : bool :=
  (count_occ ascii_dec frame_bits "1"%char mod 2 =? 0)%nat.

(** The slice [s[a:b]] for [0 <= a <= b]. *)
Definition slice {A : Type} (a b : nat) (s : list A) : list A :=
  firstn (b - a) (skipn a s).

(** The entries of the list [warnings] of [decode_frame]. *)
Inductive warning : Type :=
| SPARE_NOT_ZERO (spare : Z)
| PARITY_ERROR.

(** The values that [decode_frame] computes before it formats its text. *)
Record frame_fields : Type := {
  is_master_to_slave : bool;
  p_bit : Z;
  msg_type : Z;
  spare : Z;
  data_id : Z;
  data_val : Z;
  msg_name : String.string;
  par_ok : bool;
  warnings : list warning
}.

(** [decode_frame] up to the text it returns: the fields, the name of the
    message type, the parity verdict and the warnings.  The payload text
    (lines 182-191) and the final formatting are not part of the model.
    [None] is the [ValueError] of an empty slice. *)
Definition decode_frame (src : String.string) (frame_bits : list ascii)
  : option frame_fields :=
  let is_master_to_slave := String.eqb src "T" in
  match bits_to_u8 (slice 0 1 frame_bits) with
  | None => None
  | Some p_bit =>
  match bits_to_u8 (slice 1 4 frame_bits) with
  | None => None
  | Some msg_type =>
  match bits_to_u8 (slice 4 8 frame_bits) with
  | None => None
  | Some spare =>
  match bits_to_u8 (slice 8 16 frame_bits) with
  | None => None
  | Some data_id =>
  match bits_to_u16 (slice 16 32 frame_bits) with
  | None => None
  | Some data_val =>
      let msg_name :=
        dict_get (if is_master_to_slave then MASTER_MSG_TYPES
                  else SLAVE_MSG_TYPES) msg_type "UNKNOWN"%string in
      let par_ok := parity_ok frame_bits in
      let warnings := [] in
      let warnings :=
        if negb (spare =? 0) then warnings ++ [SPARE_NOT_ZERO spare]
        else warnings in
      let warnings :=
        if negb par_ok then warnings ++ [PARITY_ERROR] else warnings in
      Some {| is_master_to_slave := is_master_to_slave;
              p_bit := p_bit;
              msg_type := msg_type;
              spare := spare;
              data_id := data_id;
              data_val := data_val;
              msg_name := msg_name;
              par_ok := par_ok;
              warnings := warnings |}
  end end end end end.

(** The binary digits of a positive number, most significant first. *)
Fixpoint pos_digits (p : positive) : list ascii :=
  match p with
  | xH => ["1"%char]
  | xO p' => pos_digits p' ++ ["0"%char]
  | xI p' => pos_digits p' ++ ["1"%char]
  end.

(** The digits that the presentation type [b] gives to the magnitude. *)
Definition magnitude_digits (n : Z) : list ascii :=
  match n with
  | Z0 => ["0"%char]
  | Zpos p => pos_digits p
  | Zneg p => pos_digits p
  end.

(** [f"{n:032b}"]: the sign of a negative number, then zeros up to a width
    of 32 characters, then the binary digits. *)
Definition format_032b (n : Z) : list ascii :=
  let sign := if n <? 0 then ["-"%char] else [] in
  let digits := magnitude_digits n in
  sign ++ repeat "0"%char (32 - length sign - length digits) ++ digits.

(** [format_frame_with_humanize] up to the call of [process_line]: the source
    letter and the frame bits that the line is built from. *)
Definition format_frame_with_humanize (frame : Z)
  : String.string * list ascii :=
  let frame_bits := format_032b frame in
  let msg_type := Z.land (Z.shiftr frame 28) 0x7 in
  let src := if msg_type <=? 3 then "T"%string else "B"%string in
  (src, frame_bits).

(** [str(b)] for an integer. *)
Definition str (b : Z) : list ascii :=
  String.list_ascii_of_string
    (DecimalString.NilZero.string_of_int (Z.to_int b)).

(** Line 287 of [process_input]: [''.join(str(b) for b in bits[1:33])]. *)
Definition bits_str (bits : list Z) : list ascii :=
  concat (map str (slice 1 33 bits)).

(** ** Auxiliary definitions for the humanizer *)

Definition binary_digit (c : ascii) : Prop := c = "0"%char \/ c = "1"%char.

(** The character of a bit. *)
Definition bit_char (b : Z) : ascii := if b =? 1 then "1"%char else "0"%char.

(** The bits [lo .. lo + k - 1] of a frame, most significant first. *)
Definition field_bits (frame : Z) (lo k : nat) : list Z :=
  map (fun i => Z.land (Z.shiftr frame i) 1) (map Z.of_nat (rev (seq lo k))).

(** A string of three binary digits. *)
Definition short_frame_bits : list ascii := ["1"%char; "0"%char; "1"%char].

(** * Properties *)

(** ** Boolean tests as propositions *)

Ltac btrue :=
  repeat match goal with
  | H : negb _ = true |- _ => apply negb_true_iff in H
  | H : negb _ = false |- _ => apply negb_false_iff in H
  | H : _ && _ = true |- _ => apply andb_true_iff in H; destruct H
  | H : (_ <=? _) = true |- _ => apply Z.leb_le in H
  | H : (_ <=? _) = false |- _ => apply Z.leb_gt in H
  | H : (_ <? _) = true |- _ => apply Z.ltb_lt in H
  | H : (_ <? _) = false |- _ => apply Z.ltb_ge in H
  | H : (_ =? _) = true |- _ => apply Z.eqb_eq in H
  | H : (_ =? _) = false |- _ => apply Z.eqb_neq in H
  | H : (_ <? _)%nat = true |- _ => apply Nat.ltb_lt in H
  | H : (_ <? _)%nat = false |- _ => apply Nat.ltb_ge in H
  | H : (_ <=? _)%nat = true |- _ => apply Nat.leb_le in H
  | H : (_ <=? _)%nat = false |- _ => apply Nat.leb_gt in H
  | H : (_ =? _)%nat = true |- _ => apply Nat.eqb_eq in H
  | H : (_ =? _)%nat = false |- _ => apply Nat.eqb_neq in H
  | H : Bool.eqb _ _ = true |- _ => apply eqb_prop in H
  | H : Bool.eqb _ _ = false |- _ => apply eqb_false_iff in H
  end.

Lemma andb_false_elim_l (a b : bool) : a = false -> a && b = false.
Proof. intros ->; reflexivity. Qed.

(** ** Duration classification *)

Lemma classify_one (d : Z) : classify d = Some 1%nat <-> 300 <= d < 700.
Proof.
  unfold classify, ONE_MIN, ONE_MAX, TWO_MIN, TWO_MAX.
  destruct (300 <=? d) eqn:A, (d <? 700) eqn:B, (700 <=? d) eqn:C,
    (d <=? 1300) eqn:D; simpl; btrue; split; intros H;
    try discriminate; try reflexivity; try lia.
Qed.

Lemma classify_two (d : Z) : classify d = Some 2%nat <-> 700 <= d <= 1300.
Proof.
  unfold classify, ONE_MIN, ONE_MAX, TWO_MIN, TWO_MAX.
  destruct (300 <=? d) eqn:A, (d <? 700) eqn:B, (700 <=? d) eqn:C,
    (d <=? 1300) eqn:D; simpl; btrue; split; intros H;
    try discriminate; try reflexivity; try lia.
Qed.

Lemma classify_none (d : Z) : classify d = None <-> d < 300 \/ 1300 < d.
Proof.
  unfold classify, ONE_MIN, ONE_MAX, TWO_MIN, TWO_MAX.
  destruct (300 <=? d) eqn:A, (d <? 700) eqn:B, (700 <=? d) eqn:C,
    (d <=? 1300) eqn:D; simpl; btrue; split; intros H;
    try discriminate; try reflexivity; try lia.
Qed.

Lemma classify_cases (d : Z) (n : nat) :
  classify d = Some n -> n = 1%nat \/ n = 2%nat.
Proof.
  unfold classify.
  destruct ((ONE_MIN <=? d) && (d <? ONE_MAX)); [intros [= <-]; now left|].
  destruct ((TWO_MIN <=? d) && (d <=? TWO_MAX)); [intros [= <-]; now right|].
  discriminate.
Qed.

(** C10.  The classification of a final segment duration [d] yields one
    half-bit exactly when [300 <= d < 700], two half-bits exactly when
    [700 <= d <= 1300], and fails otherwise; a duration of exactly 700us is
    classified as two half-bits, never as one, and no duration is classified
    both ways. *)
Theorem classify_windows (d : Z) :
  (classify d = Some 1%nat <-> 300 <= d < 700)
  /\ (classify d = Some 2%nat <-> 700 <= d <= 1300)
  /\ (classify d = None <-> ~ (300 <= d <= 1300))
  /\ (forall n, classify d = Some n -> n = 1%nat \/ n = 2%nat)
  /\ classify 700 = Some 2%nat
  /\ classify 700 <> Some 1%nat.
Proof.
  split; [apply classify_one|].
  split; [apply classify_two|].
  split; [rewrite classify_none; lia|].
  split; [apply classify_cases|].
  split; [reflexivity|discriminate].
Qed.

(** ** The suffix [interrupts[i:]] and index reads *)

Lemma skipn_nil_inv {A} (l : list A) (n : nat) :
  skipn n l = [] -> (length l <= n)%nat.
Proof.
  revert l; induction n as [|n IH]; intros [|x l]; simpl; intros H;
    try discriminate; try lia.
  apply IH in H; lia.
Qed.

Lemma skipn_cons_inv {A} (l : list A) (n : nat) (x d : A) (r : list A) :
  skipn n l = x :: r ->
  (n < length l)%nat /\ nth n l d = x /\ skipn (S n) l = r.
Proof.
  revert l; induction n as [|n IH]; intros [|y l]; simpl; intros H;
    try discriminate.
  - injection H as -> ->. repeat split; lia.
  - apply IH in H as (H1 & H2 & H3). repeat split; try assumption; lia.
Qed.

Lemma in_range_true (interrupts : list pulse) (i : nat) :
  in_range interrupts i = true <-> (i < length interrupts)%nat.
Proof. unfold in_range; apply Nat.ltb_lt. Qed.

Lemma in_range_false (interrupts : list pulse) (i : nat) :
  in_range interrupts i = false <-> (length interrupts <= i)%nat.
Proof. unfold in_range; apply Nat.ltb_ge. Qed.

(** ** The same-level run merge *)

(** What the inner loop guarantees at its exit: the cursor did not move
    backwards, every pulse it absorbed has the level of the segment, and it
    stopped either on the flip pattern or because the next pulse is missing
    or of the other level. *)
Lemma merge_run_exit (interrupts : list pulse) (level : bool) :
  forall rest i dur j d,
    rest = skipn (i + 1) interrupts ->
    merge_run interrupts level rest i dur = (j, d) ->
    (i <= j)%nat
    /\ (forall k, (i < k <= j)%nat ->
                  in_range interrupts k = true /\ lvl interrupts k = level)
    /\ ((in_range interrupts (j + 1) = true
         /\ lvl interrupts (j + 1) = level
         /\ flip_pattern interrupts j level (dur_of interrupts (j + 1)) = true)
        \/ in_range interrupts (j + 1) = false
        \/ (in_range interrupts (j + 1) = true
            /\ lvl interrupts (j + 1) <> level)).
Proof.
  induction rest as [|[next_level next_dur] rest IH]; intros i dur j d Hrest Hrun;
    simpl in Hrun.
  - injection Hrun as <- <-.
    split; [lia|]. split; [intros k Hk; lia|].
    right; left. apply in_range_false. now apply skipn_nil_inv.
  - symmetry in Hrest.
    apply (@skipn_cons_inv pulse _ _ _ (LOW, 0)) in Hrest
      as (Hlt & Hnth & Hskip).
    assert (Hl : lvl interrupts (i + 1) = next_level)
      by (unfold lvl, get; now rewrite Hnth).
    assert (Hd : dur_of interrupts (i + 1) = next_dur)
      by (unfold dur_of, get; now rewrite Hnth).
    destruct (Bool.eqb next_level level) eqn:Hlev.
    + apply eqb_prop in Hlev.
      destruct (flip_pattern interrupts i level next_dur) eqn:Hpat.
      * injection Hrun as <- <-.
        split; [lia|]. split; [intros k Hk; lia|].
        left. rewrite Hd. repeat split; try assumption.
        { now apply in_range_true. }
        { congruence. }
      * apply IH in Hrun as (Hle & Hall & Hexit).
        2:{ rewrite <- Hskip. f_equal. lia. }
        split; [lia|]. split; [|exact Hexit].
        intros k Hk. destruct (Nat.eq_dec k (i + 1)) as [->|Hne].
        { split; [now apply in_range_true|congruence]. }
        { apply Hall; lia. }
    + apply eqb_false_iff in Hlev.
      injection Hrun as <- <-.
      split; [lia|]. split; [intros k Hk; lia|].
      right; right. split; [now apply in_range_true|congruence].
Qed.

Lemma merge_run_le (interrupts : list pulse) (level : bool) i dur j d :
  merge_run interrupts level (skipn (i + 1) interrupts) i dur = (j, d) ->
  (i <= j)%nat.
Proof. intros H. now apply merge_run_exit in H. Qed.

(** ** Progress and termination of the main loop *)

Lemma loop_body_progress (interrupts : list pulse) i half_levels k i' half_levels' :
  loop_body interrupts i half_levels = Next k i' half_levels' -> (i < i')%nat.
Proof.
  unfold loop_body.
  destruct (dur_of interrupts i <? GLITCH_MAX_US).
  - destruct (glitch_step _ _ _ _). intros [= _ <- _]. lia.
  - destruct (merge_run _ _ _ _ _) as [j d] eqn:Hm.
    apply merge_run_le in Hm.
    destruct (flip_check _ _ _); destruct (classify d);
      try discriminate; intros [= _ <- _]; lia.
Qed.

(** With at least [length interrupts - i] units of fuel the main loop ends,
    and its result does not depend on the fuel. *)
Lemma main_loop_enough (interrupts : list pulse) :
  forall fuel i half_levels,
    (length interrupts - i <= fuel)%nat ->
    exists r,
      main_loop fuel interrupts i half_levels = Some r
      /\ forall fuel', (length interrupts - i <= fuel')%nat ->
                       main_loop fuel' interrupts i half_levels = Some r.
Proof.
  induction fuel as [|fuel IH]; intros i hl Hfuel.
  - exists (inr hl).
    assert (Hc : loop_cond interrupts i hl = false).
    { unfold loop_cond. apply andb_false_elim_l. apply in_range_false. lia. }
    split; [simpl; now rewrite Hc|].
    intros fuel' _. destruct fuel'; simpl; now rewrite Hc.
  - destruct (loop_cond interrupts i hl) eqn:Hc.
    + assert (Hi : (i < length interrupts)%nat).
      { unfold loop_cond in Hc. btrue. now apply in_range_true. }
      destruct (loop_body interrupts i hl) as [k i' hl'|e] eqn:Hb.
      * pose proof (loop_body_progress _ _ _ _ _ _ Hb) as Hlt.
        destruct (IH i' hl' ltac:(lia)) as (r & Hr & Hall).
        exists r. split; [simpl; now rewrite Hc, Hb|].
        intros [|fuel'] Hf'; [lia|]. simpl. rewrite Hc, Hb.
        apply Hall. lia.
      * exists (inl e). split; [simpl; now rewrite Hc, Hb|].
        intros [|fuel'] Hf'; [lia|]. simpl. now rewrite Hc, Hb.
    + exists (inr hl). split; [simpl; now rewrite Hc|].
      intros fuel' _. destruct fuel'; simpl; now rewrite Hc.
Qed.

(** The main loop of [preprocess] never exhausts its fuel. *)
Lemma preprocess_total (interrupts : list pulse) :
  exists r, preprocess interrupts = Some r.
Proof.
  unfold preprocess.
  destruct (main_loop_enough interrupts (length interrupts) 1 (start_fix interrupts))
    as (r & Hr & _); [lia|].
  now exists r.
Qed.

(** [decode_opentherm] always returns: a frame or a failure. *)
Lemma decode_opentherm_total (interrupts : list pulse) :
  exists r, decode_opentherm interrupts = Some r.
Proof.
  unfold decode_opentherm.
  destruct (preprocess_total interrupts) as ([e|hl] & ->); eauto.
Qed.

(** From a reachable state the loop of [preprocess] continues as
    [main_loop] run from that state. *)
Lemma reachable_continue (interrupts : list pulse) i half_levels :
  reachable interrupts i half_levels ->
  preprocess interrupts
  = main_loop (length interrupts - i) interrupts i half_levels.
Proof.
  induction 1 as [|i hl k i' hl' Hreach IH Hc Hb].
  - unfold preprocess.
    destruct (main_loop_enough interrupts (length interrupts) 1
                (start_fix interrupts) ltac:(lia)) as (r & Hr & Hall).
    rewrite Hr. symmetry. apply Hall. lia.
  - rewrite IH.
    pose proof (loop_body_progress _ _ _ _ _ _ Hb) as Hlt.
    assert (Hi : (i < length interrupts)%nat).
    { unfold loop_cond in Hc. btrue. now apply in_range_true. }
    destruct (length interrupts - i)%nat as [|n] eqn:Hn; [lia|].
    simpl. rewrite Hc, Hb.
    destruct (main_loop_enough interrupts n i' hl' ltac:(lia)) as (r & Hr & Hall).
    rewrite Hr. symmetry. apply Hall. lia.
Qed.

(** A reachable state whose iteration aborts makes the decoder fail with
    that error. *)
Lemma reachable_abort (interrupts : list pulse) i half_levels e :
  reachable interrupts i half_levels ->
  loop_cond interrupts i half_levels = true ->
  loop_body interrupts i half_levels = Abort e ->
  decode_opentherm interrupts = Some (Failed e).
Proof.
  intros Hreach Hc Hb. unfold decode_opentherm.
  rewrite (reachable_continue _ _ _ Hreach).
  assert (Hi : (i < length interrupts)%nat).
  { unfold loop_cond in Hc. btrue. now apply in_range_true. }
  destruct (length interrupts - i)%nat as [|n] eqn:Hn; [lia|].
  simpl. now rewrite Hc, Hb.
Qed.

(** The buffer at the exit of the loop is the buffer of a reachable state
    in which the guard fails. *)
Lemma preprocess_exit (interrupts : list pulse) (half_levels : list bool) :
  preprocess interrupts = Some (inr half_levels) ->
  exists i, reachable interrupts i half_levels
            /\ loop_cond interrupts i half_levels = false.
Proof.
  unfold preprocess.
  assert (Hgen : forall fuel i hl,
             reachable interrupts i hl ->
             main_loop fuel interrupts i hl = Some (inr half_levels) ->
             exists i', reachable interrupts i' half_levels
                        /\ loop_cond interrupts i' half_levels = false).
  { induction fuel as [|fuel IH]; intros i hl Hreach Hrun; simpl in Hrun;
      destruct (loop_cond interrupts i hl) eqn:Hc; try discriminate.
    - injection Hrun as <-. eauto.
    - destruct (loop_body interrupts i hl) as [k i' hl'|e] eqn:Hb;
        [|discriminate].
      eapply IH; [|exact Hrun]. eapply reach_step; eauto.
    - injection Hrun as <-. eauto. }
  apply Hgen. constructor.
Qed.

(** ** End inference *)

Lemma end_fix_other_length (half_levels : list bool) :
  length half_levels <> 67%nat -> end_fix half_levels = half_levels.
Proof.
  intros H. unfold end_fix.
  destruct (length half_levels =? 67)%nat eqn:E; [btrue; contradiction|].
  reflexivity.
Qed.

Lemma decode_opentherm_halves (interrupts : list pulse) (half_levels : list bool) :
  preprocess interrupts = Some (inr half_levels) ->
  decode_opentherm interrupts = Some (decode_halves half_levels).
Proof. unfold decode_opentherm. now intros ->. Qed.

(** C7.  When the main loop ends with exactly 67 half-bits: if the last one
    is HIGH, one LOW half is appended, the buffer has 68 entries and decoding
    proceeds with the Manchester stage on it; if the last one is LOW, nothing
    is appended and the decoder fails with [HalfCountMismatch]. *)
Theorem end_inference_at_67 (interrupts : list pulse) (half_levels : list bool) :
  preprocess interrupts = Some (inr half_levels) ->
  length half_levels = 67%nat ->
  (nth 66 half_levels LOW = HIGH ->
     end_fix half_levels = half_levels ++ [LOW]
     /\ length (end_fix half_levels) = 68%nat
     /\ decode_opentherm interrupts
        = Some match manchester_bits (half_levels ++ [LOW]) with
               | inl e => Failed e
               | inr bits => validate bits
               end)
  /\ (nth 66 half_levels LOW = LOW ->
        end_fix half_levels = half_levels
        /\ decode_opentherm interrupts = Some (Failed HalfCountMismatch)).
Proof.
  intros Hpre Hlen.
  rewrite (decode_opentherm_halves _ _ Hpre).
  unfold decode_halves, end_fix. rewrite Hlen. simpl (67 =? 67)%nat.
  split; intros Hlast; rewrite Hlast; simpl.
  - rewrite length_app, Hlen. simpl. auto.
  - rewrite Hlen. simpl. auto.
Qed.

(** ** Manchester bit decoding *)

Lemma manchester_from_eq (half_levels : list bool) :
  forall positions bits,
    manchester_from half_levels positions bits
    = if forallb (pair_differs half_levels) positions
      then inr (bits ++ map (pair_bit half_levels) positions)
      else inl InvalidManchester.
Proof.
  induction positions as [|b positions IH]; intros bits.
  - simpl. now rewrite app_nil_r.
  - cbn [manchester_from forallb map]. unfold pair_differs at 1, pair_bit at 1.
    destruct (nth (2 * b) half_levels LOW), (nth (2 * b + 1) half_levels LOW);
      cbn; try reflexivity; rewrite IH, <- app_assoc; reflexivity.
Qed.

Lemma manchester_bits_eq (half_levels : list bool) :
  manchester_bits half_levels
  = if forallb (pair_differs half_levels) (seq 0 34)
    then inr (map (pair_bit half_levels) (seq 0 34))
    else inl InvalidManchester.
Proof. unfold manchester_bits. now rewrite manchester_from_eq. Qed.

Lemma manchester_bits_ok (half_levels : list bool) (bits : list Z) :
  manchester_bits half_levels = inr bits ->
  length bits = 34%nat
  /\ forall b, (b < 34)%nat ->
               pair_differs half_levels b = true
               /\ nth b bits 0 = pair_bit half_levels b.
Proof.
  rewrite manchester_bits_eq.
  destruct (forallb _ _) eqn:Hall; [|discriminate].
  intros Hbits.
  assert (E : bits = map (pair_bit half_levels) (seq 0 34)) by congruence.
  clear Hbits. subst bits.
  split; [now rewrite length_map, length_seq|].
  intros b Hb. split.
  - rewrite forallb_forall in Hall. apply Hall. apply in_seq. lia.
  - rewrite (nth_indep _ 0 (pair_bit half_levels 0))
      by (rewrite length_map, length_seq; lia).
    rewrite map_nth, seq_nth by lia. reflexivity.
Qed.

Lemma manchester_bits_fail (half_levels : list bool) (e : decode_error) :
  manchester_bits half_levels = inl e ->
  e = InvalidManchester
  /\ exists b, (b < 34)%nat /\ pair_differs half_levels b = false.
Proof.
  rewrite manchester_bits_eq.
  destruct (forallb _ _) eqn:Hall; [discriminate|].
  intros [= <-]. split; [reflexivity|].
  assert (Hex : existsb (fun b => negb (pair_differs half_levels b)) (seq 0 34) = true).
  { clear -Hall. induction (seq 0 34) as [|b l IH]; simpl in *; [discriminate|].
    destruct (pair_differs half_levels b); simpl in *; auto. }
  apply existsb_exists in Hex as (b & Hin & Hb).
  exists b. apply in_seq in Hin. split; [lia|].
  now apply negb_true_iff in Hb.
Qed.

Lemma decode_opentherm_complete (interrupts : list pulse) (collected : list bool) :
  preprocess interrupts = Some (inr collected) ->
  length (end_fix collected) = 68%nat ->
  decode_opentherm interrupts
  = Some match manchester_bits (end_fix collected) with
         | inl e => Failed e
         | inr bits => validate bits
         end.
Proof.
  intros Hpre Hlen. rewrite (decode_opentherm_halves _ _ Hpre).
  unfold decode_halves. now rewrite Hlen.
Qed.

(** C8.  On a 68-entry half-bit sequence (the buffer after end inference),
    every bit position [b < 34] is decoded from the pair
    [(a, c) = (seq[2b], seq[2b+1])]: HIGH,LOW gives 1 and LOW,HIGH gives 0;
    if some pair has [a = c], the decoder fails with [InvalidManchester] and
    returns no frame, and otherwise the Manchester stage yields the 34
    structural bits. *)
Theorem manchester_pairs (interrupts : list pulse) (collected : list bool) :
  preprocess interrupts = Some (inr collected) ->
  length (end_fix collected) = 68%nat ->
  let half_levels := end_fix collected in
  ((exists b, (b < 34)%nat
              /\ nth (2 * b) half_levels LOW = nth (2 * b + 1) half_levels LOW) ->
     manchester_bits half_levels = inl InvalidManchester
     /\ decode_opentherm interrupts = Some (Failed InvalidManchester))
  /\ ((forall b, (b < 34)%nat ->
                 nth (2 * b) half_levels LOW <> nth (2 * b + 1) half_levels LOW) ->
      exists bits,
        manchester_bits half_levels = inr bits
        /\ length bits = 34%nat
        /\ decode_opentherm interrupts = Some (validate bits)
        /\ forall b, (b < 34)%nat ->
             (nth (2 * b) half_levels LOW = HIGH
              /\ nth (2 * b + 1) half_levels LOW = LOW
              /\ nth b bits 0 = 1)
             \/ (nth (2 * b) half_levels LOW = LOW
                 /\ nth (2 * b + 1) half_levels LOW = HIGH
                 /\ nth b bits 0 = 0)).
Proof.
  intros Hpre Hlen half_levels.
  rewrite (decode_opentherm_complete _ _ Hpre Hlen). fold half_levels.
  split.
  - intros (b & Hb & Heq).
    destruct (manchester_bits half_levels) as [e|bits] eqn:Hm.
    + apply manchester_bits_fail in Hm as (-> & _). auto.
    + apply manchester_bits_ok in Hm as (_ & Hall).
      destruct (Hall b Hb) as (Hd & _).
      unfold pair_differs in Hd. rewrite Heq, eqb_reflx in Hd. discriminate.
  - intros Hall.
    destruct (manchester_bits half_levels) as [e|bits] eqn:Hm.
    + apply manchester_bits_fail in Hm as (_ & b & Hb & Hd).
      exfalso. apply (Hall b Hb).
      unfold pair_differs in Hd. btrue. assumption.
    + exists bits. pose proof (manchester_bits_ok _ _ Hm) as (Hl & Hbits).
      repeat split; try assumption.
      intros b Hb. destruct (Hbits b Hb) as (Hd & Hn).
      rewrite Hn. unfold pair_differs in Hd. unfold pair_bit.
      destruct (nth (2 * b) half_levels LOW), (nth (2 * b + 1) half_levels LOW);
        simpl in Hd; try discriminate; auto.
Qed.

(** ** Frame assembly and validation *)

Lemma shift_or_bit (a b : Z) :
  0 <= a -> b = 0 \/ b = 1 -> Z.lor (Z.shiftl a 1) b = 2 * a + b.
Proof.
  intros Ha [-> | ->].
  - rewrite Z.lor_0_r, Z.shiftl_mul_pow2 by lia. change (2 ^ 1) with 2. lia.
  - destruct a as [|p|p]; [reflexivity|reflexivity|lia].
Qed.

Lemma bit_as_b2z (b : Z) : b = 0 \/ b = 1 -> b = Z.b2z (b =? 1).
Proof. intros [-> | ->]; reflexivity. Qed.

Section Fold.

Variable bits : list Z.

Let step (frame : Z) (b : nat) : Z := Z.lor (Z.shiftl frame 1) (nth b bits 0).

Lemma fold_frame_range :
  forall positions acc m,
    Forall (fun b => nth b bits 0 = 0 \/ nth b bits 0 = 1) positions ->
    0 <= m -> 0 <= acc < 2 ^ m ->
    0 <= fold_left step positions acc < 2 ^ (m + Z.of_nat (length positions)).
Proof.
  induction positions as [|p positions IH]; intros acc m Hbits Hm Hacc.
  - simpl. now rewrite Z.add_0_r.
  - inversion Hbits as [|? ? Hp Hrest]; subst.
    cbn [fold_left length].
    change (step acc p) with (Z.lor (Z.shiftl acc 1) (nth p bits 0)).
    rewrite shift_or_bit by (assumption || lia).
    replace (m + Z.of_nat (S (length positions)))
      with ((m + 1) + Z.of_nat (length positions)) by lia.
    apply IH; [assumption|lia|].
    rewrite Z.pow_add_r, Z.pow_1_r by lia. lia.
Qed.

Lemma fold_frame_testbit :
  forall positions acc,
    Forall (fun b => nth b bits 0 = 0 \/ nth b bits 0 = 1) positions ->
    0 <= acc ->
    forall k : nat,
      Z.testbit (fold_left step positions acc) (Z.of_nat k)
      = if (k <? length positions)%nat
        then nth (nth (length positions - 1 - k) positions O) bits 0 =? 1
        else Z.testbit acc (Z.of_nat (k - length positions)).
Proof.
  induction positions as [|p positions IH]; intros acc Hbits Hacc k.
  - simpl. now rewrite Nat.sub_0_r.
  - inversion Hbits as [|? ? Hp Hrest]; subst.
    cbn [fold_left length].
    change (step acc p) with (Z.lor (Z.shiftl acc 1) (nth p bits 0)).
    rewrite shift_or_bit by (assumption || lia).
    rewrite IH by (assumption || lia).
    destruct (k <? length positions)%nat eqn:Hk.
    + btrue.
      replace (k <? S (length positions))%nat with true
        by (symmetry; apply Nat.ltb_lt; lia).
      replace (S (length positions) - 1 - k)%nat
        with (S (length positions - 1 - k)) by lia.
      reflexivity.
    + btrue. destruct (Nat.eq_dec k (length positions)) as [->|Hne].
      * replace (length positions <? S (length positions))%nat with true
          by (symmetry; apply Nat.ltb_lt; lia).
        replace (S (length positions) - 1 - length positions)%nat with O by lia.
        rewrite Nat.sub_diag. cbn [nth Z.of_nat].
        rewrite (bit_as_b2z (nth p bits 0)) at 1 by assumption.
        apply Z.testbit_0_r.
      * replace (k <? S (length positions))%nat with false
          by (symmetry; apply Nat.ltb_ge; lia).
        replace (Z.of_nat (k - length positions))
          with (Z.succ (Z.of_nat (k - S (length positions)))) by lia.
        rewrite (bit_as_b2z (nth p bits 0)) at 1 by assumption.
        apply Z.testbit_succ_r. lia.
Qed.

End Fold.

(** The frame is the big-endian value of [bits[1..32]]: it fits 32 bits and
    its bit of weight [2^(32-b)] is [bits[b]]. *)
Lemma build_frame_spec (bits : list Z) :
  (forall b, (1 <= b <= 32)%nat -> nth b bits 0 = 0 \/ nth b bits 0 = 1) ->
  0 <= build_frame bits < 2 ^ 32
  /\ forall b, (1 <= b <= 32)%nat ->
               Z.testbit (build_frame bits) (Z.of_nat (32 - b))
               = (nth b bits 0 =? 1).
Proof.
  intros Hbits.
  assert (Hall : Forall (fun b => nth b bits 0 = 0 \/ nth b bits 0 = 1) (seq 1 32)).
  { apply Forall_forall. intros b Hb. apply in_seq in Hb. apply Hbits. lia. }
  split.
  - pose proof (fold_frame_range bits (seq 1 32) 0 0 Hall) as H.
    rewrite length_seq in H. apply H; lia.
  - intros b Hb. unfold build_frame.
    rewrite (fold_frame_testbit bits (seq 1 32) 0 Hall) by lia.
    rewrite length_seq.
    replace (32 - b <? 32)%nat with true by (symmetry; apply Nat.ltb_lt; lia).
    rewrite seq_nth by lia.
    replace (1 + (32 - 1 - (32 - b)))%nat with b by lia.
    reflexivity.
Qed.

Lemma pair_bit_cases (half_levels : list bool) (b : nat) :
  pair_bit half_levels b = 0 \/ pair_bit half_levels b = 1.
Proof. unfold pair_bit. destruct (nth _ _ _); auto. Qed.

(** C9.  Given the 34 structural bits of the Manchester stage with
    [bits[0] = 1] and [bits[33] = 1], the assembled frame is the fold of
    [bits[1..32]] most-significant bit first ([bits[1]] is bit 31 of the
    value, [bits[32]] is bit 0, and the value fits 32 bits); the decoder
    returns this frame exactly when its population count is even, and an odd
    population count fails with [ParityError]. *)
Theorem frame_assembly (interrupts : list pulse) (collected : list bool)
        (bits : list Z) :
  preprocess interrupts = Some (inr collected) ->
  length (end_fix collected) = 68%nat ->
  manchester_bits (end_fix collected) = inr bits ->
  nth 0 bits 0 = 1 ->
  nth 33 bits 0 = 1 ->
  let frame := build_frame bits in
  0 <= frame < 2 ^ 32
  /\ (forall b, (1 <= b <= 32)%nat ->
                Z.testbit frame (Z.of_nat (32 - b)) = (nth b bits 0 =? 1))
  /\ (decode_opentherm interrupts = Some (Decoded frame bits)
      <-> Nat.even (popcount frame) = true)
  /\ (Nat.even (popcount frame) = false ->
      decode_opentherm interrupts = Some (Failed ParityError)).
Proof.
  intros Hpre Hlen Hm H0 H33 frame.
  rewrite (decode_opentherm_complete _ _ Hpre Hlen), Hm.
  destruct (manchester_bits_ok _ _ Hm) as (_ & Hbits).
  assert (H01 : forall b, (1 <= b <= 32)%nat -> nth b bits 0 = 0 \/ nth b bits 0 = 1).
  { intros b Hb. destruct (Hbits b ltac:(lia)) as (_ & ->). apply pair_bit_cases. }
  destruct (build_frame_spec bits H01) as (Hrange & Htest).
  split; [exact Hrange|]. split; [exact Htest|].
  unfold validate. rewrite H0, H33. cbn [Z.eqb Pos.eqb negb].
  fold frame. destruct (Nat.even (popcount frame)); cbn [negb].
  - split; [tauto|discriminate].
  - split; [|reflexivity]. split; intros H; discriminate || congruence.
Qed.

(** ** The flip reinterpretation *)

Lemma flip_pattern_inv (interrupts : list pulse) (j : nat) (level : bool) (d : Z) :
  flip_pattern interrupts j level d = true ->
  ONE_MIN <= d <= ONE_MAX
  /\ (j + 2 < length interrupts)%nat
  /\ dur_of interrupts (j + 2) < GLITCH_MAX_US
  /\ lvl interrupts (j + 2) = negb level
  /\ (j + 3 < length interrupts)%nat
  /\ lvl interrupts (j + 3) = level.
Proof.
  unfold flip_pattern, in_range. intros H. btrue.
  repeat split; try assumption; try lia.
  destruct (lvl interrupts (j + 2)), level; simpl in *; congruence.
Qed.

(** The test made after the merge can only succeed when the merge was
    stopped by the flip pattern. *)
Lemma flip_check_after_merge (interrupts : list pulse) (level : bool) i dur j d :
  merge_run interrupts level (skipn (i + 1) interrupts) i dur = (j, d) ->
  flip_check interrupts j level = true ->
  flip_pattern interrupts j level (dur_of interrupts (j + 1)) = true.
Proof.
  intros Hm Hc. apply merge_run_exit in Hm as (_ & _ & Hexit); [|reflexivity].
  unfold flip_check in Hc. btrue.
  destruct Hexit as [(_ & _ & Hpat) | [Hout | (_ & Hne)]].
  - exact Hpat.
  - apply in_range_false in Hout. apply in_range_true in H. lia.
  - contradiction.
Qed.

(** C3.  An iteration applies the flip reinterpretation only when the three
    lookahead conditions hold at the cursor [j] reached by the merge of the
    current segment: pulse [j+1] has the level of the current segment and a
    duration in the one-half window [ONE_MIN..ONE_MAX]; pulse [j+2] is
    shorter than [GLITCH_MAX_US] and of the opposite level; pulse [j+3]
    exists and has the level of the current segment.  The iteration then
    emits the current segment, emits the glitch's level for the summed
    duration of pulses [j+1] and [j+2], and moves the cursor to [j+3]. *)
Theorem flip_only_on_full_pattern (interrupts : list pulse) (i : nat)
        (half_levels : list bool) (i' : nat) (half_levels' : list bool) :
  loop_body interrupts i half_levels = Next KFlip i' half_levels' ->
  let level := lvl interrupts i in
  exists j d halves,
    merge_run interrupts level (skipn (i + 1) interrupts) i (dur_of interrupts i)
    = (j, d)
    /\ (i <= j)%nat
    /\ ((j + 1 < length interrupts)%nat
        /\ lvl interrupts (j + 1) = level
        /\ ONE_MIN <= dur_of interrupts (j + 1) <= ONE_MAX)
    /\ ((j + 2 < length interrupts)%nat
        /\ dur_of interrupts (j + 2) < GLITCH_MAX_US
        /\ lvl interrupts (j + 2) = negb level)
    /\ ((j + 3 < length interrupts)%nat
        /\ lvl interrupts (j + 3) = level)
    /\ classify d = Some halves
    /\ half_levels'
       = push_flipped (push_halves halves half_levels level)
           (lvl interrupts (j + 2))
           (dur_of interrupts (j + 1) + dur_of interrupts (j + 2))
    /\ i' = (j + 3)%nat.
Proof.
  intros Hb level. unfold loop_body in Hb. fold level in Hb.
  destruct (dur_of interrupts i <? GLITCH_MAX_US).
  { destruct (glitch_step _ _ _ _) as [k hl'] eqn:Hg.
    unfold glitch_step in Hg.
    repeat match type of Hg with
           | (if ?c then _ else _) = _ => destruct c
           end; injection Hg as <- <-; discriminate. }
  destruct (merge_run _ _ _ _ _) as [j d] eqn:Hm.
  destruct (flip_check interrupts j level) eqn:Hc.
  - destruct (classify d) as [halves|] eqn:Hcl; [|discriminate].
    injection Hb as <- <-.
    pose proof (flip_check_after_merge _ _ _ _ _ _ Hm Hc) as Hpat.
    apply flip_pattern_inv in Hpat as (H1 & H2 & H3 & H4 & H5 & H6).
    unfold flip_check in Hc. btrue.
    exists j, d, halves.
    split; [reflexivity|].
    split; [now apply merge_run_le in Hm|].
    repeat split; try assumption; try lia.
  - destruct (classify d); discriminate.
Qed.

(** ** Reachable states *)

Lemma iterate_reachable (n : nat) (interrupts : list pulse) i half_levels :
  iterate n interrupts = Some (i, half_levels) ->
  reachable interrupts i half_levels.
Proof.
  revert i half_levels. induction n as [|n IH]; intros i hl; simpl.
  - intros [= <- <-]. constructor.
  - destruct (iterate n interrupts) as [[i0 hl0]|]; [|discriminate].
    destruct (loop_cond interrupts i0 hl0) eqn:Hc; [|discriminate].
    destruct (loop_body interrupts i0 hl0) as [k i1 hl1|] eqn:Hb; [|discriminate].
    intros [= <- <-]. eapply reach_step; eauto.
Qed.

Lemma start_fix_length (interrupts : list pulse) :
  (length (start_fix interrupts) <= 1)%nat.
Proof. unfold start_fix. destruct (_ && _); simpl; lia. Qed.

(** The cursor starts at 1; while it is there at most the implicit start
    half has been emitted. *)
Lemma reachable_cursor (interrupts : list pulse) i half_levels :
  reachable interrupts i half_levels ->
  (1 <= i)%nat /\ (i = 1%nat -> (length half_levels <= 1)%nat).
Proof.
  induction 1 as [|i hl k i' hl' _ [IH _] _ Hb].
  - split; [lia|]. intros _. apply start_fix_length.
  - apply loop_body_progress in Hb. split; lia.
Qed.

(** ** Glitch restore *)

Lemma loop_body_restore_inv (interrupts : list pulse) i half_levels fixed i'
      half_levels' :
  loop_body interrupts i half_levels
  = Next (KGlitchRestore fixed) i' half_levels' ->
  dur_of interrupts i < GLITCH_MAX_US
  /\ (0 < length half_levels)%nat
  /\ (i + 1 < length interrupts)%nat
  /\ restore_cond (last_half half_levels) (lvl interrupts (i + 1))
       (dur_of interrupts (i + 1)) (lvl interrupts i) = true
  /\ fixed = stretched_cond interrupts i half_levels (last_half half_levels)
  /\ half_levels'
     = (if fixed then removelast half_levels else half_levels)
         ++ [lvl interrupts i]
  /\ i' = (i + 1)%nat.
Proof.
  unfold loop_body.
  destruct (dur_of interrupts i <? GLITCH_MAX_US) eqn:Hg.
  - unfold glitch_step.
    destruct ((0 <? length half_levels)%nat && in_range interrupts (i + 1)) eqn:Hctx;
      [|discriminate].
    destruct (restore_cond _ _ _ _) eqn:Hr; [|discriminate].
    unfold in_range in Hctx. btrue.
    destruct (stretched_cond _ _ _ _) eqn:Hs; intros [= <- <- <-];
      repeat split; auto.
  - destruct (merge_run _ _ _ _ _) as [j d].
    destruct (flip_check _ _ _); destruct (classify d); discriminate.
Qed.

(** C4 (amended).  When a glitch is restored as a half-bit (which requires:
    the previously emitted half equals the level of the pulse after the
    glitch, that pulse lasts at least [ONE_MIN], and the glitch's level
    differs from the previously emitted half), one previously emitted half is
    removed first exactly when the pulse immediately before the glitch lasted
    700 to 1100us and the two most recently emitted halves are equal to each
    other; both then have the level opposite to the restored one. *)
Theorem stretched_fix_exact (interrupts : list pulse) (i : nat)
        (half_levels : list bool) (fixed : bool) (i' : nat)
        (half_levels' : list bool) :
  reachable interrupts i half_levels ->
  loop_body interrupts i half_levels
  = Next (KGlitchRestore fixed) i' half_levels' ->
  let level := lvl interrupts i in
  (dur_of interrupts i < GLITCH_MAX_US
   /\ (0 < length half_levels)%nat
   /\ (i + 1 < length interrupts)%nat
   /\ last_half half_levels = lvl interrupts (i + 1)
   /\ ONE_MIN <= dur_of interrupts (i + 1)
   /\ level <> last_half half_levels)
  /\ (fixed = true <->
      700 <= dur_of interrupts (i - 1) <= 1100
      /\ (2 <= length half_levels)%nat
      /\ second_last_half half_levels = last_half half_levels)
  /\ (fixed = true ->
      second_last_half half_levels = negb level
      /\ last_half half_levels = negb level)
  /\ half_levels'
     = (if fixed then removelast half_levels else half_levels) ++ [level]
  /\ i' = (i + 1)%nat.
Proof.
  intros Hreach Hb level.
  apply loop_body_restore_inv in Hb as (Hg & Hlen & Hnext & Hr & Hfix & Hhl & Hi).
  fold level in Hr, Hhl.
  unfold restore_cond in Hr. btrue.
  assert (Hne : level <> last_half half_levels) by assumption.
  assert (Hiff : fixed = true <->
                 700 <= dur_of interrupts (i - 1) <= 1100
                 /\ (2 <= length half_levels)%nat
                 /\ second_last_half half_levels = last_half half_levels).
  { rewrite Hfix. unfold stretched_cond.
    destruct (reachable_cursor _ _ _ Hreach) as (Hi1 & Hi2).
    destruct (1 <? i)%nat eqn:Hgt.
    - split; intros Hs.
      + btrue. repeat split; assumption.
      + destruct Hs as ((Ha & Hb) & Hc & Hd).
        rewrite Hd, eqb_reflx.
        apply Z.leb_le in Ha, Hb. apply Nat.leb_le in Hc.
        now rewrite Ha, Hb, Hc.
    - btrue. split; [discriminate|].
      intros (_ & Hc & _). assert (i = 1%nat) by lia.
      specialize (Hi2 ltac:(assumption)). lia. }
  split; [repeat (split; [assumption|]); assumption|].
  split; [exact Hiff|].
  split; [|split; assumption].
  intros Hf. apply Hiff in Hf as (_ & _ & ->).
  split; destruct level, (last_half half_levels); simpl; congruence.
Qed.

(** ** Invalid durations *)

Lemma loop_body_segment (interrupts : list pulse) i half_levels j d :
  GLITCH_MAX_US <= dur_of interrupts i ->
  merge_run interrupts (lvl interrupts i) (skipn (i + 1) interrupts) i
    (dur_of interrupts i) = (j, d) ->
  loop_body interrupts i half_levels
  = let level := lvl interrupts i in
    match classify d with
    | None => Abort InvalidDuration
    | Some halves =>
        if flip_check interrupts j level then
          Next KFlip (j + 3)
            (push_flipped (push_halves halves half_levels level)
               (lvl interrupts (j + 2))
               (dur_of interrupts (j + 1) + dur_of interrupts (j + 2)))
        else Next KClassify (j + 1) (push_halves halves half_levels level)
    end.
Proof.
  intros Hg Hm. unfold loop_body.
  replace (dur_of interrupts i <? GLITCH_MAX_US) with false
    by (symmetry; apply Z.ltb_ge; assumption).
  rewrite Hm. cbv zeta.
  destruct (flip_check _ _ _), (classify d); reflexivity.
Qed.

Lemma push_flipped_classify (half_levels : list bool) (g : bool) (fd : Z) :
  push_flipped half_levels g fd
  = match classify fd with
    | Some 1%nat => half_levels ++ [g]
    | Some _ => push_capped (half_levels ++ [g]) g
    | None => half_levels
    end.
Proof.
  unfold push_flipped, classify.
  destruct ((ONE_MIN <=? fd) && (fd <? ONE_MAX)); [reflexivity|].
  destruct ((TWO_MIN <=? fd) && (fd <=? TWO_MAX)); reflexivity.
Qed.

(** C2.  In every state the main loop reaches, a segment whose final (merged)
    duration falls into neither classification window makes the decoder fail
    with [InvalidDuration]; and when the flip reinterpretation applies, the
    summed duration of the flipped segment is always classified as one or two
    halves (the duration of the glitch not being negative), which are emitted
    with the glitch's level. *)
Theorem invalid_duration_fails (interrupts : list pulse) (i : nat)
        (half_levels : list bool) (j : nat) (d : Z) :
  reachable interrupts i half_levels ->
  loop_cond interrupts i half_levels = true ->
  GLITCH_MAX_US <= dur_of interrupts i ->
  merge_run interrupts (lvl interrupts i) (skipn (i + 1) interrupts) i
    (dur_of interrupts i) = (j, d) ->
  (classify d = None ->
   loop_body interrupts i half_levels = Abort InvalidDuration
   /\ decode_opentherm interrupts = Some (Failed InvalidDuration))
  /\ (forall halves,
        classify d = Some halves ->
        flip_check interrupts j (lvl interrupts i) = true ->
        0 <= dur_of interrupts (j + 2) ->
        let glitch_level := lvl interrupts (j + 2) in
        let flipped_dur := dur_of interrupts (j + 1) + dur_of interrupts (j + 2) in
        let emitted := push_halves halves half_levels (lvl interrupts i) in
        (classify flipped_dur = Some 1%nat
         /\ loop_body interrupts i half_levels
            = Next KFlip (j + 3) (emitted ++ [glitch_level]))
        \/ (classify flipped_dur = Some 2%nat
            /\ loop_body interrupts i half_levels
               = Next KFlip (j + 3)
                   (push_capped (emitted ++ [glitch_level]) glitch_level))).
Proof.
  intros Hreach Hcond Hg Hm.
  pose proof (loop_body_segment _ _ half_levels _ _ Hg Hm) as Hb.
  cbv zeta in Hb. split.
  - intros Hnone. rewrite Hnone in Hb. split; [exact Hb|].
    eapply reachable_abort; eauto.
  - intros halves Hsome Hflip Hd2 glitch_level flipped_dur emitted.
    rewrite Hsome, Hflip, push_flipped_classify in Hb.
    fold glitch_level flipped_dur emitted in Hb.
    unfold flip_check, in_range in Hflip. btrue.
    unfold ONE_MIN, ONE_MAX, GLITCH_MAX_US in *.
    destruct (Z_lt_ge_dec flipped_dur 700) as [Hlt|Hge].
    + left. assert (Hc : classify flipped_dur = Some 1%nat)
        by (apply classify_one; unfold flipped_dur; lia).
      rewrite Hc in Hb. auto.
    + right. assert (Hc : classify flipped_dur = Some 2%nat)
        by (apply classify_two; unfold flipped_dur; lia).
      rewrite Hc in Hb. auto.
Qed.

(** ** The size of the half-bit buffer *)

Lemma push_capped_length (half_levels : list bool) (level : bool) :
  (length half_levels <= 68)%nat ->
  (length (push_capped half_levels level) <= 68)%nat.
Proof.
  intros H. unfold push_capped.
  destruct (length half_levels <? 68)%nat eqn:E; [|assumption].
  btrue. rewrite length_app. simpl. lia.
Qed.

Lemma push_halves_length (halves : nat) :
  forall half_levels level,
    (length half_levels <= 68)%nat ->
    (length (push_halves halves half_levels level) <= 68)%nat.
Proof.
  induction halves as [|n IH]; intros hl level H; simpl; [assumption|].
  apply IH. now apply push_capped_length.
Qed.

Lemma glitch_step_length (interrupts : list pulse) i level half_levels k half_levels' :
  glitch_step interrupts i level half_levels = (k, half_levels') ->
  (length half_levels' <= S (length half_levels))%nat.
Proof.
  unfold glitch_step.
  destruct (_ && _); [|intros [= _ <-]; lia].
  destruct (restore_cond _ _ _ _); [|intros [= _ <-]; lia].
  destruct (stretched_cond _ _ _ _); intros [= _ <-]; rewrite length_app; simpl.
  - destruct half_levels as [|h t]; [simpl; lia|].
    assert (Hl : (length (removelast (h :: t)) <= length (h :: t))%nat).
    { clear. revert h. induction t as [|a t IH]; intros h; [simpl; lia|].
      change (removelast (h :: a :: t)) with (h :: removelast (a :: t)).
      simpl length. specialize (IH a). simpl length in IH. lia. }
    lia.
  - lia.
Qed.

Lemma push_flipped_length (half_levels : list bool) (g : bool) (fd : Z) :
  (length half_levels <= 68)%nat ->
  (length (push_flipped half_levels g fd) <= 69)%nat.
Proof.
  intros H. unfold push_flipped.
  destruct (_ && _); [rewrite length_app; simpl; lia|].
  destruct (_ && _); [|lia].
  unfold push_capped. rewrite length_app. simpl.
  destruct (_ <? 68)%nat eqn:E; btrue; [rewrite !length_app; simpl; lia|].
  rewrite length_app. simpl. lia.
Qed.

(** Glitch restores and default classifications keep the buffer within 68
    entries; an iteration that applies the flip may leave 69. *)
Lemma loop_body_length (interrupts : list pulse) i half_levels k i' half_levels' :
  loop_cond interrupts i half_levels = true ->
  loop_body interrupts i half_levels = Next k i' half_levels' ->
  (k <> KFlip -> (length half_levels' <= 68)%nat)
  /\ (length half_levels' <= 69)%nat.
Proof.
  intros Hc Hb. unfold loop_cond in Hc. btrue.
  unfold loop_body in Hb.
  destruct (dur_of interrupts i <? GLITCH_MAX_US).
  - destruct (glitch_step _ _ _ _) as [k0 hl0] eqn:Hg.
    apply glitch_step_length in Hg. injection Hb as <- <- <-. lia.
  - destruct (merge_run _ _ _ _ _) as [j d].
    destruct (flip_check _ _ _); destruct (classify d) as [halves|];
      try discriminate; injection Hb as <- <- <-.
    + split; [congruence|].
      apply push_flipped_length, push_halves_length. lia.
    + assert (length (push_halves halves half_levels (lvl interrupts i)) <= 68)%nat
        by (apply push_halves_length; lia).
      lia.
Qed.

Lemma half_count_bound (interrupts : list pulse) i half_levels :
  reachable interrupts i half_levels -> (length half_levels <= 69)%nat.
Proof.
  induction 1 as [|i hl k i' hl' _ _ Hc Hb].
  - pose proof (start_fix_length interrupts). lia.
  - now apply loop_body_length in Hb.
Qed.

(** C5 (the code exceeds the bound).  On [overflow_stream] the iteration that
    applies the flip starts with 66 half-bits, emits the two halves of the
    current segment and then appends the flipped half without testing the
    size: the buffer holds 69 entries at the exit of the loop, and the
    decoder fails with [HalfCountMismatch]. *)
Theorem flip_append_exceeds_68 :
  exists half_levels,
    iterate 33 overflow_stream = Some (34%nat, firstn 66 half_levels)
    /\ loop_body overflow_stream 34 (firstn 66 half_levels)
       = Next KFlip 37 half_levels
    /\ reachable overflow_stream 37 half_levels
    /\ preprocess overflow_stream = Some (inr half_levels)
    /\ length half_levels = 69%nat
    /\ decode_opentherm overflow_stream = Some (Failed HalfCountMismatch).
Proof.
  exists (match preprocess overflow_stream with
          | Some (inr half_levels) => half_levels
          | _ => []
          end).
  split; [vm_compute; reflexivity|].
  split; [vm_compute; reflexivity|].
  split; [apply (iterate_reachable 34); vm_compute; reflexivity|].
  split; [vm_compute; reflexivity|].
  split; vm_compute; reflexivity.
Qed.

(** ** Instances on the sample streams *)

(** C4 as stated fails: on [stretched_stream] the glitch [H75] at index 3 is
    restored and one half is removed first, the pulse before it lasting
    900us, although the two most recently emitted halves (LOW, LOW) are not
    equal to the restored level (HIGH). *)
Lemma stretched_fix_counterexample :
  reachable stretched_stream 3 [HIGH; LOW; LOW]
  /\ loop_body stretched_stream 3 [HIGH; LOW; LOW]
     = Next (KGlitchRestore true) 4 [HIGH; LOW; HIGH]
  /\ 700 <= dur_of stretched_stream 2 <= 1100
  /\ ~ (second_last_half [HIGH; LOW; LOW] = lvl stretched_stream 3
        /\ last_half [HIGH; LOW; LOW] = lvl stretched_stream 3).
Proof.
  split; [apply (iterate_reachable 2); reflexivity|].
  split; [reflexivity|].
  split; [vm_compute; split; discriminate|].
  intros [H _]. discriminate H.
Qed.

(** The amended statement on [stretched_stream], at the glitch [H75]. *)
Lemma stretched_fix_exact_witness :
  (true = true <->
   700 <= dur_of stretched_stream 2 <= 1100
   /\ (2 <= length [HIGH; LOW; LOW])%nat
   /\ second_last_half [HIGH; LOW; LOW] = last_half [HIGH; LOW; LOW])
  /\ second_last_half [HIGH; LOW; LOW] = negb (lvl stretched_stream 3).
Proof.
  assert (Hreach : reachable stretched_stream 3 [HIGH; LOW; LOW])
    by (apply (iterate_reachable 2); reflexivity).
  destruct (stretched_fix_exact stretched_stream 3 [HIGH; LOW; LOW] true 4
              [HIGH; LOW; HIGH] Hreach eq_refl) as (_ & Hiff & Hopp & _).
  split; [exact Hiff|]. exact (proj1 (Hopp eq_refl)).
Defined.

(** The flip of [flip_stream]: after [L987], the pair [L514,H4] becomes a
    HIGH half and the cursor moves to [L482]. *)
Lemma flip_only_on_full_pattern_witness :
  loop_body flip_stream 2 [HIGH] = Next KFlip 5 [HIGH; LOW; LOW; HIGH]
  /\ exists j, (j + 3 < length flip_stream)%nat
               /\ lvl flip_stream (j + 3) = lvl flip_stream 2.
Proof.
  split; [reflexivity|].
  destruct (flip_only_on_full_pattern flip_stream 2 [HIGH] 5
              [HIGH; LOW; LOW; HIGH] eq_refl)
    as (j & d & halves & _ & _ & _ & _ & H3 & _).
  exists j. exact H3.
Defined.

(** The 250us pulse of [short_stream] makes the decoder fail. *)
Lemma invalid_duration_fails_witness :
  decode_opentherm short_stream = Some (Failed InvalidDuration).
Proof.
  assert (Hreach : reachable short_stream 2 [HIGH])
    by (apply (iterate_reachable 1); reflexivity).
  assert (Hg : GLITCH_MAX_US <= dur_of short_stream 2)
    by (vm_compute; discriminate).
  destruct (invalid_duration_fails short_stream 2 [HIGH] 2 250
              Hreach eq_refl Hg eq_refl) as (Hfail & _).
  exact (proj2 (Hfail eq_refl)).
Defined.

(** [open_ended_stream] yields 67 halves, the last one HIGH: the final LOW
    half is inferred and the frame is decoded. *)
Lemma end_inference_at_67_witness :
  length open_ended_halves = 67%nat
  /\ end_fix open_ended_halves = open_ended_halves ++ [LOW]
  /\ decode_opentherm open_ended_stream
     = Some (Decoded 0x80190000 sample_bits).
Proof.
  assert (Hpre : preprocess open_ended_stream = Some (inr open_ended_halves))
    by (vm_compute; reflexivity).
  destruct (end_inference_at_67 open_ended_stream open_ended_halves Hpre eq_refl)
    as (Hhigh & _).
  destruct (Hhigh eq_refl) as (Hfix & _ & Hdec).
  split; [reflexivity|]. split; [exact Hfix|].
  rewrite Hdec. vm_compute. reflexivity.
Defined.

(** In [broken_stream] the halves of bit position 1 are both HIGH. *)
Lemma manchester_pairs_witness :
  length broken_halves = 68%nat
  /\ decode_opentherm broken_stream = Some (Failed InvalidManchester).
Proof.
  assert (Hpre : preprocess broken_stream = Some (inr broken_halves))
    by (vm_compute; reflexivity).
  destruct (manchester_pairs broken_stream broken_halves Hpre eq_refl)
    as (Hfail & _).
  split; [reflexivity|].
  apply Hfail. exists 1%nat. split; [lia|reflexivity].
Defined.

(** The structural bits of [open_ended_stream] assemble to [0x80190000],
    whose population count is even. *)
Lemma frame_assembly_witness :
  build_frame sample_bits = 0x80190000
  /\ decode_opentherm open_ended_stream
     = Some (Decoded (build_frame sample_bits) sample_bits).
Proof.
  assert (Hpre : preprocess open_ended_stream = Some (inr open_ended_halves))
    by (vm_compute; reflexivity).
  assert (Hm : manchester_bits (end_fix open_ended_halves) = inr sample_bits)
    by (vm_compute; reflexivity).
  destruct (frame_assembly open_ended_stream open_ended_halves sample_bits
              Hpre eq_refl Hm eq_refl eq_refl) as (_ & _ & Hiff & _).
  split; [reflexivity|]. apply Hiff. reflexivity.
Defined.

(** * Round trip through the idealized synthesizer *)

(** ** What the synthesizer emits *)

Lemma emit_bits_no_jitter (half_us : Z) (rand : nat -> Z) :
  forall bits pulses n,
    fold_left (emit_bit half_us 0 rand) bits (pulses, n)
    = (pulses ++ timed half_us (halves_of bits), n).
Proof.
  induction bits as [|b bits IH]; intros pulses n.
  - simpl. now rewrite app_nil_r.
  - cbn [fold_left]. unfold emit_bit at 2, half. cbn [Z.eqb].
    destruct (b =? 1) eqn:Hb; rewrite IH; unfold halves_of; cbn [flat_map];
      rewrite Hb; unfold timed; rewrite map_app, <- !app_assoc; reflexivity.
Qed.

Lemma emit_halfbit_stream_no_jitter (frame half_us idle_us : Z) (rand : nat -> Z) :
  0 <= frame < 2 ^ 32 ->
  emit_halfbit_stream frame half_us idle_us 0 rand
  = Some ((LOW, idle_us) :: timed half_us (halves_of (structural_bits frame))).
Proof.
  intros Hf. unfold emit_halfbit_stream.
  replace ((0 <=? frame) && (frame <=? 0xFFFFFFFF)) with true.
  2:{ symmetry. apply andb_true_iff. split; [apply Z.leb_le|apply Z.leb_le]; lia. }
  cbn [negb]. f_equal.
  set (st1 := emit_bit half_us 0 rand ([(LOW, idle_us)], O) 1).
  assert (Hst1 : st1 = ([(LOW, idle_us)] ++ timed half_us (halves_of [1]), O))
    by reflexivity.
  assert (Hfold : forall (positions : list Z) st,
             fold_left (fun st i => emit_bit half_us 0 rand st
                                      (Z.land (Z.shiftr frame i) 1)) positions st
             = fold_left (emit_bit half_us 0 rand)
                 (map (fun i => Z.land (Z.shiftr frame i) 1) positions) st).
  { induction positions as [|p positions IH]; intros st; [reflexivity|].
    cbn [fold_left map]. apply IH. }
  rewrite Hfold. fold (frame_bits frame). rewrite Hst1.
  rewrite emit_bits_no_jitter.
  change (emit_bit half_us 0 rand ?st 1)
    with (fold_left (emit_bit half_us 0 rand) [1] st).
  rewrite emit_bits_no_jitter. cbn [fst].
  unfold structural_bits, halves_of, timed.
  cbn [flat_map]. rewrite !flat_map_app, !map_app. cbn [Z.eqb Pos.eqb].
  rewrite <- !app_assoc. reflexivity.
Qed.

(** ** What [collapse_runs] produces *)

Lemma collapse_from_runs :
  forall pulses out cur,
    Forall (fun p : pulse => 0 < snd p) pulses ->
    collapse_from (out ++ [cur]) pulses = Some (out ++ runs_acc cur pulses).
Proof.
  induction pulses as [|[level dur] pulses IH]; intros out cur Hpos.
  - reflexivity.
  - inversion Hpos as [|? ? Hd Hrest]; subst. cbn [snd] in Hd.
    cbn [collapse_from runs_acc]. unfold collapse_step.
    replace (dur <=? 0) with false by (symmetry; apply Z.leb_gt; lia).
    destruct (out ++ [cur]) as [|p0 out0] eqn:Hout.
    { destruct out; discriminate. }
    rewrite <- Hout. unfold last_pulse.
    rewrite last_last, removelast_last.
    destruct (Bool.eqb (fst cur) level) eqn:Hl; cbn [negb].
    + apply eqb_prop in Hl. rewrite IH by assumption.
      destruct cur as [l d]; cbn [fst snd] in *; subst. reflexivity.
    + rewrite <- app_assoc. cbn [app].
      replace (out ++ cur :: [(level, dur)]) with ((out ++ [cur]) ++ [(level, dur)])
        by (now rewrite <- app_assoc).
      rewrite IH by assumption. now rewrite <- app_assoc.
Qed.

Lemma collapse_runs_eq (p : pulse) (pulses : list pulse) :
  0 < snd p ->
  Forall (fun p : pulse => 0 < snd p) pulses ->
  collapse_runs (p :: pulses) = Some (runs_acc p pulses).
Proof.
  intros Hp Hpos. unfold collapse_runs. cbn [collapse_from].
  destruct p as [level dur]. cbn [snd] in Hp. unfold collapse_step.
  replace (dur <=? 0) with false by (symmetry; apply Z.leb_gt; lia).
  cbn [app]. apply (collapse_from_runs pulses [] (level, dur) Hpos).
Qed.

(** ** Streams the decoder reads without any repair *)

(** The runs of a Manchester half-bit stream are clean: a run never spans
    more than two halves. *)
Lemma manchester_runs_clean :
  forall bits level,
    let runs := runs_acc (level, 500) (timed 500 (halves_of bits)) in
    clean (negb level) runs /\ expand runs = level :: halves_of bits.
Proof.
  induction bits as [|b bits IH]; intros level runs; subst runs.
  - cbn. repeat split; try discriminate. destruct level; discriminate.
  - unfold halves_of. cbn [flat_map]. fold (halves_of bits).
    set (hb := if b =? 1 then [HIGH; LOW] else [LOW; HIGH]).
    assert (Hhb : exists h, hb = [h; negb h])
      by (subst hb; destruct (b =? 1); [exists HIGH|exists LOW]; reflexivity).
    destruct Hhb as (h & ->).
    unfold timed. cbn [map app runs_acc fst snd].
    fold (timed 500 (halves_of bits)).
    specialize (IH (negb h)). cbv zeta in IH. destruct IH as (IHc & IHe).
    rewrite negb_involutive in IHc.
    destruct (Bool.eqb level h) eqn:Hl.
    + apply eqb_prop in Hl. subst h.
      replace (Bool.eqb level (negb level)) with false
        by (destruct level; reflexivity).
      cbn [clean]. unfold expand in *. cbn [flat_map fst snd].
      change (classify (500 + 500)) with (Some 2%nat).
      rewrite IHe. cbn. repeat split; try discriminate; try assumption.
      destruct level; discriminate.
    + apply eqb_false_iff in Hl.
      replace (Bool.eqb h (negb h)) with false by (destruct h; reflexivity).
      cbn [clean]. unfold expand in *. cbn [flat_map fst snd].
      change (classify 500) with (Some 1%nat).
      rewrite IHe. cbn. repeat split; try discriminate; try assumption.
      * destruct level; discriminate.
      * congruence.
Qed.

Lemma push_halves_repeat (halves : nat) :
  forall half_levels level,
    (length half_levels + halves <= 68)%nat ->
    push_halves halves half_levels level = half_levels ++ repeat level halves.
Proof.
  induction halves as [|n IH]; intros hl level Hlen; cbn [push_halves repeat].
  - now rewrite app_nil_r.
  - unfold push_capped.
    replace (length hl <? 68)%nat with true by (symmetry; apply Nat.ltb_lt; lia).
    rewrite IH by (rewrite length_app; simpl; lia).
    now rewrite <- app_assoc.
Qed.

Lemma get_app_cons (pre : list pulse) (p : pulse) (suf : list pulse) :
  get (pre ++ p :: suf) (length pre) = p.
Proof. unfold get. now rewrite nth_middle. Qed.

Lemma skipn_app_cons (pre : list pulse) (p : pulse) (suf : list pulse) :
  skipn (length pre + 1) (pre ++ p :: suf) = suf.
Proof.
  replace (length pre + 1)%nat with (length (pre ++ [p]))
    by (rewrite length_app; reflexivity).
  replace (pre ++ p :: suf) with ((pre ++ [p]) ++ suf)
    by (now rewrite <- app_assoc).
  rewrite skipn_app, skipn_all, Nat.sub_diag. reflexivity.
Qed.

Lemma flip_check_other_level (interrupts : list pulse) (i : nat) (level : bool) :
  in_range interrupts (i + 1) = false \/ lvl interrupts (i + 1) <> level ->
  flip_check interrupts i level = false.
Proof.
  intros H. unfold flip_check.
  destruct (in_range interrupts (i + 2)) eqn:H2; [|reflexivity].
  destruct (Bool.eqb (lvl interrupts (i + 1)) level) eqn:Hl; [|reflexivity].
  exfalso. apply eqb_prop in Hl. destruct H as [H|H]; [|contradiction].
  apply in_range_false in H. apply in_range_true in H2. lia.
Qed.

Lemma expand_cons (p : pulse) (pulses : list pulse) (halves : nat) :
  classify (snd p) = Some halves ->
  expand (p :: pulses) = repeat (fst p) halves ++ expand pulses.
Proof. intros H. unfold expand. cbn [flat_map]. now rewrite H. Qed.

Lemma app_cons_snoc (pre : list pulse) (p : pulse) (suf : list pulse) :
  pre ++ p :: suf = (pre ++ [p]) ++ suf.
Proof. now rewrite <- app_assoc. Qed.

Lemma length_snoc (pre : list pulse) (p : pulse) :
  length (pre ++ [p]) = (length pre + 1)%nat.
Proof. now rewrite length_app. Qed.

(** On a clean suffix the main loop only classifies: every pulse contributes
    its one or two half-bits. *)
Lemma main_loop_clean :
  forall suf pre half_levels fuel prev,
    clean prev suf ->
    (length half_levels + length (expand suf) <= 68)%nat ->
    (length suf <= fuel)%nat ->
    main_loop fuel (pre ++ suf) (length pre) half_levels
    = Some (inr (half_levels ++ expand suf)).
Proof.
  induction suf as [|p suf IH]; intros pre hl fuel prev Hclean Hlen Hfuel.
  - rewrite app_nil_r.
    assert (Hc : loop_cond pre (length pre) hl = false).
    { unfold loop_cond. apply andb_false_elim_l. apply in_range_false. lia. }
    destruct fuel; simpl; rewrite Hc; now rewrite app_nil_r.
  - remember (fst p) as level eqn:Hlevel. remember (snd p) as dur eqn:Hdurp.
    assert (Hcl' : level <> prev /\ classify dur <> None /\ clean level suf)
      by (subst level dur; destruct p; exact Hclean).
    clear Hclean. destruct Hcl' as (Hprev & Hvalid & Hclean).
    destruct (classify dur) as [halves|] eqn:Hcl; [|contradiction].
    assert (Hex : expand (p :: suf) = repeat level halves ++ expand suf)
      by (rewrite Hlevel; apply expand_cons; rewrite <- Hdurp; exact Hcl).
    rewrite Hex in *.
    rewrite length_app, repeat_length in Hlen.
    assert (Hhalves : (1 <= halves)%nat)
      by (destruct (classify_cases _ _ Hcl); lia).
    destruct fuel as [|fuel]; [simpl in Hfuel; lia|].
    cbn [main_loop].
    remember (pre ++ p :: suf) as ints eqn:Hints.
    assert (Hc : loop_cond ints (length pre) hl = true).
    { unfold loop_cond. apply andb_true_iff. split.
      - apply in_range_true. rewrite Hints, length_app. simpl. lia.
      - apply Nat.ltb_lt. lia. }
    rewrite Hc.
    assert (Hlvl : lvl ints (length pre) = level)
      by (unfold lvl; now rewrite Hints, get_app_cons).
    assert (Hdur : dur_of ints (length pre) = dur)
      by (unfold dur_of; now rewrite Hints, get_app_cons).
    assert (Hnext : in_range ints (length pre + 1) = false
                    \/ lvl ints (length pre + 1) <> level).
    { destruct suf as [|q suf'].
      - left. apply in_range_false. rewrite Hints, length_app. simpl. lia.
      - right. unfold lvl.
        rewrite Hints, app_cons_snoc, <- length_snoc with (p := p), get_app_cons.
        destruct q. exact (proj1 Hclean). }
    assert (Hmerge : merge_run ints level (skipn (length pre + 1) ints)
                       (length pre) dur = (length pre, dur)).
    { rewrite Hints at 2. rewrite skipn_app_cons.
      destruct suf as [|[l1 d1] suf']; [reflexivity|].
      cbn [merge_run]. destruct Hclean as (Hne & _).
      replace (Bool.eqb l1 level) with false
        by (symmetry; apply eqb_false_iff; exact Hne).
      reflexivity. }
    assert (Hglitch : GLITCH_MAX_US <= dur).
    { unfold GLITCH_MAX_US.
      destruct (classify_cases _ _ Hcl) as [-> | ->];
        [apply classify_one in Hcl|apply classify_two in Hcl]; lia. }
    pose proof (loop_body_segment ints (length pre) hl (length pre) dur) as Hb.
    rewrite Hlvl, Hdur in Hb. specialize (Hb Hglitch Hmerge).
    cbv zeta in Hb.
    rewrite Hcl, (flip_check_other_level _ _ _ Hnext) in Hb.
    rewrite Hb, push_halves_repeat by lia.
    rewrite Hints, app_cons_snoc, <- length_snoc with (p := p).
    rewrite (IH (pre ++ [p]) (hl ++ repeat level halves) fuel level).
    + now rewrite <- app_assoc.
    + exact Hclean.
    + rewrite length_app, repeat_length. lia.
    + simpl in Hfuel. lia.
Qed.

(** ** Decoding the half-bits of a frame *)

Lemma halves_of_length (bits : list Z) :
  length (halves_of bits) = (2 * length bits)%nat.
Proof.
  induction bits as [|b bits IH]; [reflexivity|].
  unfold halves_of in *. cbn [flat_map length].
  rewrite length_app, IH. destruct (b =? 1); simpl; lia.
Qed.

Lemma halves_of_nth :
  forall bits b,
    (b < length bits)%nat ->
    nth (2 * b) (halves_of bits) LOW = (nth b bits 0 =? 1)
    /\ nth (2 * b + 1) (halves_of bits) LOW = negb (nth b bits 0 =? 1).
Proof.
  induction bits as [|x bits IH]; intros b Hb; [simpl in Hb; lia|].
  destruct b as [|b].
  - unfold halves_of. cbn [flat_map]. destruct (x =? 1) eqn:Hx; cbn; rewrite Hx;
      split; reflexivity.
  - simpl in Hb. destruct (IH b ltac:(lia)) as (H1 & H2).
    replace (2 * S b)%nat with (S (S (2 * b))) by lia.
    replace (S (S (2 * b)) + 1)%nat with (S (S (2 * b + 1))) by lia.
    unfold halves_of in *. cbn [flat_map nth].
    destruct (x =? 1); cbn [app nth]; split; assumption.
Qed.

Lemma manchester_bits_halves_of (bits : list Z) :
  length bits = 34%nat ->
  Forall is_bit bits ->
  manchester_bits (halves_of bits) = inr bits.
Proof.
  intros Hlen Hbits. rewrite manchester_bits_eq.
  assert (Hall : forallb (pair_differs (halves_of bits)) (seq 0 34) = true).
  { apply forallb_forall. intros b Hb. apply in_seq in Hb.
    destruct (halves_of_nth bits b ltac:(lia)) as (H1 & H2).
    unfold pair_differs. rewrite H1, H2.
    destruct (nth b bits 0 =? 1); reflexivity. }
  rewrite Hall. f_equal.
  apply (nth_ext _ _ 0 0).
  - now rewrite length_map, length_seq.
  - intros b Hb. rewrite length_map, length_seq in Hb.
    rewrite (nth_indep _ 0 (pair_bit (halves_of bits) 0))
      by (rewrite length_map, length_seq; lia).
    rewrite map_nth, seq_nth by lia. cbn [Nat.add].
    unfold pair_bit.
    destruct (halves_of_nth bits b ltac:(lia)) as (-> & _).
    rewrite Forall_forall in Hbits.
    destruct (Hbits (nth b bits 0) ltac:(apply nth_In; lia)) as [-> | ->];
      reflexivity.
Qed.

(** ** The bits of a frame *)

Lemma land_one_bit (x : Z) : Z.land x 1 = Z.b2z (Z.testbit x 0).
Proof.
  change 1 with (Z.ones 1). rewrite Z.land_ones by lia.
  change (2 ^ 1) with 2. symmetry. apply Z.bit0_mod.
Qed.

Lemma frame_bits_length (frame : Z) : length (frame_bits frame) = 32%nat.
Proof. unfold frame_bits. now rewrite length_map. Qed.

Lemma frame_positions_nth (j : nat) :
  (j < 32)%nat -> nth j frame_positions 0 = Z.of_nat (31 - j).
Proof.
  intros Hj. unfold frame_positions.
  change 0 with (Z.of_nat 0) at 1. rewrite map_nth.
  rewrite rev_nth by (rewrite length_seq; lia).
  rewrite length_seq, seq_nth by lia. f_equal; lia.
Qed.

Lemma frame_bits_nth (frame : Z) (j : nat) :
  (j < 32)%nat ->
  nth j (frame_bits frame) 0 = Z.b2z (Z.testbit frame (Z.of_nat (31 - j))).
Proof.
  intros Hj. unfold frame_bits.
  rewrite (nth_indep _ 0 (Z.land (Z.shiftr frame 0) 1))
    by (now rewrite length_map).
  rewrite (map_nth (fun i => Z.land (Z.shiftr frame i) 1)).
  rewrite frame_positions_nth by assumption.
  rewrite land_one_bit, Z.shiftr_spec by lia.
  reflexivity.
Qed.

Lemma frame_bits_are_bits (frame : Z) : Forall is_bit (frame_bits frame).
Proof.
  unfold frame_bits. apply Forall_forall. intros b Hb.
  apply in_map_iff in Hb as (i & <- & _).
  rewrite land_one_bit. unfold is_bit.
  destruct (Z.testbit _ _); simpl; auto.
Qed.

Lemma structural_bits_are_bits (frame : Z) : Forall is_bit (structural_bits frame).
Proof.
  unfold structural_bits. constructor; [now right|].
  apply Forall_app. split; [apply frame_bits_are_bits|].
  constructor; [now right|constructor].
Qed.

Lemma structural_bits_length (frame : Z) :
  length (structural_bits frame) = 34%nat.
Proof.
  unfold structural_bits. cbn [length]. rewrite length_app, frame_bits_length.
  reflexivity.
Qed.

Lemma structural_bits_nth (frame : Z) (b : nat) :
  (1 <= b <= 32)%nat ->
  nth b (structural_bits frame) 0
  = Z.b2z (Z.testbit frame (Z.of_nat (32 - b))).
Proof.
  intros Hb. unfold structural_bits.
  destruct b as [|b]; [lia|]. cbn [nth].
  rewrite app_nth1 by (rewrite frame_bits_length; lia).
  rewrite frame_bits_nth by lia. do 3 f_equal; lia.
Qed.

Lemma testbit_above (x : Z) (n : Z) :
  0 <= x < 2 ^ 32 -> 32 <= n -> Z.testbit x n = false.
Proof.
  intros Hx Hn. destruct (Z.eq_dec x 0) as [->|Hne]; [apply Z.testbit_0_l|].
  apply Z.bits_above_log2; [lia|].
  assert (Z.log2 x < 32) by (apply Z.log2_lt_pow2; lia). lia.
Qed.

(** Assembling the structural bits of a frame gives the frame back. *)
Lemma build_frame_structural_bits (frame : Z) :
  0 <= frame < 2 ^ 32 -> build_frame (structural_bits frame) = frame.
Proof.
  intros Hf.
  assert (H01 : forall b, (1 <= b <= 32)%nat ->
                          nth b (structural_bits frame) 0 = 0
                          \/ nth b (structural_bits frame) 0 = 1).
  { intros b Hb. rewrite structural_bits_nth by assumption.
    destruct (Z.testbit _ _); simpl; auto. }
  destruct (build_frame_spec _ H01) as (Hrange & Htest).
  apply Z.bits_inj'. intros n Hn.
  destruct (Z_lt_ge_dec n 32) as [Hlt|Hge].
  - replace n with (Z.of_nat (32 - (32 - Z.to_nat n))) by lia.
    rewrite Htest by lia.
    rewrite structural_bits_nth by lia.
    destruct (Z.testbit _ _); reflexivity.
  - rewrite !testbit_above by lia. reflexivity.
Qed.

Lemma timed_positive (half_us : Z) (levels : list bool) :
  0 < half_us -> Forall (fun p : pulse => 0 < snd p) (timed half_us levels).
Proof.
  intros H. unfold timed. apply Forall_forall. intros p Hp.
  apply in_map_iff in Hp as (l & <- & _). exact H.
Qed.

(** The half-bits of a frame decode to the frame when its parity is even. *)
Lemma decode_halves_structural_bits (frame : Z) :
  0 <= frame < 2 ^ 32 ->
  Nat.even (popcount frame) = true ->
  decode_halves (halves_of (structural_bits frame))
  = Decoded frame (structural_bits frame).
Proof.
  intros Hf Hpar. unfold decode_halves.
  assert (Hlen : length (halves_of (structural_bits frame)) = 68%nat)
    by (now rewrite halves_of_length, structural_bits_length).
  rewrite end_fix_other_length by lia. rewrite Hlen. cbn [Nat.eqb negb].
  rewrite manchester_bits_halves_of
    by (apply structural_bits_length || apply structural_bits_are_bits).
  unfold validate.
  assert (H33 : nth 33 (structural_bits frame) 0 = 1).
  { unfold structural_bits. cbn [nth].
    rewrite app_nth2 by (rewrite frame_bits_length; lia).
    now rewrite frame_bits_length. }
  rewrite H33. cbn [nth structural_bits Z.eqb Pos.eqb negb].
  fold (structural_bits frame).
  rewrite build_frame_structural_bits by assumption.
  now rewrite Hpar.
Qed.

Lemma halves_of_start (rest : list Z) :
  halves_of (1 :: rest) = HIGH :: LOW :: halves_of rest.
Proof. reflexivity. Qed.

Lemma runs_after_idle (idle_us : Z) (levels : list bool) :
  runs_acc (LOW, idle_us) (timed 500 (HIGH :: LOW :: levels))
  = (LOW, idle_us) :: (HIGH, 500) :: runs_acc (LOW, 500) (timed 500 levels).
Proof. reflexivity. Qed.

Lemma start_fix_idle_low (idle_us : Z) (pulses : list pulse) :
  start_fix ((LOW, idle_us) :: pulses) = [].
Proof.
  unfold start_fix. cbn [length lvl get nth fst].
  destruct (1 <? _)%nat; reflexivity.
Qed.

(** C1.  For every 32-bit value [frame] with an even population count and
    every idle duration of at least one half-bit, the idealized synthesizer
    (500us halves, no jitter: [emit_halfbit_stream] then [collapse_runs])
    produces a stream that [decode_opentherm] decodes to exactly [frame]. *)
Theorem round_trip_exact (frame idle_us : Z) (rand : nat -> Z) :
  0 <= frame < 2 ^ 32 ->
  Nat.even (popcount frame) = true ->
  500 <= idle_us ->
  exists stage1 stage2,
    emit_halfbit_stream frame 500 idle_us 0 rand = Some stage1
    /\ collapse_runs stage1 = Some stage2
    /\ decode_opentherm stage2
       = Some (Decoded frame (structural_bits frame)).
Proof.
  intros Hf Hpar Hidle.
  remember (frame_bits frame ++ [1]) as rest eqn:Hrest.
  pose proof (manchester_runs_clean rest LOW) as Hruns. cbv zeta in Hruns.
  remember (runs_acc (LOW, 500) (timed 500 (halves_of rest))) as runs eqn:Hr.
  destruct Hruns as (Hclean & Hexp).
  exists ((LOW, idle_us) :: timed 500 (halves_of (1 :: rest))),
         ((LOW, idle_us) :: (HIGH, 500) :: runs).
  split.
  { rewrite emit_halfbit_stream_no_jitter by assumption.
    unfold structural_bits. now rewrite <- Hrest. }
  split.
  { rewrite collapse_runs_eq.
    - now rewrite halves_of_start, runs_after_idle, <- Hr.
    - cbn [snd]. lia.
    - apply timed_positive. lia. }
  assert (Hexpand : expand ((HIGH, 500) :: runs) = halves_of (1 :: rest)).
  { rewrite (expand_cons _ _ 1%nat) by reflexivity.
    now rewrite Hexp, halves_of_start. }
  assert (Hlen : length (halves_of (1 :: rest)) = 68%nat).
  { rewrite Hrest. fold (structural_bits frame).
    now rewrite halves_of_length, structural_bits_length. }
  assert (Hpre : preprocess ((LOW, idle_us) :: (HIGH, 500) :: runs)
                 = Some (inr (halves_of (1 :: rest)))).
  { unfold preprocess. rewrite start_fix_idle_low.
    change ((LOW, idle_us) :: (HIGH, 500) :: runs)
      with ([(LOW, idle_us)] ++ (HIGH, 500) :: runs).
    rewrite (main_loop_clean ((HIGH, 500) :: runs) [(LOW, idle_us)] [] _ LOW).
    - now rewrite Hexpand.
    - cbn [clean]. split; [discriminate|]. split; [discriminate|exact Hclean].
    - rewrite Hexpand, Hlen. apply Nat.le_refl.
    - rewrite length_app. cbn [length]. lia. }
  rewrite (decode_opentherm_halves _ _ Hpre).
  rewrite Hrest. fold (structural_bits frame).
  now rewrite decode_halves_structural_bits.
Qed.

(** The concrete case: [0x80190000] round-trips exactly. *)
Lemma round_trip_exact_witness :
  round_trip 0x80190000 5000 = Some (Decoded 0x80190000 sample_bits).
Proof.
  destruct (round_trip_exact 0x80190000 5000 no_jitter) as (s1 & s2 & H1 & H2 & H3).
  - lia.
  - reflexivity.
  - lia.
  - unfold round_trip. rewrite H1, H2, H3. reflexivity.
Defined.

(** * Dropping a glitch *)

(** ** The main loop without fuel *)

Lemma run_unfold (interrupts : list pulse) (i : nat) (half_levels : list bool) :
  run interrupts i half_levels
  = if loop_cond interrupts i half_levels then
      match loop_body interrupts i half_levels with
      | Next _ i' half_levels' => run interrupts i' half_levels'
      | Abort e => Some (inl e)
      end
    else Some (inr half_levels).
Proof.
  unfold run.
  destruct (loop_cond interrupts i half_levels) eqn:Hc.
  - assert (Hi : (i < length interrupts)%nat).
    { unfold loop_cond in Hc. btrue. now apply in_range_true. }
    destruct (length interrupts - i)%nat as [|n] eqn:Hn; [lia|].
    cbn [main_loop]. rewrite Hc.
    destruct (loop_body interrupts i half_levels) as [k i' hl'|e] eqn:Hb;
      [|reflexivity].
    apply loop_body_progress in Hb.
    destruct (main_loop_enough interrupts n i' hl' ltac:(lia)) as (r & Hr & Hall).
    rewrite Hr. symmetry. apply Hall. lia.
  - destruct (length interrupts - i)%nat; cbn [main_loop]; now rewrite Hc.
Qed.

Lemma preprocess_run (interrupts : list pulse) :
  preprocess interrupts = run interrupts 1 (start_fix interrupts).
Proof. apply reachable_continue. constructor. Qed.

(** ** Reading a concatenation *)

Lemma get_app_l (X Y : list pulse) (j : nat) :
  (j < length X)%nat -> get (X ++ Y) j = get X j.
Proof. intros H. unfold get. now rewrite app_nth1. Qed.

Lemma get_app_r (X Y : list pulse) (j : nat) :
  (length X <= j)%nat -> get (X ++ Y) j = get Y (j - length X).
Proof. intros H. unfold get. now rewrite app_nth2. Qed.

Lemma skipn_app_r (X Y : list pulse) (j : nat) :
  (length X <= j)%nat -> skipn j (X ++ Y) = skipn (j - length X) Y.
Proof.
  intros H. rewrite skipn_app, skipn_all2 by assumption. reflexivity.
Qed.

Lemma skipn_app_l (X Y : list pulse) (j : nat) :
  (j <= length X)%nat -> skipn j (X ++ Y) = skipn j X ++ Y.
Proof.
  intros H. rewrite skipn_app.
  replace (j - length X)%nat with O by lia. reflexivity.
Qed.

Section GlitchDrop.

(** The pulses before the glitch end with [a]; the glitch [g] is followed by
    [b].  [with_glitch] is the captured stream, [without_glitch] the same
    stream with [g] removed. *)
Variables (A : list pulse) (a g b : pulse) (B : list pulse).

Hypothesis g_short : snd g < GLITCH_MAX_US.
Hypothesis a_long : GLITCH_MAX_US <= snd a.
Hypothesis b_long : GLITCH_MAX_US <= snd b.
Hypothesis g_not_a : fst g <> fst a.
Hypothesis g_like_b : fst g = fst b.

Let before : list pulse := A ++ [a].
Let n : nat := length before.
Let with_glitch : list pulse := before ++ g :: b :: B.
Let without_glitch : list pulse := before ++ b :: B.

Lemma n_positive : (1 <= n)%nat.
Proof. unfold n, before. rewrite length_app. simpl. lia. Qed.

Lemma with_glitch_length : length with_glitch = (n + 2 + length B)%nat.
Proof. unfold with_glitch. rewrite length_app. fold n. simpl. lia. Qed.

Lemma without_glitch_length : length without_glitch = (n + 1 + length B)%nat.
Proof. unfold without_glitch. rewrite length_app. fold n. simpl. lia. Qed.

Lemma get_prefix (j : nat) :
  (j < n)%nat -> get with_glitch j = get without_glitch j.
Proof.
  intros H. unfold with_glitch, without_glitch.
  now rewrite !get_app_l by exact H.
Qed.

Lemma get_last_before : get with_glitch (n - 1) = a.
Proof.
  pose proof n_positive.
  unfold with_glitch. rewrite get_app_l by (fold n; lia).
  unfold before, n, before. rewrite length_app. cbn [length].
  replace (length A + 1 - 1)%nat with (length A) by lia.
  apply get_app_cons.
Qed.

Lemma get_glitch : get with_glitch n = g.
Proof. unfold with_glitch, n. apply get_app_cons. Qed.

Lemma get_after_glitch : get without_glitch n = b.
Proof. unfold without_glitch, n. apply get_app_cons. Qed.

Lemma get_shift (j : nat) :
  (n <= j)%nat -> get with_glitch (j + 1) = get without_glitch j.
Proof.
  intros H. unfold with_glitch, without_glitch.
  rewrite !get_app_r by (fold n; lia). fold n.
  replace (j + 1 - n)%nat with (S (j - n)) by lia. reflexivity.
Qed.

Lemma in_range_shift (j : nat) :
  in_range with_glitch (j + 1) = in_range without_glitch j.
Proof.
  unfold in_range. rewrite with_glitch_length, without_glitch_length.
  destruct (j <? n + 1 + length B)%nat eqn:E; btrue;
    [apply Nat.ltb_lt|apply Nat.ltb_ge]; lia.
Qed.

Lemma in_range_prefix (j : nat) :
  (j <= n)%nat ->
  in_range with_glitch j = true /\ in_range without_glitch j = true.
Proof.
  intros H. split; apply in_range_true;
    rewrite ?with_glitch_length, ?without_glitch_length; lia.
Qed.

Lemma skipn_shift (j : nat) :
  (n <= j)%nat -> skipn (j + 1) with_glitch = skipn j without_glitch.
Proof.
  intros H. unfold with_glitch, without_glitch.
  rewrite !skipn_app_r by (fold n; lia). fold n.
  replace (j + 1 - n)%nat with (S (j - n)) by lia. reflexivity.
Qed.

Lemma lvl_prefix (j : nat) :
  (j < n)%nat -> lvl with_glitch j = lvl without_glitch j.
Proof. intros H. unfold lvl. now rewrite get_prefix. Qed.

Lemma dur_prefix (j : nat) :
  (j < n)%nat -> dur_of with_glitch j = dur_of without_glitch j.
Proof. intros H. unfold dur_of. now rewrite get_prefix. Qed.

Lemma lvl_shift (j : nat) :
  (n <= j)%nat -> lvl with_glitch (j + 1) = lvl without_glitch j.
Proof. intros H. unfold lvl. now rewrite get_shift. Qed.

Lemma dur_shift (j : nat) :
  (n <= j)%nat -> dur_of with_glitch (j + 1) = dur_of without_glitch j.
Proof. intros H. unfold dur_of. now rewrite get_shift. Qed.

(** *** Behind the glitch: the same iterations, one index further *)

Lemma flip_pattern_shift (j : nat) (level : bool) (d : Z) :
  (n <= j)%nat ->
  flip_pattern with_glitch (j + 1) level d = flip_pattern without_glitch j level d.
Proof.
  intros H. unfold flip_pattern.
  replace (j + 1 + 2)%nat with (j + 2 + 1)%nat by lia.
  replace (j + 1 + 3)%nat with (j + 3 + 1)%nat by lia.
  rewrite !in_range_shift, !lvl_shift, !dur_shift by lia. reflexivity.
Qed.

Lemma flip_check_shift (j : nat) (level : bool) :
  (n <= j)%nat ->
  flip_check with_glitch (j + 1) level = flip_check without_glitch j level.
Proof.
  intros H. unfold flip_check.
  replace (j + 1 + 2)%nat with (j + 2 + 1)%nat by lia.
  replace (j + 1 + 1)%nat with (j + 1 + 1)%nat by lia.
  rewrite !in_range_shift, !lvl_shift, !dur_shift by lia. reflexivity.
Qed.

Lemma merge_run_shift (level : bool) :
  forall rest j dur,
    (n <= j)%nat ->
    merge_run with_glitch level rest (j + 1) dur
    = let '(j', d) := merge_run without_glitch level rest j dur in
      ((j' + 1)%nat, d).
Proof.
  induction rest as [|[next_level next_dur] rest IH]; intros j dur Hj.
  - reflexivity.
  - cbn [merge_run]. rewrite flip_pattern_shift by assumption.
    destruct (Bool.eqb next_level level); [|reflexivity].
    destruct (flip_pattern without_glitch j level next_dur); [reflexivity|].
    apply IH. lia.
Qed.

Lemma glitch_step_shift (i : nat) (level : bool) (half_levels : list bool) :
  (n < i)%nat ->
  glitch_step with_glitch (i + 1) level half_levels
  = glitch_step without_glitch i level half_levels.
Proof.
  intros Hi. pose proof n_positive as Hn. unfold glitch_step, stretched_cond.
  rewrite in_range_shift, lvl_shift, dur_shift by lia.
  replace (i + 1 - 1)%nat with (i - 1 + 1)%nat by lia.
  rewrite dur_shift by lia.
  replace (1 <? i + 1)%nat with true by (symmetry; apply Nat.ltb_lt; lia).
  replace (1 <? i)%nat with true by (symmetry; apply Nat.ltb_lt; lia).
  reflexivity.
Qed.

Lemma loop_body_shift (i : nat) (half_levels : list bool) :
  (n <= i)%nat ->
  (i = n -> GLITCH_MAX_US <= dur_of without_glitch i) ->
  loop_body with_glitch (i + 1) half_levels
  = shift_cursor (loop_body without_glitch i half_levels).
Proof.
  intros Hi Hfirst. unfold loop_body.
  rewrite lvl_shift, dur_shift, skipn_shift by lia.
  destruct (dur_of without_glitch i <? GLITCH_MAX_US) eqn:Hglitch.
  - assert (n < i)%nat.
    { destruct (Nat.eq_dec i n) as [E|E]; [|lia].
      specialize (Hfirst E). btrue. lia. }
    rewrite glitch_step_shift by assumption.
    destruct (glitch_step _ _ _ _). reflexivity.
  - rewrite merge_run_shift by assumption.
    destruct (merge_run without_glitch _ _ _ _) as [j d] eqn:Hm.
    assert (n <= j)%nat by (apply merge_run_le in Hm; lia).
    rewrite flip_check_shift by assumption.
    replace (j + 1 + 2)%nat with (j + 2 + 1)%nat by lia.
    replace (j + 1 + 1)%nat with (j + 1 + 1)%nat by lia.
    rewrite !lvl_shift, !dur_shift by lia.
    destruct (flip_check _ _ _), (classify d); cbn [shift_cursor];
      try reflexivity; f_equal; lia.
Qed.

Lemma loop_cond_shift (i : nat) (half_levels : list bool) :
  loop_cond with_glitch (i + 1) half_levels
  = loop_cond without_glitch i half_levels.
Proof. unfold loop_cond. now rewrite in_range_shift. Qed.

Lemma run_shift :
  forall m i half_levels,
    (length without_glitch - i <= m)%nat ->
    (n <= i)%nat ->
    (i = n -> GLITCH_MAX_US <= dur_of without_glitch i) ->
    run with_glitch (i + 1) half_levels = run without_glitch i half_levels.
Proof.
  induction m as [|m IH]; intros i hl Hm Hi Hfirst;
    rewrite (run_unfold with_glitch), (run_unfold without_glitch),
      loop_cond_shift.
  - replace (loop_cond without_glitch i hl) with false; [reflexivity|].
    symmetry. unfold loop_cond. apply andb_false_elim_l, in_range_false. lia.
  - destruct (loop_cond without_glitch i hl) eqn:Hc; [|reflexivity].
    rewrite loop_body_shift by assumption.
    destruct (loop_body without_glitch i hl) as [k i' hl'|e] eqn:Hb;
      cbn [shift_cursor]; [|reflexivity].
    apply loop_body_progress in Hb.
    apply IH; lia.
Qed.

(** *** Before the glitch: the same iterations *)

Lemma lvl_glitch : lvl with_glitch n = fst g.
Proof. unfold lvl. now rewrite get_glitch. Qed.

Lemma lvl_after_glitch : lvl without_glitch n = fst b.
Proof. unfold lvl. now rewrite get_after_glitch. Qed.

Lemma lvl_last_before : lvl with_glitch (n - 1) = fst a.
Proof. unfold lvl. now rewrite get_last_before. Qed.

(** The lookahead of the merge never matches across the glitch. *)
Lemma flip_pattern_prefix (i : nat) (level : bool) (d : Z) :
  (i + 2 <= n)%nat ->
  flip_pattern with_glitch i level d = flip_pattern without_glitch i level d
  /\ (flip_pattern with_glitch i level d = true -> (i + 3 < n)%nat).
Proof.
  intros Hi.
  destruct (Nat.lt_ge_cases (i + 3) n) as [Hin|Hout].
  - split; [|auto]. unfold flip_pattern.
    rewrite !lvl_prefix, !dur_prefix by lia.
    destruct (in_range_prefix (i + 2) ltac:(lia)) as (-> & ->).
    destruct (in_range_prefix (i + 3) ltac:(lia)) as (-> & ->).
    reflexivity.
  - assert (Hleft : flip_pattern with_glitch i level d = false).
    { destruct (flip_pattern with_glitch i level d) eqn:Hp; [|reflexivity].
      exfalso. apply flip_pattern_inv in Hp as (_ & _ & Hd & Hl2 & _ & Hl3).
      destruct (Nat.eq_dec (i + 3) n) as [E|E].
      + replace (i + 2)%nat with (n - 1)%nat in Hd by lia.
        unfold dur_of in Hd. rewrite get_last_before in Hd. lia.
      + replace (i + 2)%nat with n in Hl2 by lia.
        replace (i + 3)%nat with (n + 1)%nat in Hl3 by lia.
        rewrite lvl_glitch in Hl2.
        rewrite lvl_shift, lvl_after_glitch in Hl3 by lia.
        rewrite g_like_b, Hl3 in Hl2. destruct level; discriminate. }
    assert (Hright : flip_pattern without_glitch i level d = false).
    { destruct (flip_pattern without_glitch i level d) eqn:Hp; [|reflexivity].
      exfalso. apply flip_pattern_inv in Hp as (_ & _ & Hd & _).
      destruct (Nat.eq_dec (i + 3) n) as [E|E].
      + replace (i + 2)%nat with (n - 1)%nat in Hd by lia.
        rewrite <- dur_prefix in Hd by lia.
        unfold dur_of in Hd. rewrite get_last_before in Hd. lia.
      + replace (i + 2)%nat with n in Hd by lia.
        unfold dur_of in Hd. rewrite get_after_glitch in Hd. lia. }
    rewrite Hleft, Hright. split; [reflexivity|discriminate].
Qed.

Lemma merge_run_prefix (level : bool) :
  forall rest i dur,
    (i < n)%nat ->
    skipn (i + 1) before = rest ->
    lvl with_glitch i = level ->
    merge_run with_glitch level (rest ++ g :: b :: B) i dur
    = merge_run without_glitch level (rest ++ b :: B) i dur
    /\ (forall j d,
          merge_run without_glitch level (rest ++ b :: B) i dur = (j, d) ->
          (j < n)%nat /\ lvl with_glitch j = level).
Proof.
  induction rest as [|[next_level next_dur] rest IH]; intros i dur Hi Hrest Hlvl.
  - apply skipn_nil_inv in Hrest. fold n in Hrest.
    assert (Ei : i = (n - 1)%nat) by lia.
    assert (Hl : level = fst a) by (rewrite <- Hlvl, Ei; apply lvl_last_before).
    cbn [app merge_run]. destruct g as [lg dg], b as [lb db].
    cbn [fst] in *.
    replace (Bool.eqb lg level) with false
      by (symmetry; apply eqb_false_iff; congruence).
    replace (Bool.eqb lb level) with false
      by (symmetry; apply eqb_false_iff; congruence).
    split; [reflexivity|]. intros j d [= <- <-]. split; [lia|assumption].
  - apply (@skipn_cons_inv pulse _ _ _ (LOW, 0)) in Hrest
      as (Hlt & Hnth & Hskip).
    fold n in Hlt.
    cbn [app merge_run].
    destruct (Bool.eqb next_level level) eqn:Hnext.
    + destruct (flip_pattern_prefix i level next_dur ltac:(lia)) as (Heq & _).
      rewrite Heq.
      destruct (flip_pattern without_glitch i level next_dur).
      * split; [reflexivity|]. intros j d [= <- <-]. split; [lia|assumption].
      * apply IH; [lia| |].
        { rewrite <- Hskip. f_equal. lia. }
        { apply eqb_prop in Hnext. rewrite <- Hnext.
          unfold lvl, with_glitch. rewrite get_app_l by (fold n; lia).
          unfold get. now rewrite Hnth. }
    + split; [reflexivity|]. intros j d [= <- <-]. split; [lia|assumption].
Qed.

Lemma skipn_with_glitch (i : nat) :
  (i < n)%nat ->
  skipn (i + 1) with_glitch = skipn (i + 1) before ++ g :: b :: B.
Proof. intros H. unfold with_glitch. apply skipn_app_l. fold n. lia. Qed.

Lemma skipn_without_glitch (i : nat) :
  (i < n)%nat ->
  skipn (i + 1) without_glitch = skipn (i + 1) before ++ b :: B.
Proof. intros H. unfold without_glitch. apply skipn_app_l. fold n. lia. Qed.

Lemma glitch_step_prefix (i : nat) (level : bool) (half_levels : list bool) :
  (i + 1 < n)%nat ->
  glitch_step with_glitch i level half_levels
  = glitch_step without_glitch i level half_levels.
Proof.
  intros Hi. unfold glitch_step, stretched_cond.
  destruct (in_range_prefix (i + 1) ltac:(lia)) as (-> & ->).
  rewrite !lvl_prefix, !dur_prefix by lia. reflexivity.
Qed.

Lemma loop_body_prefix (i : nat) (half_levels : list bool) :
  (i < n)%nat ->
  loop_body with_glitch i half_levels = loop_body without_glitch i half_levels
  /\ (forall k i' half_levels',
        loop_body without_glitch i half_levels = Next k i' half_levels' ->
        (i' <= n)%nat).
Proof.
  intros Hi. unfold loop_body.
  rewrite <- lvl_prefix, <- dur_prefix by assumption.
  set (level := lvl with_glitch i). set (dur := dur_of with_glitch i).
  destruct (dur <? GLITCH_MAX_US) eqn:Hglitch.
  - assert (Hin : (i + 1 < n)%nat).
    { destruct (Nat.eq_dec i (n - 1)) as [E|E]; [|lia].
      exfalso. subst dur. unfold dur_of in Hglitch.
      rewrite E, get_last_before in Hglitch. btrue. lia. }
    rewrite glitch_step_prefix by assumption.
    destruct (glitch_step without_glitch i level half_levels) as [k hl'].
    split; [reflexivity|]. intros k0 i' hl0 [= _ <- _]. lia.
  - rewrite skipn_with_glitch, skipn_without_glitch by assumption.
    destruct (merge_run_prefix level (skipn (i + 1) before) i dur Hi
                eq_refl eq_refl) as (Hsame & Hend).
    pose proof Hsame as Hleft.
    destruct (merge_run without_glitch level _ i dur) as [j d] eqn:Hright.
    rewrite Hsame.
    destruct (Hend j d eq_refl) as (Hj & Hlj).
    rewrite <- skipn_with_glitch in Hleft by assumption.
    rewrite <- skipn_without_glitch in Hright by assumption.
    assert (Hcheck : flip_check with_glitch j level
                     = flip_check without_glitch j level
                     /\ (flip_check without_glitch j level = true ->
                         (j + 3 < n)%nat)).
    { destruct (flip_check with_glitch j level) eqn:Hc1.
      - pose proof (flip_check_after_merge _ _ _ _ _ _ Hleft Hc1) as Hp.
        assert (Hj1 : (j + 2 <= n)%nat).
        { destruct (Nat.eq_dec j (n - 1)) as [E|E]; [|lia].
          exfalso. unfold flip_check in Hc1. btrue.
          replace (j + 1)%nat with n in * by lia.
          rewrite lvl_glitch in *. rewrite E, lvl_last_before in Hlj.
          congruence. }
        destruct (flip_pattern_prefix j level (dur_of with_glitch (j + 1)) Hj1)
          as (_ & Hfar).
        specialize (Hfar Hp).
        split; [|intros _; exact Hfar].
        rewrite <- Hc1. unfold flip_check.
        rewrite !lvl_prefix, !dur_prefix by lia.
        destruct (in_range_prefix (j + 2) ltac:(lia)) as (-> & ->).
        reflexivity.
      - destruct (flip_check without_glitch j level) eqn:Hc2;
          [|split; [reflexivity|discriminate]].
        exfalso.
        pose proof (flip_check_after_merge _ _ _ _ _ _ Hright Hc2) as Hp.
        assert (Hj1 : (j + 2 <= n)%nat).
        { destruct (Nat.eq_dec j (n - 1)) as [E|E]; [|lia].
          exfalso. unfold flip_check in Hc2. btrue.
          replace (j + 1)%nat with n in * by lia.
          rewrite lvl_after_glitch in *. rewrite E, lvl_last_before in Hlj.
          congruence. }
        destruct (flip_pattern_prefix j level (dur_of without_glitch (j + 1)) Hj1)
          as (Heq & Hfar).
        rewrite <- Heq in Hp. specialize (Hfar Hp).
        assert (Hc1' : flip_check with_glitch j level = true).
        { rewrite <- Hc2. unfold flip_check.
          rewrite !lvl_prefix, !dur_prefix by lia.
          destruct (in_range_prefix (j + 2) ltac:(lia)) as (-> & ->).
          reflexivity. }
        congruence. }
    destruct Hcheck as (Hceq & Hfar). rewrite Hceq.
    destruct (flip_check without_glitch j level) eqn:Hc.
    + specialize (Hfar eq_refl).
      rewrite !lvl_prefix, !dur_prefix by lia.
      destruct (classify d); split; try reflexivity; try discriminate.
      intros k i' hl' [= _ <- _]. lia.
    + destruct (classify d); split; try reflexivity; try discriminate.
      intros k i' hl' [= _ <- _]. lia.
Qed.

(** *** At the glitch *)

Lemma loop_cond_prefix (i : nat) (half_levels : list bool) :
  (i <= n)%nat ->
  loop_cond with_glitch i half_levels = loop_cond without_glitch i half_levels.
Proof.
  intros Hi. unfold loop_cond.
  destruct (in_range_prefix i Hi) as (-> & ->). reflexivity.
Qed.

(** The restore condition cannot hold at the glitch: it is skipped. *)
Lemma glitch_skipped (half_levels : list bool) :
  loop_body with_glitch n half_levels = Next KGlitchSkip (n + 1) half_levels.
Proof.
  unfold loop_body.
  replace (dur_of with_glitch n <? GLITCH_MAX_US) with true.
  2:{ symmetry. apply Z.ltb_lt. unfold dur_of. now rewrite get_glitch. }
  unfold glitch_step.
  destruct ((0 <? length half_levels)%nat && in_range with_glitch (n + 1));
    [|reflexivity].
  rewrite lvl_glitch, lvl_shift, lvl_after_glitch by lia.
  unfold restore_cond. rewrite g_like_b.
  destruct (last_half half_levels), (fst b);
    cbn [Bool.eqb negb andb]; rewrite ?andb_false_r; reflexivity.
Qed.

Lemma run_prefix :
  forall m i half_levels,
    (n - i <= m)%nat ->
    (i <= n)%nat ->
    run with_glitch i half_levels = run without_glitch i half_levels.
Proof.
  induction m as [|m IH]; intros i hl Hm Hi.
  - assert (E : i = n) by lia. subst i.
    rewrite (run_unfold with_glitch), loop_cond_prefix by lia.
    destruct (loop_cond without_glitch n hl) eqn:Hc.
    + rewrite glitch_skipped.
      apply (run_shift (length without_glitch)); try lia.
      intros _. unfold dur_of. now rewrite get_after_glitch.
    + now rewrite (run_unfold without_glitch), Hc.
  - destruct (Nat.eq_dec i n) as [E|E]; [apply (IH i hl); lia|].
    rewrite (run_unfold with_glitch), (run_unfold without_glitch).
    rewrite loop_cond_prefix by lia.
    destruct (loop_cond without_glitch i hl); [|reflexivity].
    destruct (loop_body_prefix i hl ltac:(lia)) as (-> & Hnext).
    destruct (loop_body without_glitch i hl) as [k i' hl'|e] eqn:Hb;
      [|reflexivity].
    pose proof (loop_body_progress _ _ _ _ _ _ Hb).
    specialize (Hnext k i' hl' eq_refl).
    apply IH; lia.
Qed.

Lemma start_fix_same : start_fix with_glitch = start_fix without_glitch.
Proof.
  pose proof n_positive as Hn. unfold start_fix.
  rewrite with_glitch_length, without_glitch_length.
  rewrite (lvl_prefix 0) by lia.
  replace (lvl with_glitch 1) with (lvl without_glitch 1).
  - replace (1 <? n + 2 + length B)%nat with true
      by (symmetry; apply Nat.ltb_lt; lia).
    replace (1 <? n + 1 + length B)%nat with true
      by (symmetry; apply Nat.ltb_lt; lia).
    reflexivity.
  - destruct (Nat.eq_dec n 1) as [E|E].
    + rewrite <- E, lvl_glitch, lvl_after_glitch. congruence.
    + symmetry. apply lvl_prefix. lia.
Qed.

(** C6 (amended).  A pulse [g] shorter than [GLITCH_MAX_US] whose neighbours
    [a] and [b] are not glitches, whose level differs from the level of [a]
    and equals the level of [b], cannot satisfy the restore condition: the
    decoder skips it, and the stream decodes exactly as the stream with [g]
    removed (the same frame and bits, or the same failure). *)
Theorem glitch_drop_same_decode :
  (forall half_levels,
      loop_body with_glitch n half_levels
      = Next KGlitchSkip (n + 1) half_levels)
  /\ without_glitch = remove_at n with_glitch
  /\ decode_opentherm with_glitch = decode_opentherm without_glitch.
Proof.
  split; [exact glitch_skipped|]. split.
  - unfold remove_at, with_glitch, without_glitch, n.
    rewrite firstn_app, firstn_all, Nat.sub_diag. cbn [firstn].
    rewrite app_nil_r.
    replace (S (length before)) with (length before + 1)%nat by lia.
    now rewrite skipn_app_cons.
  - unfold decode_opentherm.
    rewrite !preprocess_run, start_fix_same.
    pose proof n_positive.
    now rewrite (run_prefix n 1) by lia.
Qed.

End GlitchDrop.

(** ** Instances *)

(** C6 as stated fails: in [split_stream] the 50us HIGH pulse at index 5
    stands between two pulses that are not glitches, the decoder reaches it
    and skips it (the pulse after it lasts only 250us, so the restore
    condition fails); the stream fails with [InvalidDuration], while the
    stream without that pulse decodes to frame [0x80190000]. *)
Lemma glitch_drop_counterexample :
  dur_of split_stream 5 < GLITCH_MAX_US
  /\ GLITCH_MAX_US <= dur_of split_stream 4
  /\ GLITCH_MAX_US <= dur_of split_stream 6
  /\ reachable split_stream 5 [HIGH; LOW; HIGH; LOW; LOW]
  /\ loop_body split_stream 5 [HIGH; LOW; HIGH; LOW; LOW]
     = Next KGlitchSkip 6 [HIGH; LOW; HIGH; LOW; LOW]
  /\ decode_opentherm split_stream = Some (Failed InvalidDuration)
  /\ decode_opentherm (remove_at 5 split_stream)
     = Some (Decoded 0x80190000 sample_bits)
  /\ decode_opentherm split_stream
     <> decode_opentherm (remove_at 5 split_stream).
Proof.
  split; [reflexivity|].
  split; [vm_compute; discriminate|].
  split; [vm_compute; discriminate|].
  split; [apply (iterate_reachable 4); reflexivity|].
  split; [reflexivity|].
  split; [vm_compute; reflexivity|].
  split; [vm_compute; reflexivity|].
  vm_compute. discriminate.
Qed.

(** The 50us LOW pulse of [noisy_stream] is dropped: the stream decodes as
    the stream without it, to frame [0x80190000]. *)
Lemma glitch_drop_same_decode_witness :
  decode_opentherm noisy_stream = decode_opentherm (remove_at 4 noisy_stream)
  /\ decode_opentherm noisy_stream = Some (Decoded 0x80190000 sample_bits).
Proof.
  assert (H : decode_opentherm noisy_stream
              = decode_opentherm (remove_at 4 noisy_stream)).
  { refine (proj2 (proj2 (glitch_drop_same_decode
                            [(LOW, 5000); (HIGH, 500); (LOW, 500)]
                            (HIGH, 500) (LOW, 50) (LOW, 1000) _ _ _ _ _ _))).
    - reflexivity.
    - vm_compute; discriminate.
    - vm_compute; discriminate.
    - discriminate.
    - reflexivity. }
  split; [exact H|]. rewrite H. vm_compute. reflexivity.
Defined.

(** * The synthesizer on its own *)

(** ** [emit_halfbit_stream] with jitter *)

Lemma half_duration_no_jitter (half_us : Z) (rand : nat -> Z) (n m : nat) :
  half_duration half_us 0 rand n = half_duration half_us 0 rand m.
Proof. reflexivity. Qed.

Lemma half_eq (half_us jitter_us : Z) (rand : nat -> Z) (pulses : list pulse)
      (n : nat) (level : bool) :
  half half_us jitter_us rand (pulses, n) level
  = (pulses ++ [(level, half_duration half_us jitter_us rand n)],
     if jitter_us =? 0 then n else S n).
Proof. unfold half, half_duration. destruct (jitter_us =? 0); reflexivity. Qed.

Lemma emit_bits_jittered (half_us jitter_us : Z) (rand : nat -> Z) :
  forall bits pulses n,
    exists n',
      fold_left (emit_bit half_us jitter_us rand) bits (pulses, n)
      = (pulses ++ jittered half_us jitter_us rand n (halves_of bits), n').
Proof.
  induction bits as [|b bits IH]; intros pulses n.
  - exists n. cbn. now rewrite app_nil_r.
  - cbn [fold_left]. unfold emit_bit at 2.
    unfold halves_of. cbn [flat_map]. fold (halves_of bits).
    assert (Hstep : forall l1 l2,
               exists m,
                 half half_us jitter_us rand
                   (half half_us jitter_us rand (pulses, n) l1) l2
                 = ((pulses ++ [(l1, half_duration half_us jitter_us rand n)])
                      ++ [(l2, half_duration half_us jitter_us rand (S n))], m)
                 /\ jittered half_us jitter_us rand m (halves_of bits)
                    = jittered half_us jitter_us rand (S (S n)) (halves_of bits)).
    { intros l1 l2. rewrite !half_eq.
      destruct (jitter_us =? 0) eqn:Hj.
      - apply Z.eqb_eq in Hj. subst jitter_us. exists n. split; [reflexivity|].
        generalize (halves_of bits). intros levels. generalize n (S (S n)).
        induction levels as [|l levels IHl]; intros k1 k2; [reflexivity|].
        cbn [jittered]. f_equal. apply IHl.
      - exists (S (S n)). split; reflexivity. }
    destruct (b =? 1).
    + destruct (Hstep HIGH LOW) as (m & -> & Hm).
      destruct (IH ((pulses ++ [(HIGH, half_duration half_us jitter_us rand n)])
                      ++ [(LOW, half_duration half_us jitter_us rand (S n))]) m)
        as (n' & ->).
      exists n'. rewrite Hm. cbn [app jittered]. now rewrite <- !app_assoc.
    + destruct (Hstep LOW HIGH) as (m & -> & Hm).
      destruct (IH ((pulses ++ [(LOW, half_duration half_us jitter_us rand n)])
                      ++ [(HIGH, half_duration half_us jitter_us rand (S n))]) m)
        as (n' & ->).
      exists n'. rewrite Hm. cbn [app jittered]. now rewrite <- !app_assoc.
Qed.

Lemma emit_halfbit_stream_jittered (frame half_us idle_us jitter_us : Z)
      (rand : nat -> Z) :
  0 <= frame < 2 ^ 32 ->
  emit_halfbit_stream frame half_us idle_us jitter_us rand
  = Some ((LOW, idle_us)
            :: jittered half_us jitter_us rand 0
                 (halves_of (structural_bits frame))).
Proof.
  intros Hf. unfold emit_halfbit_stream.
  replace ((0 <=? frame) && (frame <=? 0xFFFFFFFF)) with true.
  2:{ symmetry. apply andb_true_iff. split; apply Z.leb_le; lia. }
  cbn [negb]. f_equal.
  assert (Hfold : forall (positions : list Z) st,
             fold_left (fun st i => emit_bit half_us jitter_us rand st
                                      (Z.land (Z.shiftr frame i) 1)) positions st
             = fold_left (emit_bit half_us jitter_us rand)
                 (map (fun i => Z.land (Z.shiftr frame i) 1) positions) st).
  { induction positions as [|p positions IH]; intros st; [reflexivity|].
    cbn [fold_left map]. apply IH. }
  rewrite Hfold. fold (frame_bits frame). unfold structural_bits.
  generalize (frame_bits frame). intros fbits.
  assert (Hall : forall st,
             emit_bit half_us jitter_us rand
               (fold_left (emit_bit half_us jitter_us rand) fbits
                  (emit_bit half_us jitter_us rand st 1)) 1
             = fold_left (emit_bit half_us jitter_us rand)
                 (1 :: fbits ++ [1]) st).
  { intros st. cbn [fold_left]. now rewrite fold_left_app. }
  rewrite Hall.
  destruct (emit_bits_jittered half_us jitter_us rand
              (1 :: fbits ++ [1]) [(LOW, idle_us)] O)
    as (n' & ->).
  reflexivity.
Qed.

Lemma jittered_levels (half_us jitter_us : Z) (rand : nat -> Z) :
  forall levels n,
    map fst (jittered half_us jitter_us rand n levels) = levels.
Proof.
  induction levels as [|l levels IH]; intros n; [reflexivity|].
  cbn [jittered map fst]. now rewrite IH.
Qed.

Lemma jittered_durations (half_us jitter_us : Z) (rand : nat -> Z) (P : Z -> Prop) :
  (forall n, P (half_duration half_us jitter_us rand n)) ->
  forall levels n,
    Forall (fun p : pulse => P (snd p)) (jittered half_us jitter_us rand n levels).
Proof.
  intros HP. induction levels as [|l levels IH]; intros n; cbn [jittered].
  - constructor.
  - constructor; [apply HP|apply IH].
Qed.

(** X1.  [emit_halfbit_stream] raises its [ValueError] for every frame
    outside [0..0xFFFFFFFF]; for a frame inside and a jitter that is not
    negative (so that [random.randint] has a range to draw from) it returns
    69 pulses, the idle pulse [(LOW, idle_us)] followed by the 68 half-bits
    of start bit, frame bits (most significant first) and stop bit, whatever
    the random draws. *)
Theorem emit_halfbit_stream_shape (frame half_us idle_us jitter_us : Z)
        (rand : nat -> Z) :
  (0 <= frame <= 0xFFFFFFFF ->
   0 <= jitter_us ->
   exists halves,
     emit_halfbit_stream frame half_us idle_us jitter_us rand
     = Some ((LOW, idle_us) :: halves)
     /\ length halves = 68%nat
     /\ map fst halves = halves_of (structural_bits frame))
  /\ (~ 0 <= frame <= 0xFFFFFFFF ->
      emit_halfbit_stream frame half_us idle_us jitter_us rand = None).
Proof.
  split.
  - intros Hf _.
    exists (jittered half_us jitter_us rand 0 (halves_of (structural_bits frame))).
    split; [apply emit_halfbit_stream_jittered; lia|].
    pose proof (jittered_levels half_us jitter_us rand
                  (halves_of (structural_bits frame)) 0) as Hl.
    split; [|exact Hl].
    rewrite <- (length_map fst), Hl, halves_of_length, structural_bits_length.
    reflexivity.
  - intros Hf. unfold emit_halfbit_stream.
    destruct ((0 <=? frame) && (frame <=? 0xFFFFFFFF)) eqn:E; [|reflexivity].
    btrue. lia.
Qed.

(** X2.  The half-bit durations of [emit_halfbit_stream]: without jitter
    every half-bit lasts [half_us]; with a positive jitter every half-bit
    lasts at least 1us (the clamp), and when the draws stay within
    [-jitter_us..jitter_us] and [half_us - jitter_us >= 1] every half-bit
    lasts between [half_us - jitter_us] and [half_us + jitter_us]. *)
Theorem emit_halfbit_stream_durations (frame half_us idle_us jitter_us : Z)
        (rand : nat -> Z) (stream : list pulse) :
  emit_halfbit_stream frame half_us idle_us jitter_us rand = Some stream ->
  (jitter_us = 0 ->
   Forall (fun p : pulse => snd p = half_us) (tl stream))
  /\ (0 < jitter_us ->
      Forall (fun p : pulse => 1 <= snd p) (tl stream))
  /\ ((forall n, - jitter_us <= rand n <= jitter_us) ->
      1 <= half_us - jitter_us ->
      Forall (fun p : pulse =>
                half_us - jitter_us <= snd p <= half_us + jitter_us)
             (tl stream)).
Proof.
  intros Hemit.
  assert (Hf : 0 <= frame < 2 ^ 32).
  { unfold emit_halfbit_stream in Hemit.
    destruct ((0 <=? frame) && (frame <=? 0xFFFFFFFF)) eqn:E;
      [|discriminate]. btrue. lia. }
  rewrite (emit_halfbit_stream_jittered _ _ _ _ _ Hf) in Hemit.
  assert (Hs : stream = (LOW, idle_us)
                         :: jittered half_us jitter_us rand 0
                              (halves_of (structural_bits frame)))
    by congruence.
  rewrite Hs. clear Hs Hemit. cbn [tl].
  split; [|split].
  - intros ->. apply (jittered_durations half_us 0 rand (fun d => d = half_us)).
    reflexivity.
  - intros Hj. apply (jittered_durations half_us jitter_us rand (fun d => 1 <= d)).
    intros n. unfold half_duration.
    replace (jitter_us =? 0) with false by (symmetry; apply Z.eqb_neq; lia).
    destruct (half_us + rand n <? 1) eqn:E; btrue; lia.
  - intros Hrand Hlow.
    apply (jittered_durations half_us jitter_us rand
             (fun d => half_us - jitter_us <= d <= half_us + jitter_us)).
    intros n. unfold half_duration. specialize (Hrand n).
    destruct (jitter_us =? 0) eqn:Hj; btrue; [lia|].
    destruct (half_us + rand n <? 1) eqn:E; btrue; lia.
Qed.

(** ** [collapse_runs] on its own *)

Lemma collapse_step_none (out : list pulse) (p : pulse) :
  collapse_step out p = None <-> snd p <= 0.
Proof.
  destruct p as [level dur]. unfold collapse_step. cbn [snd].
  destruct (dur <=? 0) eqn:E; btrue.
  - tauto.
  - split; [|lia]. destruct out; [discriminate|].
    destruct (negb _); discriminate.
Qed.

Lemma collapse_from_none :
  forall pulses out,
    collapse_from out pulses = None
    <-> Exists (fun p : pulse => snd p <= 0) pulses.
Proof.
  induction pulses as [|p pulses IH]; intros out; cbn [collapse_from].
  - split; [discriminate|]. intros H. inversion H.
  - destruct (collapse_step out p) as [out'|] eqn:Hs.
    + rewrite IH. split.
      * intros H. now apply Exists_cons_tl.
      * intros H. inversion H as [? ? Hp|? ? Hr]; subst; [|assumption].
        apply (collapse_step_none out) in Hp. congruence.
    + split; [|reflexivity]. intros _. apply Exists_cons_hd.
      now apply (collapse_step_none out).
Qed.

Lemma not_exists_nonpositive (pulses : list pulse) :
  ~ Exists (fun p : pulse => snd p <= 0) pulses ->
  Forall (fun p : pulse => 0 < snd p) pulses.
Proof.
  intros H. apply Forall_forall. intros p Hp.
  destruct (Z_lt_ge_dec 0 (snd p)) as [Hlt|Hge]; [assumption|].
  exfalso. apply H. apply Exists_exists. exists p. split; [assumption|lia].
Qed.

(** A successful [collapse_runs] on a non-empty stream is [runs_acc]. *)
Lemma collapse_runs_some (pulses out : list pulse) :
  collapse_runs pulses = Some out ->
  Forall (fun p : pulse => 0 < snd p) pulses
  /\ match pulses with
     | [] => out = []
     | p :: pulses' => out = runs_acc p pulses'
     end.
Proof.
  intros H.
  assert (Hpos : Forall (fun p : pulse => 0 < snd p) pulses).
  { apply not_exists_nonpositive. intros Hex.
    apply (collapse_from_none pulses []) in Hex. unfold collapse_runs in H.
    congruence. }
  split; [exact Hpos|].
  destruct pulses as [|p pulses]; [cbn in H; congruence|].
  inversion Hpos; subst.
  rewrite collapse_runs_eq in H by assumption. congruence.
Qed.

Lemma runs_acc_head (cur : pulse) :
  forall pulses, exists d rest,
      runs_acc cur pulses = (fst cur, d) :: rest.
Proof.
  intros pulses. revert cur.
  induction pulses as [|[level dur] pulses IH]; intros cur; cbn [runs_acc].
  - destruct cur. eauto.
  - destruct (Bool.eqb (fst cur) level) eqn:E.
    + apply eqb_prop in E. destruct (IH (level, snd cur + dur)) as (d & rest & ->).
      cbn [fst]. rewrite E. eauto.
    + destruct cur. eauto.
Qed.

Lemma runs_acc_alternating :
  forall pulses cur, alternating (runs_acc cur pulses).
Proof.
  induction pulses as [|[level dur] pulses IH]; intros cur; cbn [runs_acc].
  - cbn. auto.
  - destruct (Bool.eqb (fst cur) level) eqn:E; [apply IH|].
    apply eqb_false_iff in E.
    destruct (runs_acc_head (level, dur) pulses) as (d & rest & Hr).
    pose proof (IH (level, dur)) as Halt. rewrite Hr in *.
    cbn [alternating fst] in *. split; assumption.
Qed.

Lemma runs_acc_positive :
  forall pulses cur,
    0 < snd cur ->
    Forall (fun p : pulse => 0 < snd p) pulses ->
    Forall (fun p : pulse => 0 < snd p) (runs_acc cur pulses).
Proof.
  induction pulses as [|[level dur] pulses IH]; intros cur Hc Hp; cbn [runs_acc].
  - constructor; [assumption|constructor].
  - inversion Hp as [|? ? Hd Hrest]; subst. cbn [snd] in Hd.
    destruct (Bool.eqb (fst cur) level).
    + apply IH; [cbn [snd]; lia|assumption].
    + constructor; [assumption|]. apply IH; assumption.
Qed.

Lemma runs_acc_length :
  forall pulses cur, (length (runs_acc cur pulses) <= S (length pulses))%nat.
Proof.
  induction pulses as [|[level dur] pulses IH]; intros cur; cbn [runs_acc length].
  - lia.
  - destruct (Bool.eqb (fst cur) level).
    + specialize (IH (level, snd cur + dur)). lia.
    + cbn [length]. specialize (IH (level, dur)). lia.
Qed.

Lemma runs_acc_total :
  forall pulses cur,
    total_duration (runs_acc cur pulses) = snd cur + total_duration pulses.
Proof.
  induction pulses as [|[level dur] pulses IH]; intros cur; cbn [runs_acc].
  - unfold total_duration. cbn [fold_right]. lia.
  - destruct (Bool.eqb (fst cur) level).
    + rewrite IH. unfold total_duration. cbn [fold_right snd]. lia.
    + unfold total_duration in *. cbn [fold_right snd]. rewrite IH.
      cbn [snd]. lia.
Qed.

Lemma runs_acc_levels :
  forall pulses cur,
    map fst (runs_acc cur pulses) = squeeze (fst cur :: map fst pulses).
Proof.
  induction pulses as [|[level dur] pulses IH]; intros cur; cbn [runs_acc].
  - reflexivity.
  - cbn [map fst squeeze].
    destruct (Bool.eqb (fst cur) level) eqn:E.
    + rewrite IH. reflexivity.
    + cbn [map]. rewrite IH. reflexivity.
Qed.

Lemma runs_acc_fixed :
  forall pulses cur,
    alternating (cur :: pulses) -> runs_acc cur pulses = cur :: pulses.
Proof.
  induction pulses as [|[level dur] pulses IH]; intros cur Halt; cbn [runs_acc].
  - reflexivity.
  - destruct Halt as (Hne & Halt). cbn [fst] in Hne.
    replace (Bool.eqb (fst cur) level) with false
      by (symmetry; now apply eqb_false_iff).
    f_equal. now apply IH.
Qed.

(** X3.  [collapse_runs] raises exactly when some pulse of its input has a
    duration that is not positive (also when that pulse would have been
    merged into its predecessor). *)
Theorem collapse_runs_raises (pulses : list pulse) :
  collapse_runs pulses = None
  <-> Exists (fun p : pulse => snd p <= 0) pulses.
Proof. apply collapse_from_none. Qed.

(** X4.  The output of [collapse_runs] never has two adjacent pulses of the
    same level, has only positive durations, is not longer than the input
    and is empty only for the empty input. *)
Theorem collapse_runs_alternating (pulses out : list pulse) :
  collapse_runs pulses = Some out ->
  alternating out
  /\ Forall (fun p : pulse => 0 < snd p) out
  /\ (length out <= length pulses)%nat
  /\ (out = [] <-> pulses = []).
Proof.
  intros H. apply collapse_runs_some in H as (Hpos & Hout).
  destruct pulses as [|p pulses]; subst out.
  - cbn. repeat split; auto.
  - inversion Hpos; subst.
    split; [apply runs_acc_alternating|].
    split; [now apply runs_acc_positive|].
    split; [apply runs_acc_length|].
    destruct (runs_acc_head p pulses) as (d & rest & ->).
    split; discriminate.
Qed.

(** X5.  [collapse_runs] keeps the waveform: the total duration is
    unchanged and the levels of the output are the levels of the input with
    consecutive repetitions removed. *)
Theorem collapse_runs_waveform (pulses out : list pulse) :
  collapse_runs pulses = Some out ->
  total_duration out = total_duration pulses
  /\ map fst out = squeeze (map fst pulses).
Proof.
  intros H. apply collapse_runs_some in H as (_ & Hout).
  destruct pulses as [|p pulses]; subst out; [split; reflexivity|].
  split; [apply runs_acc_total|apply runs_acc_levels].
Qed.

(** X6.  [collapse_runs] is idempotent: collapsing an already collapsed
    stream succeeds and changes nothing. *)
Theorem collapse_runs_idempotent (pulses out : list pulse) :
  collapse_runs pulses = Some out -> collapse_runs out = Some out.
Proof.
  intros H. apply collapse_runs_some in H as (Hpos & Hout).
  destruct pulses as [|p pulses]; subst out; [reflexivity|].
  inversion Hpos; subst.
  pose proof (runs_acc_alternating pulses p) as Halt.
  pose proof (runs_acc_positive pulses p ltac:(assumption) ltac:(assumption))
    as Hpos'.
  destruct (runs_acc p pulses) as [|q out]; [reflexivity|].
  inversion Hpos'; subst.
  rewrite collapse_runs_eq by assumption.
  now rewrite runs_acc_fixed.
Qed.

(** ** Round trip with bounded jitter *)

(** The runs of a Manchester stream whose half-bits last 350 to 650us are
    clean: a single half is read as one half-bit, a run of two as two. *)
Lemma manchester_runs_clean_jitter :
  forall bits pulses cur,
    map fst pulses = halves_of bits ->
    Forall (fun p : pulse => 350 <= snd p <= 650) pulses ->
    350 <= snd cur <= 650 ->
    clean (negb (fst cur)) (runs_acc cur pulses)
    /\ expand (runs_acc cur pulses) = fst cur :: halves_of bits.
Proof.
  induction bits as [|b bits IH]; intros pulses [level dc] Hlev Hdur Hc;
    cbn [fst snd] in *.
  - destruct pulses; [|discriminate]. cbn [runs_acc clean].
    assert (Hcl : classify dc = Some 1%nat) by (apply classify_one; lia).
    split.
    + split; [destruct level; discriminate|]. split; [congruence|exact I].
    + unfold expand. cbn [flat_map snd fst]. rewrite Hcl. reflexivity.
  - unfold halves_of in Hlev |- *. cbn [flat_map] in Hlev |- *.
    fold (halves_of bits) in Hlev |- *.
    assert (Hh : exists h, (if b =? 1 then [HIGH; LOW] else [LOW; HIGH])
                           = [h; negb h])
      by (destruct (b =? 1); [exists HIGH|exists LOW]; reflexivity).
    destruct Hh as (h & Hh). rewrite Hh in Hlev |- *. cbn [app] in Hlev |- *.
    destruct pulses as [|[l1 d1] [|[l2 d2] pulses]]; try discriminate.
    cbn [map fst] in Hlev. injection Hlev as -> -> Hlev.
    inversion Hdur as [|? ? Hd1 Hdur1]; subst.
    inversion Hdur1 as [|? ? Hd2 Hdur2]; subst. cbn [snd] in Hd1, Hd2.
    destruct (IH pulses (negb h, d2) Hlev Hdur2 Hd2) as (IHc & IHe).
    cbn [fst] in IHc, IHe. rewrite negb_involutive in IHc.
    cbn [runs_acc fst snd].
    destruct (Bool.eqb level h) eqn:Hl.
    + apply eqb_prop in Hl. subst h.
      replace (Bool.eqb level (negb level)) with false
        by (destruct level; reflexivity).
      assert (Hcl : classify (dc + d1) = Some 2%nat) by (apply classify_two; lia).
      cbn [clean]. unfold expand in *. cbn [flat_map fst snd].
      rewrite Hcl, IHe. cbn [repeat app].
      split; [|reflexivity].
      split; [destruct level; discriminate|]. split; [congruence|assumption].
    + apply eqb_false_iff in Hl.
      replace (Bool.eqb h (negb h)) with false by (destruct h; reflexivity).
      assert (Hcl0 : classify dc = Some 1%nat) by (apply classify_one; lia).
      assert (Hcl1 : classify d1 = Some 1%nat) by (apply classify_one; lia).
      cbn [clean]. unfold expand in *. cbn [flat_map fst snd].
      rewrite Hcl0, Hcl1, IHe. cbn [repeat app].
      split; [|reflexivity].
      split; [destruct level; discriminate|]. split; [congruence|].
      split; [congruence|]. split; [congruence|assumption].
Qed.

Lemma half_duration_bounded (jitter_us : Z) (rand : nat -> Z) (n : nat) :
  0 <= jitter_us <= 150 ->
  (forall k, - jitter_us <= rand k <= jitter_us) ->
  350 <= half_duration 500 jitter_us rand n <= 650.
Proof.
  intros Hj Hrand. unfold half_duration. specialize (Hrand n).
  destruct (jitter_us =? 0); [lia|].
  destruct (500 + rand n <? 1) eqn:E; btrue; lia.
Qed.

(** X7.  Round trip with jitter: for every 32-bit frame of even parity,
    every positive idle duration and every jitter of at most 150us (the
    draws staying within [-jitter_us..jitter_us], as [random.randint]
    guarantees), the stream of [emit_halfbit_stream] with 500us halves
    collapses without error and decodes to exactly the frame. *)
Theorem round_trip_with_jitter (frame idle_us jitter_us : Z) (rand : nat -> Z) :
  0 <= frame < 2 ^ 32 ->
  Nat.even (popcount frame) = true ->
  0 < idle_us ->
  0 <= jitter_us <= 150 ->
  (forall n, - jitter_us <= rand n <= jitter_us) ->
  exists stage1 stage2,
    emit_halfbit_stream frame 500 idle_us jitter_us rand = Some stage1
    /\ collapse_runs stage1 = Some stage2
    /\ decode_opentherm stage2
       = Some (Decoded frame (structural_bits frame)).
Proof.
  intros Hf Hpar Hidle Hj Hrand.
  remember (frame_bits frame ++ [1]) as rest eqn:Hrest.
  pose proof (emit_halfbit_stream_jittered frame 500 idle_us jitter_us rand Hf)
    as Hemit.
  unfold structural_bits in Hemit. rewrite <- Hrest, halves_of_start in Hemit.
  cbn [jittered] in Hemit.
  set (d0 := half_duration 500 jitter_us rand 0) in *.
  set (d1 := half_duration 500 jitter_us rand 1) in *.
  remember (jittered 500 jitter_us rand 2 (halves_of rest)) as tail eqn:Htail.
  assert (Hd0 : 350 <= d0 <= 650) by (now apply half_duration_bounded).
  assert (Hd1 : 350 <= d1 <= 650) by (now apply half_duration_bounded).
  assert (Hlev : map fst tail = halves_of rest)
    by (rewrite Htail; apply jittered_levels).
  assert (Hdur : Forall (fun p : pulse => 350 <= snd p <= 650) tail).
  { rewrite Htail.
    apply (jittered_durations 500 jitter_us rand (fun d => 350 <= d <= 650)).
    intros n. now apply half_duration_bounded. }
  destruct (manchester_runs_clean_jitter rest tail (LOW, d1) Hlev Hdur Hd1)
    as (Hclean & Hexp).
  cbn [fst negb] in Hclean, Hexp.
  remember (runs_acc (LOW, d1) tail) as runs eqn:Hr.
  exists ((LOW, idle_us) :: (HIGH, d0) :: (LOW, d1) :: tail),
         ((LOW, idle_us) :: (HIGH, d0) :: runs).
  split; [exact Hemit|]. split.
  { rewrite collapse_runs_eq.
    - cbn [runs_acc fst snd Bool.eqb LOW HIGH]. now rewrite <- Hr.
    - cbn [snd]. lia.
    - constructor; [cbn [snd]; lia|]. constructor; [cbn [snd]; lia|].
      eapply Forall_impl; [|exact Hdur]. intros p Hp. cbn beta in Hp. lia. }
  assert (Hcl0 : classify d0 = Some 1%nat) by (apply classify_one; lia).
  assert (Hexpand : expand ((HIGH, d0) :: runs) = halves_of (1 :: rest)).
  { rewrite (expand_cons _ _ 1%nat) by exact Hcl0.
    now rewrite Hexp, halves_of_start. }
  assert (Hlen : length (halves_of (1 :: rest)) = 68%nat).
  { rewrite Hrest. fold (structural_bits frame).
    now rewrite halves_of_length, structural_bits_length. }
  assert (Hpre : preprocess ((LOW, idle_us) :: (HIGH, d0) :: runs)
                 = Some (inr (halves_of (1 :: rest)))).
  { unfold preprocess. rewrite start_fix_idle_low.
    change ((LOW, idle_us) :: (HIGH, d0) :: runs)
      with ([(LOW, idle_us)] ++ (HIGH, d0) :: runs).
    rewrite (main_loop_clean ((HIGH, d0) :: runs) [(LOW, idle_us)] [] _ LOW).
    - now rewrite Hexpand.
    - cbn [clean]. split; [discriminate|]. split; [congruence|exact Hclean].
    - rewrite Hexpand, Hlen. apply Nat.le_refl.
    - rewrite length_app. cbn [length]. lia. }
  rewrite (decode_opentherm_halves _ _ Hpre).
  rewrite Hrest. fold (structural_bits frame).
  now rewrite decode_halves_structural_bits.
Qed.

(** X8.  The two stages of [generate_cpp_test_vector] never raise on a
    valid frame with a positive idle duration and positive half-bits
    ([half_us > 0], or a positive jitter, which clamps at 1us): the collapsed stream
    starts with the untouched idle pulse, alternates, and has at most 69
    pulses, the default [total_size] that [to_cpp_array] checks. *)
Theorem synthesizer_pipeline (frame half_us idle_us jitter_us : Z)
        (rand : nat -> Z) :
  0 <= frame <= 0xFFFFFFFF ->
  0 < idle_us ->
  0 <= jitter_us ->
  (jitter_us = 0 -> 0 < half_us) ->
  exists stage1 stage2 rest,
    emit_halfbit_stream frame half_us idle_us jitter_us rand = Some stage1
    /\ collapse_runs stage1 = Some stage2
    /\ stage2 = (LOW, idle_us) :: rest
    /\ alternating stage2
    /\ (length stage2 <= 69)%nat.
Proof.
  intros Hf Hidle _ Hhalf.
  pose proof (emit_halfbit_stream_jittered frame half_us idle_us jitter_us rand
                ltac:(lia)) as Hemit.
  unfold structural_bits in Hemit. rewrite halves_of_start in Hemit.
  cbn [jittered] in Hemit.
  remember (jittered half_us jitter_us rand 1
              (LOW :: halves_of (frame_bits frame ++ [1]))) as tail eqn:Htail.
  set (d0 := half_duration half_us jitter_us rand 0) in *.
  assert (Hpos : forall n, 0 < half_duration half_us jitter_us rand n).
  { intros n. unfold half_duration.
    destruct (jitter_us =? 0) eqn:Hj; btrue; [auto|].
    destruct (half_us + rand n <? 1) eqn:E; btrue; lia. }
  assert (Htailpos : Forall (fun p : pulse => 0 < snd p) tail).
  { rewrite Htail.
    apply (jittered_durations half_us jitter_us rand (fun d => 0 < d)), Hpos. }
  assert (Hlen : length tail = 67%nat).
  { rewrite <- (length_map fst), Htail, jittered_levels. cbn [length].
    rewrite halves_of_length, length_app, frame_bits_length. reflexivity. }
  cbn [jittered] in Htail.
  exists ((LOW, idle_us) :: (HIGH, d0) :: tail),
         ((LOW, idle_us) :: runs_acc (HIGH, d0) tail),
         (runs_acc (HIGH, d0) tail).
  split; [rewrite Hemit, Htail; reflexivity|].
  split.
  { rewrite collapse_runs_eq; [reflexivity|cbn [snd]; lia|].
    constructor; [apply Hpos|exact Htailpos]. }
  split; [reflexivity|].
  split.
  { change ((LOW, idle_us) :: runs_acc (HIGH, d0) tail)
      with (runs_acc (LOW, idle_us) ((HIGH, d0) :: tail)).
    apply runs_acc_alternating. }
  cbn [length]. pose proof (runs_acc_length tail (HIGH, d0)). lia.
Qed.

(** * The decoder on arbitrary streams *)

(** ** What a successful decode returns *)

Lemma decode_halves_decoded (half_levels : list bool) (frame : Z) (bits : list Z) :
  decode_halves half_levels = Decoded frame bits ->
  length (end_fix half_levels) = 68%nat
  /\ manchester_bits (end_fix half_levels) = inr bits
  /\ nth 0 bits 0 = 1
  /\ nth 33 bits 0 = 1
  /\ frame = build_frame bits
  /\ Nat.even (popcount frame) = true.
Proof.
  unfold decode_halves.
  destruct (length (end_fix half_levels) =? 68)%nat eqn:Hlen;
    cbn [negb]; [|discriminate].
  destruct (manchester_bits (end_fix half_levels)) as [e|bits'] eqn:Hm;
    [discriminate|].
  unfold validate.
  destruct (nth 0 bits' 0 =? 1) eqn:H0; cbn [negb]; [|discriminate].
  destruct (nth 33 bits' 0 =? 1) eqn:H33; cbn [negb]; [|discriminate].
  destruct (Nat.even (popcount (build_frame bits'))) eqn:Hpar; cbn [negb];
    [|discriminate].
  intros [= <- <-]. btrue. repeat split; auto.
Qed.

(** A decoded frame is well formed, whatever the half-bits it comes from. *)
Lemma decode_halves_valid (half_levels : list bool) (frame : Z)
      (bits : list Z) :
  decode_halves half_levels = Decoded frame bits ->
  0 <= frame < 2 ^ 32
  /\ Nat.even (popcount frame) = true
  /\ bits = structural_bits frame.
Proof.
  intros H. apply decode_halves_decoded in H
    as (Hlen & Hm & H0 & H33 & Hframe & Hpar).
  destruct (manchester_bits_ok _ _ Hm) as (Hbl & Hbits).
  assert (H01 : forall b, (b < 34)%nat -> nth b bits 0 = 0 \/ nth b bits 0 = 1).
  { intros b Hb. destruct (Hbits b Hb) as (_ & ->). apply pair_bit_cases. }
  destruct (build_frame_spec bits ltac:(intros; apply H01; lia))
    as (Hrange & Htest).
  rewrite <- Hframe in Hrange, Htest.
  split; [exact Hrange|]. split; [exact Hpar|].
  apply (nth_ext _ _ 0 0).
  - now rewrite structural_bits_length.
  - intros b Hb. rewrite Hbl in Hb.
    destruct (Nat.eq_dec b 0) as [->|Hb0]; [rewrite H0; reflexivity|].
    destruct (Nat.eq_dec b 33) as [->|Hb33].
    + rewrite H33. unfold structural_bits. cbn [nth].
      rewrite app_nth2 by (rewrite frame_bits_length; lia).
      now rewrite frame_bits_length.
    + rewrite structural_bits_nth by lia. rewrite Htest by lia.
      destruct (H01 b Hb) as [-> | ->]; reflexivity.
Qed.

(** What [decode_opentherm] returns is what [decode_halves] returns. *)
Lemma decode_opentherm_decoded (interrupts : list pulse) (frame : Z)
      (bits : list Z) :
  decode_opentherm interrupts = Some (Decoded frame bits) ->
  exists half_levels,
    preprocess interrupts = Some (inr half_levels)
    /\ decode_halves half_levels = Decoded frame bits.
Proof.
  unfold decode_opentherm.
  destruct (preprocess interrupts) as [[e|hl]|]; try discriminate.
  intros H. exists hl. split; [reflexivity|congruence].
Qed.

(** X9.  Whatever the input, a frame that [decode_opentherm] returns is a
    32-bit value of even parity, and the bits returned with it are exactly
    the start bit 1, the 32 bits of the frame most significant first, and
    the stop bit 1. *)
Theorem decoded_frame_valid (interrupts : list pulse) (frame : Z)
        (bits : list Z) :
  decode_opentherm interrupts = Some (Decoded frame bits) ->
  0 <= frame < 2 ^ 32
  /\ Nat.even (popcount frame) = true
  /\ bits = structural_bits frame.
Proof.
  intros H.
  destruct (decode_opentherm_decoded _ _ _ H) as (half_levels & _ & Hd).
  exact (decode_halves_valid _ _ _ Hd).
Qed.

(** ** How many pulses a frame needs *)

Lemma push_capped_grows (half_levels : list bool) (level : bool) :
  (length (push_capped half_levels level) <= S (length half_levels))%nat.
Proof.
  unfold push_capped. destruct (_ <? _)%nat; [rewrite length_app; simpl|]; lia.
Qed.

Lemma push_halves_grows (halves : nat) :
  forall half_levels level,
    (length (push_halves halves half_levels level)
     <= length half_levels + halves)%nat.
Proof.
  induction halves as [|n IH]; intros hl level; cbn [push_halves]; [lia|].
  specialize (IH (push_capped hl level) level).
  pose proof (push_capped_grows hl level). lia.
Qed.

Lemma push_flipped_grows (half_levels : list bool) (g : bool) (fd : Z) :
  (length (push_flipped half_levels g fd) <= length half_levels + 2)%nat.
Proof.
  unfold push_flipped.
  destruct (_ && _); [rewrite length_app; simpl; lia|].
  destruct (_ && _); [|lia].
  pose proof (push_capped_grows (half_levels ++ [g]) g) as H.
  rewrite length_app in H. simpl in H. lia.
Qed.

(** An iteration emits at most two half-bits per pulse it consumes, and
    leaves the cursor within the stream. *)
Lemma loop_body_budget (interrupts : list pulse) i half_levels k i' half_levels' :
  in_range interrupts i = true ->
  loop_body interrupts i half_levels = Next k i' half_levels' ->
  (length half_levels' + 2 * i <= length half_levels + 2 * i')%nat
  /\ (i' <= length interrupts)%nat.
Proof.
  intros Hin Hb. apply in_range_true in Hin. unfold loop_body in Hb.
  destruct (dur_of interrupts i <? GLITCH_MAX_US).
  - destruct (glitch_step _ _ _ _) as [k0 hl0] eqn:Hg.
    apply glitch_step_length in Hg. injection Hb as <- <- <-. lia.
  - destruct (merge_run _ _ _ _ _) as [j d] eqn:Hm.
    pose proof (merge_run_exit _ _ _ _ _ _ _ eq_refl Hm) as (Hle & Hall & _).
    assert (Hj : (j < length interrupts)%nat).
    { destruct (Nat.eq_dec i j) as [<-|Hne]; [assumption|].
      apply in_range_true. apply (Hall j). lia. }
    destruct (flip_check interrupts j (lvl interrupts i)) eqn:Hc.
    + destruct (classify d) as [halves|] eqn:Hcl; [|discriminate].
      injection Hb as <- <- <-.
      pose proof (flip_check_after_merge _ _ _ _ _ _ Hm Hc) as Hp.
      apply flip_pattern_inv in Hp as (_ & _ & _ & _ & H3 & _).
      pose proof (push_flipped_grows
                    (push_halves halves half_levels (lvl interrupts i))
                    (lvl interrupts (j + 2))
                    (dur_of interrupts (j + 1) + dur_of interrupts (j + 2))).
      pose proof (push_halves_grows halves half_levels (lvl interrupts i)).
      destruct (classify_cases _ _ Hcl); lia.
    + destruct (classify d) as [halves|] eqn:Hcl; [|discriminate].
      injection Hb as <- <- <-.
      pose proof (push_halves_grows halves half_levels (lvl interrupts i)).
      destruct (classify_cases _ _ Hcl); lia.
Qed.

Lemma reachable_budget (interrupts : list pulse) i half_levels :
  reachable interrupts i half_levels ->
  (length half_levels + 1 <= 2 * i)%nat
  /\ (i <= Nat.max 1 (length interrupts))%nat.
Proof.
  induction 1 as [|i hl k i' hl' _ (IH1 & IH2) Hc Hb].
  - pose proof (start_fix_length interrupts). lia.
  - unfold loop_cond in Hc. btrue.
    destruct (loop_body_budget _ _ _ _ _ _ ltac:(eassumption) Hb). lia.
Qed.

(** X10.  A stream of fewer than 34 pulses never decodes to a frame: the
    decoder emits at most two half-bits per pulse after the idle pulse (plus
    the implicit start half), and needs 67 of them. *)
Theorem short_stream_never_decodes (interrupts : list pulse) :
  (length interrupts < 34)%nat ->
  decode_opentherm interrupts = Some (Failed HalfCountMismatch)
  \/ decode_opentherm interrupts = Some (Failed InvalidDuration).
Proof.
  intros Hshort. unfold decode_opentherm.
  destruct (preprocess_total interrupts) as ([e|hl] & Hpre); rewrite Hpre.
  - right.
    assert (Hgen : forall fuel i hl0,
               main_loop fuel interrupts i hl0 = Some (inl e) ->
               e = InvalidDuration).
    { induction fuel as [|fuel IH]; intros i hl0; cbn [main_loop];
        destruct (loop_cond interrupts i hl0); try discriminate.
      destruct (loop_body interrupts i hl0) as [k i' hl'|e'] eqn:Hb.
      - apply IH.
      - intros [= <-]. unfold loop_body in Hb.
        destruct (dur_of interrupts i <? GLITCH_MAX_US).
        + destruct (glitch_step _ _ _ _); discriminate.
        + destruct (merge_run _ _ _ _ _) as [j d].
          destruct (flip_check _ _ _), (classify d); congruence. }
    now rewrite (Hgen _ _ _ Hpre).
  - left. apply preprocess_exit in Hpre as (i & Hreach & _).
    apply reachable_budget in Hreach as (Hlen & Hi).
    unfold decode_halves.
    replace (length (end_fix hl) =? 68)%nat with false; [reflexivity|].
    symmetry. apply Nat.eqb_neq. unfold end_fix.
    destruct (_ && _); rewrite ?length_app; simpl; lia.
Qed.

(** ** The idle pulse *)

Section IdleDuration.

Variables (level : bool) (d d' : Z) (rest : list pulse).

Let stream : list pulse := (level, d) :: rest.
Let stream' : list pulse := (level, d') :: rest.

Lemma idle_in_range (j : nat) : in_range stream j = in_range stream' j.
Proof. reflexivity. Qed.

Lemma idle_lvl (j : nat) : lvl stream j = lvl stream' j.
Proof. destruct j; reflexivity. Qed.

Lemma idle_dur (j : nat) : (1 <= j)%nat -> dur_of stream j = dur_of stream' j.
Proof. destruct j; [lia|reflexivity]. Qed.

Lemma idle_skipn (j : nat) : skipn (j + 1) stream = skipn (j + 1) stream'.
Proof. replace (j + 1)%nat with (S j) by lia. reflexivity. Qed.

Lemma idle_flip_pattern (i : nat) (l : bool) (dur : Z) :
  flip_pattern stream i l dur = flip_pattern stream' i l dur.
Proof.
  unfold flip_pattern.
  now rewrite !idle_in_range, !idle_lvl, !idle_dur by lia.
Qed.

Lemma idle_merge_run (l : bool) :
  forall pulses i dur,
    merge_run stream l pulses i dur = merge_run stream' l pulses i dur.
Proof.
  induction pulses as [|[nl nd] pulses IH]; intros i dur; cbn [merge_run];
    [reflexivity|].
  now rewrite idle_flip_pattern, IH.
Qed.

Lemma idle_loop_body (i : nat) (half_levels : list bool) :
  (1 <= i)%nat ->
  loop_body stream i half_levels = loop_body stream' i half_levels.
Proof.
  intros Hi. unfold loop_body.
  rewrite idle_lvl, idle_dur, idle_skipn, idle_merge_run by assumption.
  destruct (dur_of stream' i <? GLITCH_MAX_US).
  - unfold glitch_step, stretched_cond.
    rewrite idle_in_range, idle_lvl, idle_dur by lia.
    destruct (1 <? i)%nat eqn:E; [|reflexivity].
    btrue. now rewrite (idle_dur (i - 1)) by lia.
  - destruct (merge_run stream' _ _ _ _) as [j dur] eqn:Hm.
    assert (i <= j)%nat by (rewrite <- idle_skipn in Hm;
                            rewrite <- idle_merge_run in Hm;
                            rewrite <- idle_lvl in Hm;
                            now apply merge_run_le in Hm).
    unfold flip_check.
    now rewrite !idle_in_range, !idle_lvl, !idle_dur by lia.
Qed.

Lemma idle_run :
  forall m i half_levels,
    (length stream' - i <= m)%nat ->
    (1 <= i)%nat ->
    run stream i half_levels = run stream' i half_levels.
Proof.
  induction m as [|m IH]; intros i hl Hm Hi;
    rewrite (run_unfold stream), (run_unfold stream');
    unfold loop_cond; rewrite idle_in_range.
  - replace (in_range stream' i) with false; [reflexivity|].
    symmetry. apply in_range_false. lia.
  - destruct (in_range stream' i && (length hl <? 68)%nat); [|reflexivity].
    rewrite idle_loop_body by assumption.
    destruct (loop_body stream' i hl) as [k i' hl'|e] eqn:Hb; [|reflexivity].
    apply loop_body_progress in Hb. apply IH; lia.
Qed.

(** X11.  The duration of the idle pulse (index 0) is never read: two
    streams that differ only in it decode to the same result. *)
Theorem idle_duration_irrelevant :
  decode_opentherm stream = decode_opentherm stream'.
Proof.
  unfold decode_opentherm. rewrite !preprocess_run.
  replace (start_fix stream) with (start_fix stream') by reflexivity.
  now rewrite (idle_run (length stream') 1) by lia.
Qed.

End IdleDuration.

(** ** The implicit start half *)

Lemma push_capped_keeps_head (x : bool) (l : list bool) (level : bool) :
  exists l', push_capped (x :: l) level = x :: l'.
Proof. unfold push_capped. destruct (_ <? _)%nat; cbn [app]; eauto. Qed.

Lemma push_halves_keeps_head (halves : nat) :
  forall (x : bool) (l : list bool) (level : bool),
    exists l', push_halves halves (x :: l) level = x :: l'.
Proof.
  induction halves as [|n IH]; intros x l level; cbn [push_halves]; [eauto|].
  destruct (push_capped_keeps_head x l level) as (l1 & ->). apply IH.
Qed.

(** An iteration never changes the first half-bit of a non-empty buffer. *)
Lemma loop_body_keeps_head (interrupts : list pulse) i (x : bool)
      (l : list bool) k i' half_levels' :
  loop_body interrupts i (x :: l) = Next k i' half_levels' ->
  exists l', half_levels' = x :: l'.
Proof.
  unfold loop_body.
  destruct (dur_of interrupts i <? GLITCH_MAX_US).
  - unfold glitch_step.
    destruct (_ && _); [|intros [= _ _ <-]; eauto].
    destruct (restore_cond _ _ _ _); [|intros [= _ _ <-]; eauto].
    destruct (stretched_cond interrupts i (x :: l) _) eqn:Hs;
      intros [= _ _ <-]; cbn [app]; [|eauto].
    unfold stretched_cond in Hs. destruct (1 <? i)%nat; [|discriminate].
    btrue. destruct l as [|y l]; [simpl in *; lia|].
    simpl. eauto.
  - destruct (merge_run _ _ _ _ _) as [j d].
    destruct (flip_check _ _ _); destruct (classify d) as [halves|];
      try discriminate; intros [= _ _ <-].
    + destruct (push_halves_keeps_head halves x l (lvl interrupts i))
        as (l1 & ->).
      unfold push_flipped.
      destruct (_ && _); cbn [app]; [eauto|].
      destruct (_ && _); [|eauto].
      apply push_capped_keeps_head.
    + apply push_halves_keeps_head.
Qed.

(** X12.  Idle merge: when the idle pulse is HIGH and the first pulse after
    it is LOW, every half-bit buffer of the run, and the buffer at the exit
    of the loop, starts with the implicit HIGH half; no repair ever removes
    it. *)
Theorem implicit_start_half_stays (interrupts : list pulse) :
  (1 < length interrupts)%nat ->
  lvl interrupts 0 = HIGH ->
  lvl interrupts 1 = LOW ->
  (forall i half_levels,
      reachable interrupts i half_levels ->
      exists l, half_levels = HIGH :: l)
  /\ (forall half_levels,
         preprocess interrupts = Some (inr half_levels) ->
         exists l, half_levels = HIGH :: l).
Proof.
  intros Hlen H0 H1.
  assert (Hreach : forall i half_levels,
             reachable interrupts i half_levels ->
             exists l, half_levels = HIGH :: l).
  { induction 1 as [|i hl k i' hl' _ (l & ->) _ Hb].
    - unfold start_fix. rewrite H0, H1.
      replace (1 <? length interrupts)%nat with true
        by (symmetry; now apply Nat.ltb_lt).
      cbn. eauto.
    - eapply loop_body_keeps_head; eauto. }
  split; [exact Hreach|].
  intros hl Hpre. apply preprocess_exit in Hpre as (i & Hr & _). eauto.
Qed.

(** ** A frame after a HIGH idle level *)

(** X13.  When the line idles HIGH, the first HIGH half of the start bit
    merges into the idle pulse ([collapse_runs] joins them); the decoder
    prepends the implicit half and still returns exactly the frame, for
    every 32-bit frame of even parity. *)
Theorem round_trip_high_idle (frame idle_us : Z) :
  0 <= frame < 2 ^ 32 ->
  Nat.even (popcount frame) = true ->
  0 < idle_us ->
  exists rest,
    collapse_runs ((HIGH, idle_us) :: timed 500 (halves_of (structural_bits frame)))
    = Some ((HIGH, idle_us + 500) :: rest)
    /\ lvl ((HIGH, idle_us + 500) :: rest) 1 = LOW
    /\ decode_opentherm ((HIGH, idle_us + 500) :: rest)
       = Some (Decoded frame (structural_bits frame)).
Proof.
  intros Hf Hpar Hidle.
  remember (frame_bits frame ++ [1]) as tailbits eqn:Hrest.
  pose proof (manchester_runs_clean tailbits LOW) as Hruns. cbv zeta in Hruns.
  remember (runs_acc (LOW, 500) (timed 500 (halves_of tailbits))) as runs eqn:Hr.
  destruct Hruns as (Hclean & Hexp).
  exists runs.
  assert (Hhead : exists d runs', runs = (LOW, d) :: runs').
  { rewrite Hr. apply (runs_acc_head (LOW, 500)). }
  destruct Hhead as (d & runs' & Hruns).
  split.
  { unfold structural_bits. rewrite <- Hrest, halves_of_start.
    rewrite collapse_runs_eq.
    - unfold timed. cbn [map runs_acc fst snd Bool.eqb HIGH LOW].
      fold (timed 500 (halves_of tailbits)). now rewrite <- Hr.
    - cbn [snd]. lia.
    - apply timed_positive. lia. }
  split; [rewrite Hruns; reflexivity|].
  assert (Hlen : length (halves_of (1 :: tailbits)) = 68%nat).
  { rewrite Hrest. fold (structural_bits frame).
    now rewrite halves_of_length, structural_bits_length. }
  assert (Hlen' : length (expand runs) = 67%nat).
  { rewrite Hexp. rewrite halves_of_start in Hlen. cbn [length] in *. lia. }
  assert (Hpre : preprocess ((HIGH, idle_us + 500) :: runs)
                 = Some (inr (halves_of (1 :: tailbits)))).
  { unfold preprocess.
    replace (start_fix ((HIGH, idle_us + 500) :: runs)) with [HIGH]
      by (rewrite Hruns; reflexivity).
    change ((HIGH, idle_us + 500) :: runs)
      with ([(HIGH, idle_us + 500)] ++ runs).
    rewrite (main_loop_clean runs [(HIGH, idle_us + 500)] [HIGH] _ HIGH).
    - now rewrite Hexp, halves_of_start.
    - exact Hclean.
    - rewrite Hlen'. apply Nat.le_refl.
    - rewrite length_app. cbn [length]. lia. }
  rewrite (decode_opentherm_halves _ _ Hpre).
  rewrite Hrest. fold (structural_bits frame).
  now rewrite decode_halves_structural_bits.
Qed.

(** ** Bounds of the main loop *)

(** X14.  The half-bit buffer never holds more than 69 entries, in any state
    of the loop and at its exit; an iteration that does not apply the flip
    leaves at most 68. *)
Theorem half_buffer_bound (interrupts : list pulse) :
  (forall i half_levels,
      reachable interrupts i half_levels -> (length half_levels <= 69)%nat)
  /\ (forall half_levels,
         preprocess interrupts = Some (inr half_levels) ->
         (length half_levels <= 69)%nat)
  /\ (forall i half_levels k i' half_levels',
         loop_cond interrupts i half_levels = true ->
         loop_body interrupts i half_levels = Next k i' half_levels' ->
         k <> KFlip -> (length half_levels' <= 68)%nat).
Proof.
  split; [apply half_count_bound|]. split.
  - intros hl Hpre. apply preprocess_exit in Hpre as (i & Hr & _).
    eapply half_count_bound; eauto.
  - intros i hl k i' hl' Hc Hb Hk.
    now apply (loop_body_length _ _ _ _ _ _ Hc Hb).
Qed.

(** X15.  Every iteration of the main loop moves the cursor forward, and
    never past the end of the stream; the loop therefore ends within
    [len(interrupts) - 1] iterations and [decode_opentherm] always returns a
    frame or a failure. *)
Theorem main_loop_terminates (interrupts : list pulse) :
  (forall i half_levels k i' half_levels',
      in_range interrupts i = true ->
      loop_body interrupts i half_levels = Next k i' half_levels' ->
      (i < i' <= length interrupts)%nat)
  /\ (forall fuel,
         (length interrupts - 1 <= fuel)%nat ->
         main_loop fuel interrupts 1 (start_fix interrupts)
         = preprocess interrupts)
  /\ exists r, decode_opentherm interrupts = Some r.
Proof.
  split; [|split].
  - intros i hl k i' hl' Hin Hb. split.
    + eapply loop_body_progress; eauto.
    + eapply loop_body_budget; eauto.
  - intros fuel Hfuel. unfold preprocess.
    destruct (main_loop_enough interrupts fuel 1 (start_fix interrupts) Hfuel)
      as (r & -> & Hall).
    symmetry. apply Hall. lia.
  - apply decode_opentherm_total.
Qed.

(** * The frame humanizer *)

(** ** Parsing binary digits *)

Lemma digit_value_bit_char (b : Z) :
  is_bit b -> digit_value (bit_char b) = Some b.
Proof. intros [-> | ->]; reflexivity. Qed.

Lemma digit_value_binary (c : ascii) :
  binary_digit c -> exists d, digit_value c = Some d /\ 0 <= d <= 1.
Proof.
  intros [-> | ->]; [exists 0|exists 1]; (split; [reflexivity|lia]).
Qed.

Lemma int_digits_app (s t : list ascii) :
  forall acc,
    int_digits acc (s ++ t)
    = match int_digits acc s with
      | Some v => int_digits v t
      | None => None
      end.
Proof.
  induction s as [|c s IH]; intros acc; cbn [app int_digits]; [reflexivity|].
  destruct (digit_value c); [apply IH|reflexivity].
Qed.

Lemma int_digits_zeros (k : nat) : int_digits 0 (repeat "0"%char k) = Some 0.
Proof. induction k as [|k IH]; [reflexivity|exact IH]. Qed.

Lemma int_digits_pos (p : positive) :
  int_digits 0 (pos_digits p) = Some (Zpos p).
Proof.
  induction p as [p IH|p IH|]; cbn [pos_digits]; [| |reflexivity];
    rewrite int_digits_app, IH; reflexivity.
Qed.

(** A string of binary digits parses to a number below [2 ^ length]. *)
Lemma int_digits_binary (s : list ascii) :
  Forall binary_digit s ->
  forall acc,
  exists v,
    int_digits acc s = Some v
    /\ acc * 2 ^ Z.of_nat (length s) <= v
       < (acc + 1) * 2 ^ Z.of_nat (length s).
Proof.
  induction 1 as [|c s Hc Hs IH]; intros acc.
  - exists acc. split; [reflexivity|]. cbn [length]. change (2 ^ Z.of_nat 0) with 1.
    lia.
  - destruct (digit_value_binary c Hc) as (d & Hd & Hd01).
    destruct (IH (2 * acc + d)) as (v & Hv & Hb).
    exists v. cbn [int_digits]. rewrite Hd. split; [exact Hv|].
    cbn [length]. rewrite Nat2Z.inj_succ, Z.pow_succ_r by lia.
    set (X := 2 ^ Z.of_nat (length s)) in *.
    assert (0 < X) by (apply Z.pow_pos_nonneg; lia).
    nia.
Qed.

Lemma int_base2_binary (s : list ascii) :
  Forall binary_digit s ->
  s <> [] ->
  exists v,
    int_base2 s = Some v /\ 0 <= v < 2 ^ Z.of_nat (length s).
Proof.
  intros Hs Hne. destruct (int_digits_binary s Hs 0) as (v & Hv & Hb).
  exists v. split; [|lia].
  destruct s; [congruence|exact Hv].
Qed.

(** Two strings of binary digits of the same length and the same value are
    the same string. *)
Lemma int_digits_inj (s : list ascii) :
  Forall binary_digit s ->
  forall t acc v,
    Forall binary_digit t ->
    length s = length t ->
    int_digits acc s = Some v ->
    int_digits acc t = Some v ->
    s = t.
Proof.
  induction 1 as [|c s Hc Hs IH]; intros t acc v Ht Hlen Hsv Htv.
  - destruct t; [reflexivity|discriminate].
  - destruct t as [|c' t]; [discriminate|].
    inversion Ht as [|? ? Hc' Ht']; subst.
    cbn [length] in Hlen. injection Hlen as Hlen.
    cbn [int_digits] in Hsv, Htv.
    destruct (digit_value_binary c Hc) as (d & Hd & Hd01).
    destruct (digit_value_binary c' Hc') as (d' & Hd' & Hd01').
    rewrite Hd in Hsv. rewrite Hd' in Htv.
    destruct (int_digits_binary s Hs (2 * acc + d)) as (v1 & Hv1 & Hb1).
    destruct (int_digits_binary t Ht' (2 * acc + d')) as (v2 & Hv2 & Hb2).
    assert (v1 = v) by congruence. assert (v2 = v) by congruence. subst v1 v2.
    rewrite <- Hlen in Hb2.
    set (X := 2 ^ Z.of_nat (length s)) in *.
    assert (0 < X) by (apply Z.pow_pos_nonneg; lia).
    assert (d = d') by nia. subst d'.
    assert (c = c').
    { destruct Hc as [-> | ->], Hc' as [-> | ->];
        try reflexivity; cbn in Hd, Hd'; congruence. }
    subst c'. f_equal. exact (IH t _ v Ht' Hlen Hsv Htv).
Qed.

(** ** [format_032b] *)

Lemma pos_digits_binary (p : positive) : Forall binary_digit (pos_digits p).
Proof.
  induction p as [p IH|p IH|]; cbn [pos_digits].
  - apply Forall_app. split; [exact IH|].
    constructor; [right; reflexivity|constructor].
  - apply Forall_app. split; [exact IH|].
    constructor; [left; reflexivity|constructor].
  - constructor; [right; reflexivity|constructor].
Qed.

Lemma pos_digits_bounds (p : positive) :
  2 ^ Z.of_nat (length (pos_digits p)) <= 2 * Zpos p
  < 2 * 2 ^ Z.of_nat (length (pos_digits p)).
Proof.
  induction p as [p IH|p IH|]; cbn [pos_digits].
  - rewrite length_app. cbn [length]. rewrite Nat.add_1_r.
    rewrite Nat2Z.inj_succ, Z.pow_succ_r by lia.
    rewrite (Pos2Z.inj_xI p). lia.
  - rewrite length_app. cbn [length]. rewrite Nat.add_1_r.
    rewrite Nat2Z.inj_succ, Z.pow_succ_r by lia.
    rewrite (Pos2Z.inj_xO p). lia.
  - cbn. lia.
Qed.

Lemma pos_digits_ones (p : positive) :
  count_occ ascii_dec (pos_digits p) "1"%char = ones p.
Proof.
  induction p as [p IH|p IH|]; cbn [pos_digits ones].
  - rewrite count_occ_app, IH, count_occ_cons_eq by reflexivity.
    cbn [count_occ]. lia.
  - rewrite count_occ_app, IH, count_occ_cons_neq by discriminate.
    cbn [count_occ]. lia.
  - now rewrite count_occ_cons_eq by reflexivity.
Qed.

Lemma magnitude_digits_binary (n : Z) : Forall binary_digit (magnitude_digits n).
Proof.
  destruct n as [|p|p]; cbn [magnitude_digits];
    try apply pos_digits_binary.
  constructor; [left; reflexivity|constructor].
Qed.

Lemma magnitude_digits_ones (n : Z) :
  count_occ ascii_dec (magnitude_digits n) "1"%char = popcount n.
Proof.
  destruct n as [|p|p]; cbn [magnitude_digits popcount];
    try apply pos_digits_ones.
  now rewrite count_occ_cons_neq by discriminate.
Qed.

Lemma magnitude_digits_int (n : Z) :
  0 <= n -> int_digits 0 (magnitude_digits n) = Some n.
Proof.
  destruct n as [|p|p]; intros Hn; cbn [magnitude_digits];
    [reflexivity|apply int_digits_pos|lia].
Qed.

Lemma magnitude_digits_length (n : Z) :
  0 <= n ->
  (1 <= length (magnitude_digits n))%nat
  /\ ((length (magnitude_digits n) <= 32)%nat <-> n < 2 ^ 32).
Proof.
  destruct n as [|p|p]; intros Hn; cbn [magnitude_digits]; [| |lia].
  - cbn [length]. split; [lia|]. split; [reflexivity|lia].
  - pose proof (pos_digits_bounds p) as Hb.
    set (L := length (pos_digits p)) in *.
    assert (HL : (1 <= L)%nat).
    { destruct L; [|lia]. change (2 ^ Z.of_nat 0) with 1 in Hb. lia. }
    split; [exact HL|]. split.
    + intros Hle.
      assert (2 ^ Z.of_nat L <= 2 ^ 32) by (apply Z.pow_le_mono_r; lia).
      lia.
    + intros Hlt. destruct (le_lt_dec L 32) as [Hle|Hgt]; [exact Hle|].
      assert (2 ^ 33 <= 2 ^ Z.of_nat L) by (apply Z.pow_le_mono_r; lia).
      change (2 ^ 33) with (2 * 2 ^ 32) in *. lia.
Qed.

Lemma format_032b_nonneg (n : Z) :
  0 <= n ->
  format_032b n
  = repeat "0"%char (32 - length (magnitude_digits n)) ++ magnitude_digits n.
Proof.
  intros Hn. unfold format_032b.
  replace (n <? 0) with false by (symmetry; apply Z.ltb_ge; lia).
  cbn [app length]. now rewrite Nat.sub_0_r.
Qed.

Lemma repeat_zero_binary (k : nat) : Forall binary_digit (repeat "0"%char k).
Proof.
  induction k as [|k IH]; cbn [repeat]; constructor;
    [left; reflexivity|exact IH].
Qed.

Lemma int_base2_nonempty (s : list ascii) :
  s <> [] -> int_base2 s = int_digits 0 s.
Proof. destruct s; [congruence|reflexivity]. Qed.

Lemma format_032b_binary (n : Z) :
  0 <= n -> Forall binary_digit (format_032b n).
Proof.
  intros Hn. rewrite format_032b_nonneg by exact Hn.
  apply Forall_app. split;
    [apply repeat_zero_binary|apply magnitude_digits_binary].
Qed.

Lemma format_032b_length (n : Z) :
  0 <= n -> ((length (format_032b n) = 32)%nat <-> n < 2 ^ 32).
Proof.
  intros Hn. rewrite format_032b_nonneg by exact Hn.
  rewrite length_app, repeat_length.
  destruct (magnitude_digits_length n Hn) as (H1 & H32).
  rewrite <- H32. lia.
Qed.

Lemma format_032b_int (n : Z) :
  0 <= n -> int_base2 (format_032b n) = Some n.
Proof.
  intros Hn.
  destruct (magnitude_digits_length n Hn) as (H1 & _).
  rewrite int_base2_nonempty.
  - rewrite format_032b_nonneg by exact Hn.
    rewrite int_digits_app, int_digits_zeros.
    now apply magnitude_digits_int.
  - intros E. apply (f_equal (@length ascii)) in E.
    rewrite format_032b_nonneg in E by exact Hn.
    rewrite length_app in E. cbn [length] in E. lia.
Qed.

(** X16.  [f"{n:032b}"] and [int(b, 2)] are inverse on the numbers that are
    not negative: the text consists of binary digits, reads back as [n], and
    has exactly 32 characters when, and only when, [n] fits 32 bits. *)
Theorem format_032b_round_trip (n : Z) :
  0 <= n ->
  Forall binary_digit (format_032b n)
  /\ int_base2 (format_032b n) = Some n
  /\ ((length (format_032b n) = 32)%nat <-> n < 2 ^ 32).
Proof.
  intros Hn. split; [now apply format_032b_binary|].
  split; [now apply format_032b_int|now apply format_032b_length].
Qed.

(** ** Parity *)

Lemma even_mod2 (n : nat) : (n mod 2 =? 0)%nat = Nat.even n.
Proof.
  pose proof (Nat.div_mod_eq n 2) as E.
  pose proof (Nat.mod_upper_bound n 2 ltac:(lia)) as Hb.
  destruct (n mod 2)%nat as [|[|k]] eqn:M; [| |lia];
    rewrite E, ?M, Nat.add_comm, Nat.even_add_mul_2; reflexivity.
Qed.

Lemma format_032b_ones (n : Z) :
  count_occ ascii_dec (format_032b n) "1"%char = popcount n.
Proof.
  unfold format_032b. rewrite !count_occ_app.
  rewrite count_occ_repeat_neq by discriminate.
  rewrite magnitude_digits_ones.
  destruct (n <? 0).
  - rewrite count_occ_cons_neq by discriminate. reflexivity.
  - reflexivity.
Qed.

(** X17.  The parity verdict of the humanizer on the text of a frame is the
    parity test of the decoder on the frame, for every integer: [parity_ok]
    of [f"{n:032b}"] holds exactly when [bin(n).count('1')] is even. *)
Theorem parity_ok_format (n : Z) :
  parity_ok (format_032b n) = Nat.even (popcount n).
Proof.
  unfold parity_ok. now rewrite even_mod2, format_032b_ones.
Qed.

(** ** The fields of a frame *)

Lemma field_bits_length (frame : Z) (lo k : nat) :
  length (field_bits frame lo k) = k.
Proof.
  unfold field_bits. now rewrite !length_map, length_rev, length_seq.
Qed.

Lemma field_bits_succ (frame : Z) (lo k : nat) :
  field_bits frame lo (S k)
  = Z.land (Z.shiftr frame (Z.of_nat (lo + k))) 1 :: field_bits frame lo k.
Proof.
  unfold field_bits. rewrite seq_S, rev_unit. reflexivity.
Qed.

Lemma field_bits_are_bits (frame : Z) (lo k : nat) :
  Forall is_bit (field_bits frame lo k).
Proof.
  unfold field_bits. apply Forall_forall. intros b Hb.
  apply in_map_iff in Hb as (i & <- & _).
  rewrite land_one_bit. unfold is_bit.
  destruct (Z.testbit _ _); simpl; auto.
Qed.

Lemma bit_char_binary (bits : list Z) :
  Forall binary_digit (map bit_char bits).
Proof.
  induction bits as [|b bits IH]; cbn [map]; constructor; [|exact IH].
  unfold bit_char, binary_digit. destruct (b =? 1); auto.
Qed.

(** The digits of a field read back as the field. *)
Lemma int_digits_field (frame : Z) (lo k : nat) :
  forall acc,
    int_digits acc (map bit_char (field_bits frame lo k))
    = Some (acc * 2 ^ Z.of_nat k
            + Z.land (Z.shiftr frame (Z.of_nat lo)) (Z.ones (Z.of_nat k))).
Proof.
  induction k as [|k IH]; intros acc.
  - cbn [field_bits]. unfold field_bits. cbn [seq rev map int_digits].
    change (Z.ones (Z.of_nat 0)) with 0. rewrite Z.land_0_r.
    change (2 ^ Z.of_nat 0) with 1. f_equal. lia.
  - rewrite field_bits_succ. cbn [map int_digits].
    rewrite digit_value_bit_char.
    2:{ rewrite land_one_bit. unfold is_bit.
        destruct (Z.testbit _ _); simpl; auto. }
    rewrite IH. f_equal.
    rewrite !Z.land_ones by lia.
    change 1 with (Z.ones 1). rewrite Z.land_ones by lia.
    rewrite !Z.shiftr_div_pow2 by lia.
    rewrite Nat2Z.inj_succ, Z.pow_succ_r by lia.
    rewrite Nat2Z.inj_add, Z.pow_add_r by lia.
    set (X := 2 ^ Z.of_nat k). set (Y := 2 ^ Z.of_nat lo).
    assert (HX : 0 < X) by (apply Z.pow_pos_nonneg; lia).
    assert (HY : 0 < Y) by (apply Z.pow_pos_nonneg; lia).
    rewrite <- Z.div_div by lia.
    replace (2 * X) with (X * 2) by lia.
    rewrite Z.rem_mul_r by lia.
    change (2 ^ 1) with 2. lia.
Qed.

Lemma int_base2_field (frame : Z) (lo k : nat) :
  (0 < k)%nat ->
  int_base2 (map bit_char (field_bits frame lo k))
  = Some (Z.land (Z.shiftr frame (Z.of_nat lo)) (Z.ones (Z.of_nat k))).
Proof.
  intros Hk. rewrite int_base2_nonempty.
  - rewrite int_digits_field. f_equal.
  - intros E. apply (f_equal (@length ascii)) in E.
    rewrite length_map, field_bits_length in E. cbn [length] in E. lia.
Qed.

Lemma frame_bits_field (frame : Z) : frame_bits frame = field_bits frame 0 32.
Proof. reflexivity. Qed.

(** The text of a 32-bit frame is the text of its bits. *)
Lemma format_032b_bits (frame : Z) :
  0 <= frame < 2 ^ 32 ->
  format_032b frame = map bit_char (frame_bits frame).
Proof.
  intros Hf.
  apply (int_digits_inj _ (format_032b_binary frame ltac:(lia))
                        _ 0 frame (bit_char_binary _)).
  - rewrite length_map, frame_bits_length.
    apply format_032b_length; lia.
  - rewrite <- int_base2_nonempty; [apply format_032b_int; lia|].
    intros E. apply (f_equal (@length ascii)) in E.
    rewrite (proj2 (format_032b_length frame ltac:(lia)) ltac:(lia)) in E.
    discriminate.
  - rewrite frame_bits_field, int_digits_field.
    rewrite Z.land_ones by lia. change (Z.of_nat 0) with 0.
    rewrite Z.shiftr_0_r. change (Z.of_nat 32) with 32.
    rewrite Z.mod_small by lia. f_equal.
Qed.

Lemma slice_map {A B : Type} (f : A -> B) (a b : nat) (s : list A) :
  slice a b (map f s) = map f (slice a b s).
Proof. unfold slice. now rewrite skipn_map, firstn_map. Qed.

Lemma slice_field_bits (frame : Z) :
  slice 0 1 (field_bits frame 0 32) = field_bits frame 31 1
  /\ slice 1 4 (field_bits frame 0 32) = field_bits frame 28 3
  /\ slice 4 8 (field_bits frame 0 32) = field_bits frame 24 4
  /\ slice 8 16 (field_bits frame 0 32) = field_bits frame 16 8
  /\ slice 16 32 (field_bits frame 0 32) = field_bits frame 0 16.
Proof.
  unfold field_bits. rewrite !slice_map.
  repeat split; reflexivity.
Qed.

(** The fields that [decode_frame] reads from the text of a 32-bit frame. *)
Lemma decode_frame_format (src : String.string) (frame : Z) :
  0 <= frame < 2 ^ 32 ->
  decode_frame src (format_032b frame)
  = let spare := Z.land (Z.shiftr frame 24) 0xF in
    let par_ok := Nat.even (popcount frame) in
    Some {| is_master_to_slave := String.eqb src "T";
            p_bit := Z.land (Z.shiftr frame 31) 1;
            msg_type := Z.land (Z.shiftr frame 28) 0x7;
            spare := spare;
            data_id := Z.land (Z.shiftr frame 16) 0xFF;
            data_val := Z.land frame 0xFFFF;
            msg_name :=
              dict_get (if String.eqb src "T" then MASTER_MSG_TYPES
                        else SLAVE_MSG_TYPES)
                       (Z.land (Z.shiftr frame 28) 0x7) "UNKNOWN"%string;
            par_ok := par_ok;
            warnings :=
              (if negb (spare =? 0) then [SPARE_NOT_ZERO spare] else [])
                ++ (if negb par_ok then [PARITY_ERROR] else []) |}.
Proof.
  intros Hf. unfold decode_frame.
  replace (parity_ok (format_032b frame)) with (Nat.even (popcount frame))
    by (unfold parity_ok; now rewrite even_mod2, format_032b_ones).
  rewrite (format_032b_bits frame Hf), frame_bits_field.
  destruct (slice_field_bits frame) as (S1 & S2 & S3 & S4 & S5).
  rewrite !slice_map, S1, S2, S3, S4, S5.
  unfold bits_to_u8, bits_to_u16.
  rewrite !int_base2_field by lia.
  change (Z.of_nat 0) with 0. rewrite Z.shiftr_0_r.
  cbv zeta.
  destruct (negb (Z.land (Z.shiftr frame 24) 15 =? 0)) eqn:Hs;
    change (Z.land (Z.shiftr frame (Z.of_nat 24)) (Z.ones (Z.of_nat 4)))
      with (Z.land (Z.shiftr frame 24) 15); rewrite Hs;
    destruct (negb (Nat.even (popcount frame))); reflexivity.
Qed.

(** X18.  The fields that [decode_frame] reads from the text of a 32-bit
    frame are the fields of the frame: parity bit 31, message type bits
    30..28 (the value [format_frame_with_humanize] selects the source from),
    spare bits 27..24, data id bits 23..16 and data value bits 15..0; they
    put together give the frame back. *)
Theorem decode_frame_fields (src : String.string) (frame : Z) :
  0 <= frame < 2 ^ 32 ->
  exists f,
    decode_frame src (format_032b frame) = Some f
    /\ p_bit f = Z.shiftr frame 31
    /\ msg_type f = Z.land (Z.shiftr frame 28) 0x7
    /\ spare f = Z.land (Z.shiftr frame 24) 0xF
    /\ data_id f = Z.land (Z.shiftr frame 16) 0xFF
    /\ data_val f = Z.land frame 0xFFFF
    /\ frame = p_bit f * 2 ^ 31 + msg_type f * 2 ^ 28 + spare f * 2 ^ 24
               + data_id f * 2 ^ 16 + data_val f.
Proof.
  intros Hf. rewrite (decode_frame_format src frame Hf). cbv zeta.
  eexists. split; [reflexivity|]. cbn [p_bit msg_type spare data_id data_val].
  change 1 with (Z.ones 1). change 7 with (Z.ones 3).
  change 15 with (Z.ones 4). change 255 with (Z.ones 8).
  change 65535 with (Z.ones 16).
  rewrite !Z.land_ones, !Z.shiftr_div_pow2 by lia.
  change (2 ^ 1) with 2. change (2 ^ 3) with 8. change (2 ^ 4) with 16.
  change (2 ^ 8) with 256. change (2 ^ 16) with 65536.
  change (2 ^ 24) with 16777216. change (2 ^ 28) with 268435456.
  change (2 ^ 31) with 2147483648. change (2 ^ 32) with 4294967296 in Hf.
  repeat split; try reflexivity; Z.div_mod_to_equations; lia.
Qed.

(** ** The decoder and the humanizer together *)

Lemma str_bits (bits : list Z) :
  Forall is_bit bits -> concat (map str bits) = map bit_char bits.
Proof.
  induction 1 as [|b bits Hb _ IH]; [reflexivity|].
  cbn [map concat]. rewrite IH. destruct Hb as [-> | ->]; reflexivity.
Qed.

Lemma bits_str_structural_bits (frame : Z) :
  bits_str (structural_bits frame) = map bit_char (frame_bits frame).
Proof.
  unfold bits_str, structural_bits, slice. cbn [skipn].
  change (33 - 1)%nat with (length (frame_bits frame) + 0)%nat
    at 1.
  rewrite firstn_app_2. cbn [firstn]. rewrite app_nil_r.
  apply str_bits, frame_bits_are_bits.
Qed.

(** X19.  The digits that [process_input] prints as [Binary:] for a decoded
    stream, [''.join(str(b) for b in bits[1:33])], are the digits
    [f"{frame:032b}"] that [format_frame_with_humanize] hands to the
    humanizer. *)
Theorem bits_str_is_frame_text (interrupts : list pulse) (frame : Z)
        (bits : list Z) :
  decode_opentherm interrupts = Some (Decoded frame bits) ->
  bits_str bits = snd (format_frame_with_humanize frame).
Proof.
  intros H.
  destruct (decode_opentherm_decoded _ _ _ H) as (half_levels & _ & Hd).
  destruct (decode_halves_valid _ _ _ Hd) as (Hf & _ & ->).
  cbn [format_frame_with_humanize snd].
  rewrite bits_str_structural_bits. symmetry. now apply format_032b_bits.
Qed.

(** X20.  The humanizer never reports [PARITY_ERROR] for a frame that
    [decode_opentherm] returned: [decode_frame] on the line of
    [format_frame_with_humanize] finds the parity in order, and its only
    possible warning is the one about the spare bits. *)
Theorem decoded_frame_no_parity_error (interrupts : list pulse) (frame : Z)
        (bits : list Z) :
  decode_opentherm interrupts = Some (Decoded frame bits) ->
  exists f,
    decode_frame (fst (format_frame_with_humanize frame))
                 (snd (format_frame_with_humanize frame)) = Some f
    /\ par_ok f = true
    /\ ~ In PARITY_ERROR (warnings f)
    /\ (warnings f = [] <-> spare f = 0).
Proof.
  intros H.
  destruct (decode_opentherm_decoded _ _ _ H) as (half_levels & _ & Hd).
  destruct (decode_halves_valid _ _ _ Hd) as (Hf & Hpar & _).
  cbn [format_frame_with_humanize fst snd].
  rewrite (decode_frame_format _ frame Hf). cbv zeta.
  eexists. split; [reflexivity|]. cbn [par_ok warnings spare].
  rewrite Hpar. cbn [negb]. rewrite app_nil_r.
  split; [reflexivity|].
  destruct (Z.land (Z.shiftr frame 24) 15 =? 0) eqn:Hs; cbn [negb].
  - apply Z.eqb_eq in Hs. split; [intros []|]. split; auto.
  - apply Z.eqb_neq in Hs. split.
    + intros [E|[]]. discriminate.
    + split; [discriminate|]. intros E. contradiction.
Qed.

Lemma msg_name_known (master : bool) (m : Z) :
  0 <= m <= 7 ->
  dict_get (if master then MASTER_MSG_TYPES else SLAVE_MSG_TYPES) m
           "UNKNOWN"%string
  <> "UNKNOWN"%string.
Proof.
  intros Hm.
  assert (E : m = 0 \/ m = 1 \/ m = 2 \/ m = 3 \/ m = 4 \/ m = 5 \/ m = 6
              \/ m = 7) by lia.
  destruct master;
    destruct E as [-> | [-> | [-> | [-> | [-> | [-> | [-> | ->]]]]]]];
    discriminate.
Qed.

(** X21.  With the source letter that [format_frame_with_humanize] selects
    (T for the message types 0..3, B for 4..7), [decode_frame] reads the
    message type in the table of that direction: the name is never the
    default [UNKNOWN], and it is [RESERVED] for message type 3 only. *)
Theorem source_names_message (frame : Z) :
  0 <= frame < 2 ^ 32 ->
  exists f,
    decode_frame (fst (format_frame_with_humanize frame))
                 (snd (format_frame_with_humanize frame)) = Some f
    /\ (is_master_to_slave f = true <-> msg_type f <= 3)
    /\ msg_name f <> "UNKNOWN"%string
    /\ (msg_name f = "RESERVED"%string <-> msg_type f = 3).
Proof.
  intros Hf. cbn [format_frame_with_humanize fst snd].
  rewrite (decode_frame_format _ frame Hf). cbv zeta.
  eexists. split; [reflexivity|].
  cbn [is_master_to_slave msg_type msg_name].
  assert (Hm : 0 <= Z.land (Z.shiftr frame 28) (Z.ones 3) <= 7).
  { rewrite Z.land_ones by lia. change (2 ^ 3) with 8.
    pose proof (Z.mod_pos_bound (Z.shiftr frame 28) 8 ltac:(lia)). lia. }
  change (Z.ones 3) with 7 in Hm.
  remember (Z.land (Z.shiftr frame 28) 7) as m eqn:Em. clear Em.
  assert (E : m = 0 \/ m = 1 \/ m = 2 \/ m = 3 \/ m = 4 \/ m = 5 \/ m = 6
              \/ m = 7) by lia.
  destruct E as [-> | [-> | [-> | [-> | [-> | [-> | [-> | ->]]]]]]]; cbn.
  all: split; [split; intros; first [lia|reflexivity|congruence]|].
  all: split; [discriminate|].
  all: split; intros; first [reflexivity|lia|congruence].
Qed.

(** ** [decode_frame] on any string of binary digits *)

Lemma slice_binary (a b : nat) (s : list ascii) :
  Forall binary_digit s -> Forall binary_digit (slice a b s).
Proof.
  intros Hs. unfold slice.
  rewrite <- (firstn_skipn a s) in Hs. apply Forall_app in Hs as (_ & Hs).
  rewrite <- (firstn_skipn (b - a) (skipn a s)) in Hs.
  now apply Forall_app in Hs as (Hs & _).
Qed.

Lemma slice_length {A : Type} (a b : nat) (s : list A) :
  length (slice a b s) = Nat.min (b - a) (length s - a).
Proof. unfold slice. now rewrite length_firstn, length_skipn. Qed.

(** A slice of binary digits is a number below [2 ^ (b - a)], unless the
    string ends before the slice begins. *)
Lemma slice_parse (a b : nat) (s : list ascii) :
  Forall binary_digit s ->
  (a < b)%nat ->
  ((a < length s)%nat ->
   exists v, int_base2 (slice a b s) = Some v
             /\ 0 <= v < 2 ^ Z.of_nat (b - a))
  /\ ((length s <= a)%nat -> int_base2 (slice a b s) = None).
Proof.
  intros Hs Hab. pose proof (slice_length a b s) as Hl. split.
  - intros Ha.
    destruct (int_base2_binary (slice a b s) (slice_binary a b s Hs))
      as (v & Hv & Hb).
    + intros E. rewrite E in Hl. cbn [length] in Hl. lia.
    + exists v. split; [exact Hv|].
      assert (2 ^ Z.of_nat (length (slice a b s)) <= 2 ^ Z.of_nat (b - a))
        by (apply Z.pow_le_mono_r; lia).
      lia.
  - intros Ha. destruct (slice a b s) as [|c t]; [reflexivity|].
    cbn [length] in Hl. lia.
Qed.

(** X22.  [decode_frame] on a string of binary digits of any length: one of
    its five conversions [int(..., 2)] raises exactly when the string has
    fewer than 17 digits (the slice of the data value is empty); otherwise
    every field stays within its width and the message type, a number below
    8, always has a name in the table, so that the default [UNKNOWN] is
    never used. *)
Theorem decode_frame_binary (src : String.string) (frame_bits : list ascii) :
  Forall binary_digit frame_bits ->
  (decode_frame src frame_bits = None <-> (length frame_bits <= 16)%nat)
  /\ (forall f,
         decode_frame src frame_bits = Some f ->
         0 <= p_bit f <= 1
         /\ 0 <= msg_type f <= 7
         /\ 0 <= spare f <= 15
         /\ 0 <= data_id f <= 255
         /\ 0 <= data_val f <= 65535
         /\ msg_name f <> "UNKNOWN"%string).
Proof.
  intros Hs.
  destruct (slice_parse 0 1 frame_bits Hs ltac:(lia)) as (P1 & _).
  destruct (slice_parse 1 4 frame_bits Hs ltac:(lia)) as (P2 & _).
  destruct (slice_parse 4 8 frame_bits Hs ltac:(lia)) as (P3 & _).
  destruct (slice_parse 8 16 frame_bits Hs ltac:(lia)) as (P4 & _).
  destruct (slice_parse 16 32 frame_bits Hs ltac:(lia)) as (P5 & N5).
  destruct (le_lt_dec (length frame_bits) 16) as [Hshort|Hlong].
  - assert (Hnone : decode_frame src frame_bits = None).
    { unfold decode_frame, bits_to_u8, bits_to_u16. rewrite (N5 Hshort).
      destruct (int_base2 (slice 0 1 frame_bits)); [|reflexivity].
      destruct (int_base2 (slice 1 4 frame_bits)); [|reflexivity].
      destruct (int_base2 (slice 4 8 frame_bits)); [|reflexivity].
      destruct (int_base2 (slice 8 16 frame_bits)); reflexivity. }
    split; [split; auto|]. intros f Hsome. congruence.
  - destruct (P1 ltac:(lia)) as (v1 & E1 & B1).
    destruct (P2 ltac:(lia)) as (v2 & E2 & B2).
    destruct (P3 ltac:(lia)) as (v3 & E3 & B3).
    destruct (P4 ltac:(lia)) as (v4 & E4 & B4).
    destruct (P5 ltac:(lia)) as (v5 & E5 & B5).
    unfold decode_frame, bits_to_u8, bits_to_u16.
    rewrite E1, E2, E3, E4, E5. cbv zeta.
    split; [split; [discriminate|lia]|].
    intros f Hsome.
    assert (Hf : Some f = Some f) by reflexivity.
    rewrite <- Hsome in Hf at 1. clear Hsome.
    apply (f_equal (fun o => match o with Some x => x | None => f end)) in Hf.
    rewrite <- Hf.
    cbn [p_bit msg_type spare data_id data_val msg_name].
    change (2 ^ Z.of_nat (1 - 0)) with 2 in B1.
    change (2 ^ Z.of_nat (4 - 1)) with 8 in B2.
    change (2 ^ Z.of_nat (8 - 4)) with 16 in B3.
    change (2 ^ Z.of_nat (16 - 8)) with 256 in B4.
    change (2 ^ Z.of_nat (32 - 16)) with 65536 in B5.
    repeat (split; [lia|]).
    apply msg_name_known. lia.
Qed.

(** ** Signed data values *)

Lemma land_sign_bit (v : Z) :
  0 <= v < 2 ^ 16 -> (Z.land v 0x8000 =? 0) = (v <? 0x8000).
Proof.
  intros Hv. change (2 ^ 16) with 65536 in Hv.
  destruct (Z.ltb_spec v 0x8000) as [Hlt|Hge].
  - apply Z.eqb_eq.
    rewrite <- (Z.mod_small v (2 ^ 15)) by (change (2 ^ 15) with 32768; lia).
    rewrite <- Z.land_ones by lia. rewrite <- Z.land_assoc.
    change (Z.land (Z.ones 15) 32768) with 0. apply Z.land_0_r.
  - apply Z.eqb_neq. intros E.
    assert (Hbit : Z.testbit (Z.land v 0x8000) 15 = true).
    { rewrite Z.land_spec.
      rewrite (proj2 (Z.testbit_true v 15 ltac:(lia))); [reflexivity|].
      change (2 ^ 15) with 32768. Z.div_mod_to_equations. lia. }
    rewrite E in Hbit. discriminate.
Qed.

(** X23.  [u16_to_s16] is the two's complement reading of a 16-bit value:
    the result lies in [-32768..32767], is congruent to the value modulo
    [2 ^ 16], and is negative exactly when bit 15 of the value is set. *)
Theorem u16_to_s16_twos_complement (v : Z) :
  0 <= v < 2 ^ 16 ->
  - 2 ^ 15 <= u16_to_s16 v < 2 ^ 15
  /\ u16_to_s16 v mod 2 ^ 16 = v
  /\ (u16_to_s16 v < 0 <-> Z.testbit v 15 = true).
Proof.
  intros Hv. unfold u16_to_s16. rewrite (land_sign_bit v Hv).
  change (2 ^ 16) with 65536 in *. change (2 ^ 15) with 32768.
  rewrite (Z.testbit_true v 15) by lia. change (2 ^ 15) with 32768.
  destruct (Z.ltb_spec v 0x8000) as [Hlt|Hge]; cbn [negb].
  - split; [lia|]. split; [apply Z.mod_small; lia|].
    split; [lia|]. intros H. exfalso. revert H.
    Z.div_mod_to_equations. lia.
  - split; [lia|]. split.
    + replace (v - 65536) with (v + (-1) * 65536) by lia.
      rewrite Z.mod_add by lia. apply Z.mod_small. lia.
    + split; [intros _|lia]. Z.div_mod_to_equations. lia.
Qed.

(** ** Instances of the properties of the synthesizer and of the decoder *)

Lemma sample_rand_bounded (n : nat) : - 80 <= sample_rand n <= 80.
Proof. unfold sample_rand. destruct (Nat.even n); lia. Qed.

(** With a jitter of 80us every half-bit of frame [0x80190000] lasts between
    420 and 580us. *)
Lemma emit_halfbit_stream_durations_witness :
  exists stream,
    emit_halfbit_stream 0x80190000 500 5000 80 sample_rand = Some stream
    /\ Forall (fun p : pulse => 500 - 80 <= snd p <= 500 + 80) (tl stream).
Proof.
  destruct (emit_halfbit_stream 0x80190000 500 5000 80 sample_rand)
    as [stream|] eqn:Hemit; [|vm_compute in Hemit; discriminate].
  exists stream. split; [reflexivity|].
  apply (emit_halfbit_stream_durations _ _ _ _ _ _ Hemit).
  - exact sample_rand_bounded.
  - lia.
Defined.

(** [repeated_stream] collapses to three alternating pulses. *)
Lemma collapse_runs_alternating_witness :
  collapse_runs repeated_stream
  = Some [(LOW, 5000); (HIGH, 1000); (LOW, 500)]
  /\ alternating [(LOW, 5000); (HIGH, 1000); (LOW, 500)].
Proof.
  split; [reflexivity|].
  exact (proj1 (collapse_runs_alternating repeated_stream _ eq_refl)).
Defined.

(** [repeated_stream] lasts 6500us before and after the collapse. *)
Lemma collapse_runs_waveform_witness :
  total_duration [(LOW, 5000); (HIGH, 1000); (LOW, 500)]
  = total_duration repeated_stream.
Proof.
  exact (proj1 (collapse_runs_waveform repeated_stream _ eq_refl)).
Defined.

(** Collapsing the collapsed [repeated_stream] changes nothing. *)
Lemma collapse_runs_idempotent_witness :
  collapse_runs [(LOW, 5000); (HIGH, 1000); (LOW, 500)]
  = Some [(LOW, 5000); (HIGH, 1000); (LOW, 500)].
Proof.
  exact (collapse_runs_idempotent repeated_stream _ eq_refl).
Defined.

(** Frame [0x80190000] round-trips with a jitter of 80us. *)
Lemma round_trip_with_jitter_witness :
  exists stage1 stage2,
    emit_halfbit_stream 0x80190000 500 5000 80 sample_rand = Some stage1
    /\ collapse_runs stage1 = Some stage2
    /\ decode_opentherm stage2 = Some (Decoded 0x80190000 sample_bits).
Proof.
  destruct (round_trip_with_jitter 0x80190000 5000 80 sample_rand)
    as (s1 & s2 & H1 & H2 & H3).
  - lia.
  - reflexivity.
  - lia.
  - lia.
  - exact sample_rand_bounded.
  - exists s1, s2. repeat split; assumption.
Defined.

(** The collapsed stream of frame [0x80190000] with a jitter of 80us fits
    the 69 entries of the test vector. *)
Lemma synthesizer_pipeline_witness :
  exists stage1 stage2,
    emit_halfbit_stream 0x80190000 500 5000 80 sample_rand = Some stage1
    /\ collapse_runs stage1 = Some stage2
    /\ (length stage2 <= 69)%nat.
Proof.
  destruct (synthesizer_pipeline 0x80190000 500 5000 80 sample_rand)
    as (s1 & s2 & rest & H1 & H2 & _ & _ & H5).
  - lia.
  - lia.
  - lia.
  - discriminate.
  - exists s1, s2. repeat split; assumption.
Defined.

(** The frame decoded from [open_ended_stream] is well formed. *)
Lemma decoded_frame_valid_witness :
  0 <= 0x80190000 < 2 ^ 32
  /\ Nat.even (popcount 0x80190000) = true
  /\ sample_bits = structural_bits 0x80190000.
Proof.
  apply (decoded_frame_valid open_ended_stream).
  vm_compute. reflexivity.
Defined.

(** [short_stream] has four pulses and does not decode. *)
Lemma short_stream_never_decodes_witness :
  decode_opentherm short_stream = Some (Failed HalfCountMismatch)
  \/ decode_opentherm short_stream = Some (Failed InvalidDuration).
Proof.
  apply short_stream_never_decodes. vm_compute. lia.
Defined.

(** On [high_idle_stream] the buffer at the exit of the loop starts with
    the implicit HIGH half. *)
Lemma implicit_start_half_stays_witness :
  exists l, [HIGH; LOW; HIGH; HIGH] = HIGH :: l.
Proof.
  refine (proj2 (implicit_start_half_stays high_idle_stream _ _ _) _ _).
  - vm_compute. lia.
  - reflexivity.
  - reflexivity.
  - reflexivity.
Defined.

(** Frame [0x80190000] after a HIGH idle level of 6000us. *)
Lemma round_trip_high_idle_witness :
  exists rest,
    collapse_runs ((HIGH, 6000) :: timed 500 (halves_of (structural_bits 0x80190000)))
    = Some ((HIGH, 6500) :: rest)
    /\ decode_opentherm ((HIGH, 6500) :: rest)
       = Some (Decoded 0x80190000 sample_bits).
Proof.
  destruct (round_trip_high_idle 0x80190000 6000) as (rest & H1 & _ & H3).
  - lia.
  - reflexivity.
  - lia.
  - exists rest. split; assumption.
Defined.

(** ** Instances of the properties of the humanizer *)

(** The text of frame [0x80190000] reads back as the frame. *)
Lemma format_032b_round_trip_witness :
  int_base2 (format_032b 0x80190000) = Some 0x80190000.
Proof.
  destruct (format_032b_round_trip 0x80190000) as (_ & H & _).
  - lia.
  - exact H.
Defined.

(** The data id of frame [0x80190000] is 25, the boiler water
    temperature. *)
Lemma decode_frame_fields_witness :
  exists f,
    decode_frame "T"%string (format_032b 0x80190000) = Some f
    /\ data_id f = 25.
Proof.
  destruct (decode_frame_fields "T"%string 0x80190000)
    as (f & H & _ & _ & _ & Hid & _).
  - lia.
  - exists f. split; [exact H|exact Hid].
Defined.

(** The digits printed for [open_ended_stream]. *)
Lemma bits_str_is_frame_text_witness :
  bits_str sample_bits = snd (format_frame_with_humanize 0x80190000).
Proof.
  apply (bits_str_is_frame_text open_ended_stream).
  vm_compute. reflexivity.
Defined.

(** The frame of [open_ended_stream] is humanized without a parity
    warning. *)
Lemma decoded_frame_no_parity_error_witness :
  exists f,
    decode_frame (fst (format_frame_with_humanize 0x80190000))
                 (snd (format_frame_with_humanize 0x80190000)) = Some f
    /\ par_ok f = true.
Proof.
  destruct (decoded_frame_no_parity_error open_ended_stream 0x80190000
                                          sample_bits)
    as (f & H & Hpar & _).
  - vm_compute. reflexivity.
  - exists f. split; [exact H|exact Hpar].
Defined.

(** Frame [0x80190000] has message type 0 and is read as a master frame. *)
Lemma source_names_message_witness :
  exists f,
    decode_frame (fst (format_frame_with_humanize 0x80190000))
                 (snd (format_frame_with_humanize 0x80190000)) = Some f
    /\ msg_name f <> "UNKNOWN"%string.
Proof.
  destruct (source_names_message 0x80190000) as (f & H & _ & Hname & _).
  - lia.
  - exists f. split; [exact H|exact Hname].
Defined.

(** Three digits are too few for [decode_frame]. *)
Lemma decode_frame_binary_witness :
  decode_frame "T"%string short_frame_bits = None.
Proof.
  refine (proj2 (proj1 (decode_frame_binary "T"%string short_frame_bits _)) _).
  - constructor; [right; reflexivity|].
    constructor; [left; reflexivity|].
    constructor; [right; reflexivity|constructor].
  - vm_compute. lia.
Defined.

(** [0xFFFF] is read as -1. *)
Lemma u16_to_s16_twos_complement_witness :
  u16_to_s16 0xFFFF mod 2 ^ 16 = 0xFFFF.
Proof.
  destruct (u16_to_s16_twos_complement 0xFFFF) as (_ & H & _).
  - lia.
  - exact H.
Defined.
